(** * CrmETL: a shallow embedding of the HubSpot synchronisation pipeline

    The development follows the layers of the TypeScript sources:

    - [utils/helpers.ts]            string helpers and the two regular
                                    expressions ([isValidEmail], [isValidUuid]);
    - [types/schemas.ts], [types/hubspot.ts], [types/common.ts]
                                    the records and [AppError];
    - [database/connection.ts]      the two SQLite tables and their constraints;
    - [repositories/*Repository.ts] SQL access, [upsertByHubspotId];
    - [services/HubSpotApiService.ts] cursor pagination and [healthCheck];
    - [services/*Service.ts]        the service wrappers;
    - [services/EtlService.ts]      the orchestrator and its status object.

    Asynchronous code is sequential here: every [await] of the sources sits
    in a straight line of one logical run, so a promise is modelled by the
    computation it resolves to. *)

From Stdlib Require Import Ascii String List Arith Lia.
From stdpp Require Import base tactics option list strings.

Local Open Scope list_scope.

(* ===================================================================== *)
(** * JavaScript strings                                                   *)
(* ===================================================================== *)

(** Strings are sequences of code units below 256 (the Latin-1 range); the
    white space of [String.prototype.trim] and of the class [\s] in that
    range is TAB, LF, VT, FF, CR, SPACE and NBSP (U+00A0). *)

Module Js.

Definition is_space (c : ascii) : bool :=
  Ascii.is_space c || Ascii.eqb c "160"%char.

Fixpoint trimStart (s : string) : string :=
  match s with
  | EmptyString => EmptyString
  | String c s' => if is_space c then trimStart s' else s
  end.

Definition trimEnd (s : string) : string :=
  String.rev (trimStart (String.rev s)).

Definition trim (s : string) : string := trimEnd (trimStart s).

(** Truthiness of a string value: only the empty string is falsy. *)
Definition truthy (s : string) : bool := negb (String.eqb s "").

(** [x || undefined] and [if (x)] on [string | undefined]. *)
Definition truthy_opt (o : option string) : bool :=
  match o with Some s => truthy s | None => false end.

Definition or_undefined (s : string) : option string :=
  if truthy s then Some s else None.

(** [o || null] on [string | undefined]: the value bound to an SQL
    parameter. *)
Definition or_null (o : option string) : option string :=
  match o with Some s => or_undefined s | None => None end.

End Js.

(* ===================================================================== *)
(** * Regular expressions (the two literals of [utils/helpers.ts])         *)
(* ===================================================================== *)

(** A regular expression anchored on both sides ([^...$], no flag [m]) is
    matched by Brzozowski derivatives. *)

Module Regex.

Inductive t : Type :=
| Void                        (* matches nothing *)
| Eps                         (* matches the empty string *)
| Class (p : ascii -> bool)   (* one code unit of a class *)
| Seq (r1 r2 : t)
| Alt (r1 r2 : t)
| Star (r : t).

Definition Plus (r : t) : t := Seq r (Star r).

Fixpoint Repeat (n : nat) (r : t) : t :=
  match n with
  | O => Eps
  | S n' => Seq r (Repeat n' r)
  end.

Fixpoint nullable (r : t) : bool :=
  match r with
  | Void => false
  | Eps => true
  | Class _ => false
  | Seq r1 r2 => nullable r1 && nullable r2
  | Alt r1 r2 => nullable r1 || nullable r2
  | Star _ => true
  end.

Fixpoint deriv (c : ascii) (r : t) : t :=
  match r with
  | Void => Void
  | Eps => Void
  | Class p => if p c then Eps else Void
  | Seq r1 r2 =>
      if nullable r1
      then Alt (Seq (deriv c r1) r2) (deriv c r2)
      else Seq (deriv c r1) r2
  | Alt r1 r2 => Alt (deriv c r1) (deriv c r2)
  | Star r1 => Seq (deriv c r1) (Star r1)
  end.

(** Smart constructors keep the derivative small. *)
Fixpoint simp (r : t) : t :=
  match r with
  | Seq r1 r2 =>
      match simp r1, simp r2 with
      | Void, _ => Void
      | _, Void => Void
      | Eps, r2' => r2'
      | r1', r2' => Seq r1' r2'
      end
  | Alt r1 r2 =>
      match simp r1, simp r2 with
      | Void, r2' => r2'
      | r1', Void => r1'
      | r1', r2' => Alt r1' r2'
      end
  | _ => r
  end.

Fixpoint test (r : t) (s : string) : bool :=
  match s with
  | EmptyString => nullable r
  | String c s' => test (simp (deriv c r)) s'
  end.

Definition char (c : ascii) : t := Class (Ascii.eqb c).

Definition range (lo hi : ascii) : ascii -> bool :=
  fun c => ((nat_of_ascii lo <=? nat_of_ascii c)
            && (nat_of_ascii c <=? nat_of_ascii hi))%nat.

End Regex.

(* ===================================================================== *)
(** * utils/helpers.ts                                                     *)
(* ===================================================================== *)

(** [str?.trim() || ''] *)
Definition cleanString (str : option string) : string :=
  match str with
  | Some s => Js.trim s
  | None => ""
  end.

(** [/^[^\s@]+@[^\s@]+\.[^\s@]+$/] *)
Definition emailRegex : Regex.t :=
  let not_space_at := Regex.Class (fun c => negb (Js.is_space c || Ascii.eqb c "@"%char)) in
  Regex.Seq (Regex.Plus not_space_at)
    (Regex.Seq (Regex.char "@")
       (Regex.Seq (Regex.Plus not_space_at)
          (Regex.Seq (Regex.char ".") (Regex.Plus not_space_at)))).

Definition isValidEmail (email : string) : bool := Regex.test emailRegex email.

(** [/^[0-9a-f]{8}-[0-9a-f]{4}-[1-5][0-9a-f]{3}-[89ab][0-9a-f]{3}-[0-9a-f]{12}$/i] *)
Definition uuidRegex : Regex.t :=
  let hex := Regex.Class (fun c =>
    Regex.range "0" "9" c || Regex.range "a" "f" c || Regex.range "A" "F" c) in
  let dash := Regex.char "-" in
  let version := Regex.Class (Regex.range "1" "5") in
  let variant := Regex.Class (fun c =>
    Ascii.eqb c "8" || Ascii.eqb c "9" || Ascii.eqb c "a" || Ascii.eqb c "b"
    || Ascii.eqb c "A" || Ascii.eqb c "B")%char in
  Regex.Seq (Regex.Repeat 8 hex)
    (Regex.Seq dash
       (Regex.Seq (Regex.Repeat 4 hex)
          (Regex.Seq dash
             (Regex.Seq version
                (Regex.Seq (Regex.Repeat 3 hex)
                   (Regex.Seq dash
                      (Regex.Seq variant
                         (Regex.Seq (Regex.Repeat 3 hex)
                            (Regex.Seq dash (Regex.Repeat 12 hex)))))))))).

Definition isValidUuid (str : string) : bool := Regex.test uuidRegex str.

(* ===================================================================== *)
(** * types/common.ts: errors                                              *)
(* ===================================================================== *)

(** [AppError] extends [Error] with a status code; [JsError] stands for any
    other [Error] (an SQLite constraint failure, an axios failure). *)
Inductive Exn : Type :=
| AppError (message : string) (statusCode : nat)
| JsError (message : string).

Definition exn_message (e : Exn) : string :=
  match e with
  | AppError m _ => m
  | JsError m => m
  end.

(** [utils/helpers.ts]: [error instanceof Error ? error.message :
    String(error)]; everything thrown in this program is an [Error]. *)
Definition formatError (error : Exn) : string := exn_message error.

Definition instanceof_AppError (e : Exn) : bool :=
  match e with
  | AppError _ _ => true
  | JsError _ => false
  end.

(* ===================================================================== *)
(** * types/schemas.ts: entities                                           *)
(* ===================================================================== *)

Module Company.
Record t : Type := mk
  { id : string;
    hubspot_id : string;
    name : string;
    domain : string;
    created_at : string }.
End Company.

Module CreateCompany.
Record t : Type := mk
  { hubspot_id : string;
    name : string;
    domain : string }.
End CreateCompany.

(** [CreateCompanySchema.partial()] *)
Module UpdateCompany.
Record t : Type := mk
  { hubspot_id : option string;
    name : option string;
    domain : option string }.
End UpdateCompany.

Module Contact.
Record t : Type := mk
  { id : string;
    hubspot_id : string;
    firstname : option string;
    lastname : option string;
    email : string;
    company_id : option string;
    created_at : string }.
End Contact.

Module CreateContact.
Record t : Type := mk
  { hubspot_id : string;
    firstname : option string;
    lastname : option string;
    email : string;
    company_id : option string }.
End CreateContact.

(** [CreateContactSchema.partial()] *)
Module UpdateContact.
Record t : Type := mk
  { hubspot_id : option string;
    firstname : option string;
    lastname : option string;
    email : option string;
    company_id : option string }.
End UpdateContact.

(** A [CreateCompany] passed where an [UpdateCompany] is expected: every
    field is present. *)
Definition CreateCompany_as_update (c : CreateCompany.t) : UpdateCompany.t :=
  {| UpdateCompany.hubspot_id := Some (CreateCompany.hubspot_id c);
     UpdateCompany.name := Some (CreateCompany.name c);
     UpdateCompany.domain := Some (CreateCompany.domain c) |}.

(** A [CreateContact] passed where an [UpdateContact] is expected: the
    optional fields stay [undefined] when they were. *)
Definition CreateContact_as_update (c : CreateContact.t) : UpdateContact.t :=
  {| UpdateContact.hubspot_id := Some (CreateContact.hubspot_id c);
     UpdateContact.firstname := CreateContact.firstname c;
     UpdateContact.lastname := CreateContact.lastname c;
     UpdateContact.email := Some (CreateContact.email c);
     UpdateContact.company_id := CreateContact.company_id c |}.

Record EtlSyncResponse : Type :=
  { message : string;
    contactsSynced : nat;
    companiesSynced : nat;
    syncedAt : option string }.

(* ===================================================================== *)
(** * types/hubspot.ts                                                     *)
(* ===================================================================== *)

(** The property bag [{ [key: string]: string | undefined }] of a HubSpot
    object; a key that is absent (or [null] in the JSON) has no entry. The
    fields [createdAt], [updatedAt] and [archived] are never read. *)
Record HubSpotObject : Type :=
  { hs_id : string;
    properties : list (string * string) }.

Fixpoint prop (key : string) (bag : list (string * string)) : option string :=
  match bag with
  | [] => None
  | (k, v) :: bag' => if String.eqb k key then Some v else prop key bag'
  end.

Record Next : Type := { after : string; link : string }.
Record Paging : Type := { next : option Next }.

(** [HubSpotBaseResponse<T>] *)
Record ResponseData : Type :=
  { results : list HubSpotObject;
    paging : option Paging }.

(** A JavaScript array is a reference: the status object holds the address
    of its [errors] array. *)
Abbreviation loc := nat (only parsing).

Record EtlSyncStatus : Type :=
  { isRunning : bool;
    startedAt : option string;
    completedAt : option string;
    contactsProcessed : nat;
    companiesProcessed : nat;
    errors : loc }.

(* ===================================================================== *)
(** * The world a run executes in                                          *)
(* ===================================================================== *)

Record HttpRequest : Type :=
  { url : string;
    params : list (string * string) }.

(** What [httpClient.get] resolves to, or rejects with. *)
Inductive HttpResponse : Type :=
| HttpOk (data : ResponseData)
| HttpFail (message : string).

(** [database/connection.ts]: the rows of the two tables, in rowid order. *)
Record Database : Type :=
  { companies : list Company.t;
    contacts : list Contact.t }.

(** Observable events of a run, oldest first: the requests sent upstream
    and the successful writes to the database (state before and after).
    The trace is a ghost: the program never reads it. *)
Inductive Event : Type :=
| EvRequest (r : HttpRequest)
| EvWrite (before after : Database).

Record World : Type :=
  { db : Database;
    syncStatus : EtlSyncStatus;          (* [EtlService.syncStatus] *)
    heap : list (list string);           (* arrays of strings, by address *)
    upstream : list HttpResponse;        (* what HubSpot will answer, in order *)
    trace : list Event;
    warnings : list string;              (* [logger.warn] *)
    uuid : nat -> string;                (* [uuidv4()], by call number *)
    uuid_next : nat;
    clock : nat -> string;               (* [new Date().toISOString()] *)
    clock_next : nat }.

Definition set_db (d : Database) (w : World) : World :=
  {| db := d; syncStatus := syncStatus w; heap := heap w;
     upstream := upstream w; trace := trace w; warnings := warnings w;
     uuid := uuid w; uuid_next := uuid_next w;
     clock := clock w; clock_next := clock_next w |}.

Definition set_syncStatus (s : EtlSyncStatus) (w : World) : World :=
  {| db := db w; syncStatus := s; heap := heap w;
     upstream := upstream w; trace := trace w; warnings := warnings w;
     uuid := uuid w; uuid_next := uuid_next w;
     clock := clock w; clock_next := clock_next w |}.

Definition set_heap (h : list (list string)) (w : World) : World :=
  {| db := db w; syncStatus := syncStatus w; heap := h;
     upstream := upstream w; trace := trace w; warnings := warnings w;
     uuid := uuid w; uuid_next := uuid_next w;
     clock := clock w; clock_next := clock_next w |}.

Definition set_upstream (u : list HttpResponse) (w : World) : World :=
  {| db := db w; syncStatus := syncStatus w; heap := heap w;
     upstream := u; trace := trace w; warnings := warnings w;
     uuid := uuid w; uuid_next := uuid_next w;
     clock := clock w; clock_next := clock_next w |}.

Definition set_trace (t : list Event) (w : World) : World :=
  {| db := db w; syncStatus := syncStatus w; heap := heap w;
     upstream := upstream w; trace := t; warnings := warnings w;
     uuid := uuid w; uuid_next := uuid_next w;
     clock := clock w; clock_next := clock_next w |}.

Definition set_warnings (l : list string) (w : World) : World :=
  {| db := db w; syncStatus := syncStatus w; heap := heap w;
     upstream := upstream w; trace := trace w; warnings := l;
     uuid := uuid w; uuid_next := uuid_next w;
     clock := clock w; clock_next := clock_next w |}.

Definition set_uuid_next (n : nat) (w : World) : World :=
  {| db := db w; syncStatus := syncStatus w; heap := heap w;
     upstream := upstream w; trace := trace w; warnings := warnings w;
     uuid := uuid w; uuid_next := n;
     clock := clock w; clock_next := clock_next w |}.

Definition set_clock_next (n : nat) (w : World) : World :=
  {| db := db w; syncStatus := syncStatus w; heap := heap w;
     upstream := upstream w; trace := trace w; warnings := warnings w;
     uuid := uuid w; uuid_next := uuid_next w;
     clock := clock w; clock_next := n |}.

(* ===================================================================== *)
(** * Computations: state and exceptions                                   *)
(* ===================================================================== *)

(** A computation runs in a world and either returns or throws; the world
    it leaves behind is kept in both cases, as a [catch] block sees every
    effect that happened before the [throw]. *)
Inductive Completion (A : Type) : Type :=
| Return (a : A)
| Throw (e : Exn).
Arguments Return {A} a.
Arguments Throw {A} e.

Definition M (A : Type) : Type := World -> Completion A * World.

Definition ret {A} (a : A) : M A := fun w => (Return a, w).

Definition throw {A} (e : Exn) : M A := fun w => (Throw e, w).

Definition bind {A B} (m : M A) (k : A -> M B) : M B :=
  fun w =>
    match m w with
    | (Return a, w') => k a w'
    | (Throw e, w') => (Throw e, w')
    end.

Definition try_catch {A} (m : M A) (handler : Exn -> M A) : M A :=
  fun w =>
    match m w with
    | (Return a, w') => (Return a, w')
    | (Throw e, w') => handler e w'
    end.

Definition gets {A} (f : World -> A) : M A := fun w => (Return (f w), w).

Definition modify (f : World -> World) : M unit := fun w => (Return tt, f w).

Notation "x <- m ;; k" := (bind m (fun x => k))
  (at level 100, m at next level, right associativity).
Notation "m ;;; k" := (bind m (fun _ => k))
  (at level 100, right associativity).

(** [for (const x of xs) { body }] *)
Fixpoint for_of {A} (xs : list A) (body : A -> M unit) : M unit :=
  match xs with
  | [] => ret tt
  | x :: xs' => body x ;;; for_of xs' body
  end.

(** [generateId()] and [getCurrentTimestamp()] *)
Definition generateId : M string :=
  fun w => (Return (uuid w (uuid_next w)), set_uuid_next (S (uuid_next w)) w).

Definition getCurrentTimestamp : M string :=
  fun w => (Return (clock w (clock_next w)), set_clock_next (S (clock_next w)) w).

(** [sleep(ms)]: waiting changes nothing that the program observes. *)
Definition sleep (ms : nat) : M unit := ret tt.

(** Of the logger only the [warn] level is modelled: it is the one the skip
    accounting goes to; the other levels change no program state. *)
Definition logger_warn (msg : string) : M unit :=
  modify (fun w => set_warnings (warnings w ++ [msg]) w).

(** Arrays of strings on the heap: the literal [[]] allocates, [push]
    updates in place. *)
Definition new_array (xs : list string) : M loc :=
  fun w => (Return (length (heap w)), set_heap (heap w ++ [xs]) w).

Definition array_push (l : loc) (x : string) : M unit :=
  modify (fun w => set_heap (alter (fun a => a ++ [x]) l (heap w)) w).

Definition array_read (w : World) (l : loc) : list string :=
  default [] (heap w !! l).

(* ===================================================================== *)
(** * database/connection.ts: the SQL statements and the constraints       *)
(* ===================================================================== *)

(** [companies]: [id] PRIMARY KEY, [hubspot_id] UNIQUE.
    [contacts]: [id] PRIMARY KEY, [hubspot_id] UNIQUE, [email] UNIQUE,
    [company_id] REFERENCES [companies(id)] with [PRAGMA foreign_keys = ON].
    A statement that would break a constraint rejects and changes nothing. *)
Module Sql.

Definition constraint_failed (what : string) : Exn :=
  JsError ("SQLITE_CONSTRAINT: " +:+ what).

Definition commit (d' : Database) : M unit :=
  modify (fun w => set_trace (trace w ++ [EvWrite (db w) d']) (set_db d' w)).

(** [SELECT ... WHERE col = ?] through [db.get]: the first matching row. *)
Definition company_where (col : Company.t -> string) (v : string)
  : M (option Company.t) :=
  gets (fun w => head (filter (fun r => col r = v) (companies (db w)))).

Definition contact_where (col : Contact.t -> string) (v : string)
  : M (option Contact.t) :=
  gets (fun w => head (filter (fun r => col r = v) (contacts (db w)))).

(** A new value [v] for a UNIQUE column of the row [i] collides when a
    different row already holds it. *)
Definition collides {R} (rid col : R -> string) (i : string)
    (v : option string) (rows : list R) : bool :=
  match v with
  | None => false
  | Some x =>
      bool_decide (i ∈ rid <$> rows)
      && bool_decide (x ∈ col <$> filter (fun r => rid r ≠ i) rows)
  end.

(** The rows whose identifier is [i] are rewritten by [f]. *)
Definition rewrite_rows {R} (rid : R -> string) (i : string) (f : R -> R)
    (rows : list R) : list R :=
  (fun r => if decide (rid r = i) then f r else r) <$> rows.

(** A non-null foreign key must name an existing company. *)
Definition dangling (v : option string) (d : Database) : bool :=
  match v with
  | None => false
  | Some c => negb (bool_decide (c ∈ Company.id <$> companies d))
  end.

Definition insert_company (row : Company.t) : M unit :=
  fun w =>
    let rows := companies (db w) in
    if bool_decide (Company.id row ∈ Company.id <$> rows)
    then throw (constraint_failed "UNIQUE constraint failed: companies.id") w
    else if bool_decide (Company.hubspot_id row ∈ Company.hubspot_id <$> rows)
    then throw (constraint_failed "UNIQUE constraint failed: companies.hubspot_id") w
    else commit {| companies := rows ++ [row];
                   contacts := contacts (db w) |} w.

Definition set_company (u : UpdateCompany.t) (r : Company.t) : Company.t :=
  {| Company.id := Company.id r;
     Company.hubspot_id := default (Company.hubspot_id r) (UpdateCompany.hubspot_id u);
     Company.name := default (Company.name r) (UpdateCompany.name u);
     Company.domain := default (Company.domain r) (UpdateCompany.domain u);
     Company.created_at := Company.created_at r |}.

(** [UPDATE companies SET <the fields present in u> WHERE id = ?] *)
Definition update_company (i : string) (u : UpdateCompany.t) : M unit :=
  fun w =>
    let rows := companies (db w) in
    if collides Company.id Company.hubspot_id i (UpdateCompany.hubspot_id u) rows
    then throw (constraint_failed "UNIQUE constraint failed: companies.hubspot_id") w
    else commit
           {| companies := rewrite_rows Company.id i (set_company u) rows;
              contacts := contacts (db w) |} w.

Definition insert_contact (row : Contact.t) : M unit :=
  fun w =>
    let rows := contacts (db w) in
    if bool_decide (Contact.id row ∈ Contact.id <$> rows)
    then throw (constraint_failed "UNIQUE constraint failed: contacts.id") w
    else if bool_decide (Contact.hubspot_id row ∈ Contact.hubspot_id <$> rows)
    then throw (constraint_failed "UNIQUE constraint failed: contacts.hubspot_id") w
    else if bool_decide (Contact.email row ∈ Contact.email <$> rows)
    then throw (constraint_failed "UNIQUE constraint failed: contacts.email") w
    else if dangling (Contact.company_id row) (db w)
    then throw (constraint_failed "FOREIGN KEY constraint failed") w
    else commit {| companies := companies (db w);
                   contacts := rows ++ [row] |} w.

Definition set_contact (u : UpdateContact.t) (r : Contact.t) : Contact.t :=
  {| Contact.id := Contact.id r;
     Contact.hubspot_id := default (Contact.hubspot_id r) (UpdateContact.hubspot_id u);
     Contact.firstname :=
       match UpdateContact.firstname u with
       | Some v => Some v
       | None => Contact.firstname r
       end;
     Contact.lastname :=
       match UpdateContact.lastname u with
       | Some v => Some v
       | None => Contact.lastname r
       end;
     Contact.email := default (Contact.email r) (UpdateContact.email u);
     Contact.company_id :=
       match UpdateContact.company_id u with
       | Some v => Some v
       | None => Contact.company_id r
       end;
     Contact.created_at := Contact.created_at r |}.

(** [UPDATE contacts SET <the fields present in u> WHERE id = ?] *)
Definition update_contact (i : string) (u : UpdateContact.t) : M unit :=
  fun w =>
    let rows := contacts (db w) in
    if collides Contact.id Contact.hubspot_id i (UpdateContact.hubspot_id u) rows
    then throw (constraint_failed "UNIQUE constraint failed: contacts.hubspot_id") w
    else if collides Contact.id Contact.email i (UpdateContact.email u) rows
    then throw (constraint_failed "UNIQUE constraint failed: contacts.email") w
    else if bool_decide (i ∈ Contact.id <$> rows)
            && dangling (UpdateContact.company_id u) (db w)
    then throw (constraint_failed "FOREIGN KEY constraint failed") w
    else commit
           {| companies := companies (db w);
              contacts := rewrite_rows Contact.id i (set_contact u) rows |} w.

End Sql.

(* ===================================================================== *)
(** * repositories/CompanyRepository.ts                                    *)
(* ===================================================================== *)

(** The [try { ... } catch (error) { logger.error(...); throw error; }]
    around every repository method rethrows what it caught, so it is left
    out. *)
Module CompanyRepository.

Definition findById (id : string) : M (option Company.t) :=
  Sql.company_where Company.id id.

Definition findByHubspotId (hubspotId : string) : M (option Company.t) :=
  Sql.company_where Company.hubspot_id hubspotId.

Definition create (companyData : CreateCompany.t) : M Company.t :=
  id <- generateId ;;
  createdAt <- getCurrentTimestamp ;;
  let company :=
    {| Company.id := id;
       Company.hubspot_id := CreateCompany.hubspot_id companyData;
       Company.name := CreateCompany.name companyData;
       Company.domain := CreateCompany.domain companyData;
       Company.created_at := createdAt |} in
  Sql.insert_company company ;;;
  ret company.

Definition update (id : string) (updates : UpdateCompany.t)
  : M (option Company.t) :=
  existingCompany <- findById id ;;
  match existingCompany with
  | None => ret None
  | Some existing =>
      match UpdateCompany.hubspot_id updates, UpdateCompany.name updates,
            UpdateCompany.domain updates with
      | None, None, None => ret (Some existing)
      | _, _, _ => Sql.update_company id updates ;;; findById id
      end
  end.

(** The result is [updatedCompany!]: the assertion is erased at run time,
    so the value may still be [null]. *)
Definition upsertByHubspotId (companyData : CreateCompany.t)
  : M (option Company.t) :=
  existingCompany <- findByHubspotId (CreateCompany.hubspot_id companyData) ;;
  match existingCompany with
  | Some existing =>
      update (Company.id existing) (CreateCompany_as_update companyData)
  | None =>
      company <- create companyData ;;
      ret (Some company)
  end.

Definition count : M nat :=
  gets (fun w => length (companies (db w))).

End CompanyRepository.

(* ===================================================================== *)
(** * repositories/ContactRepository.ts                                    *)
(* ===================================================================== *)

Module ContactRepository.

Definition findById (id : string) : M (option Contact.t) :=
  Sql.contact_where Contact.id id.

Definition findByHubspotId (hubspotId : string) : M (option Contact.t) :=
  Sql.contact_where Contact.hubspot_id hubspotId.

Definition findByEmail (email : string) : M (option Contact.t) :=
  Sql.contact_where Contact.email email.

(** The row binds [firstname || null], [lastname || null] and
    [company_id || null]; the object returned keeps the values given. *)
Definition create (contactData : CreateContact.t) : M Contact.t :=
  id <- generateId ;;
  createdAt <- getCurrentTimestamp ;;
  let contact :=
    {| Contact.id := id;
       Contact.hubspot_id := CreateContact.hubspot_id contactData;
       Contact.firstname := CreateContact.firstname contactData;
       Contact.lastname := CreateContact.lastname contactData;
       Contact.email := CreateContact.email contactData;
       Contact.company_id := CreateContact.company_id contactData;
       Contact.created_at := createdAt |} in
  Sql.insert_contact
    {| Contact.id := Contact.id contact;
       Contact.hubspot_id := Contact.hubspot_id contact;
       Contact.firstname := Js.or_null (Contact.firstname contact);
       Contact.lastname := Js.or_null (Contact.lastname contact);
       Contact.email := Contact.email contact;
       Contact.company_id := Js.or_null (Contact.company_id contact);
       Contact.created_at := Contact.created_at contact |} ;;;
  ret contact.

Definition update (id : string) (updates : UpdateContact.t)
  : M (option Contact.t) :=
  existingContact <- findById id ;;
  match existingContact with
  | None => ret None
  | Some existing =>
      match UpdateContact.hubspot_id updates, UpdateContact.firstname updates,
            UpdateContact.lastname updates, UpdateContact.email updates,
            UpdateContact.company_id updates with
      | None, None, None, None, None => ret (Some existing)
      | _, _, _, _, _ => Sql.update_contact id updates ;;; findById id
      end
  end.

Definition upsertByHubspotId (contactData : CreateContact.t)
  : M (option Contact.t) :=
  existingContact <- findByHubspotId (CreateContact.hubspot_id contactData) ;;
  match existingContact with
  | Some existing =>
      update (Contact.id existing) (CreateContact_as_update contactData)
  | None =>
      contact <- create contactData ;;
      ret (Some contact)
  end.

Definition count : M nat :=
  gets (fun w => length (contacts (db w))).

End ContactRepository.

(* ===================================================================== *)
(** * services/HubSpotApiService.ts                                        *)
(* ===================================================================== *)

Module HubSpotApiService.

Definition rateLimitDelay : nat := 100.

(** [httpClient.get(url, { params })]: the request goes out and the next
    answer of the upstream comes back; axios rejects on a failed answer
    (the response interceptor logs and rethrows), and an upstream that
    has nothing left to say is a network error. *)
Definition httpClient_get (u : string) (ps : list (string * string))
  : M ResponseData :=
  fun w =>
    let w1 := set_trace (trace w ++ [EvRequest {| url := u; params := ps |}]) w in
    match upstream w with
    | [] => (Throw (JsError "Network Error"), w1)
    | HttpOk data :: rest => (Return data, set_upstream rest w1)
    | HttpFail m :: rest => (Throw (JsError m), set_upstream rest w1)
    end.

Definition page_params (properties : string) (cursor : option string)
  : list (string * string) :=
  [("limit", "100"); ("properties", properties)]
  ++ match cursor with
     | Some a => if Js.truthy a then [("after", a)] else []
     | None => []
     end.

(** The [while (hasMore)] loop shared, up to the path and the property
    list, by [getAllContacts] and [getAllCompanies]; [cursor] is the
    variable [after] of the sources. One unit of fuel is spent per
    request. *)
Fixpoint fetch_pages (fuel : nat) (u properties : string)
    (all : list HubSpotObject) (cursor : option string)
  : M (list HubSpotObject) :=
  match fuel with
  | O => throw (JsError "fetch_pages: out of fuel")
  | S fuel' =>
      response <- httpClient_get u (page_params properties cursor) ;;
      let all' := all ++ results response in
      let next_page := paging response ≫= next in
      let hasMore := bool_decide (is_Some next_page) in
      let cursor' := after <$> next_page in
      if hasMore
      then sleep rateLimitDelay ;;;
           fetch_pages fuel' u properties all' cursor'
      else ret all'
  end.

Definition contacts_path : string := "/crm/v3/objects/contacts".
Definition companies_path : string := "/crm/v3/objects/companies".

(** Every request takes one answer from the upstream, so one more unit
    of fuel than there are answers is never used up. *)
Definition getAllContacts : M (list HubSpotObject) :=
  fun w =>
    fetch_pages (S (length (upstream w))) contacts_path
      "firstname,lastname,email,associatedcompanyid" [] None w.

Definition getAllCompanies : M (list HubSpotObject) :=
  fun w =>
    fetch_pages (S (length (upstream w))) companies_path
      "name,domain" [] None w.

Definition healthCheck : M bool :=
  try_catch
    (httpClient_get contacts_path [("limit", "1"); ("properties", "email")] ;;;
     ret true)
    (fun _ => ret false).

End HubSpotApiService.

(* ===================================================================== *)
(** * services/CompanyService.ts, services/ContactService.ts               *)
(* ===================================================================== *)

Module CompanyService.

Definition getCompanyByHubspotId (hubspotId : string) : M (option Company.t) :=
  try_catch
    (CompanyRepository.findByHubspotId hubspotId)
    (fun _ => throw (AppError "Failed to retrieve company" 500)).

Definition upsertCompanyByHubspotId (companyData : CreateCompany.t)
  : M (option Company.t) :=
  try_catch
    (CompanyRepository.upsertByHubspotId companyData)
    (fun _ => throw (AppError "Failed to upsert company" 500)).

Definition getCompanyCount : M nat :=
  try_catch
    CompanyRepository.count
    (fun _ => throw (AppError "Failed to get company count" 500)).

End CompanyService.

Module ContactService.

Definition createContact (contactData : CreateContact.t) : M Contact.t :=
  if negb (isValidEmail (CreateContact.email contactData))
  then throw (AppError "Invalid email format" 400)
  else if Js.truthy_opt (CreateContact.company_id contactData)
          && negb (isValidUuid (default "" (CreateContact.company_id contactData)))
  then throw (AppError "Invalid company ID format" 400)
  else
    try_catch
      (existingContact <-
         ContactRepository.findByHubspotId (CreateContact.hubspot_id contactData) ;;
       (if bool_decide (is_Some existingContact)
        then throw (AppError ("Contact with hubspot_id "
                              +:+ CreateContact.hubspot_id contactData
                              +:+ " already exists") 409)
        else ret tt) ;;;
       existingEmailContact <-
         ContactRepository.findByEmail (CreateContact.email contactData) ;;
       (if bool_decide (is_Some existingEmailContact)
        then throw (AppError ("Contact with email "
                              +:+ CreateContact.email contactData
                              +:+ " already exists") 409)
        else ret tt) ;;;
       (if Js.truthy_opt (CreateContact.company_id contactData)
        then
          let company_id := default "" (CreateContact.company_id contactData) in
          company <- CompanyRepository.findById company_id ;;
          if bool_decide (is_Some company)
          then ret tt
          else throw (AppError ("Company with id " +:+ company_id
                                +:+ " not found") 404)
        else ret tt) ;;;
       ContactRepository.create contactData)
      (fun error =>
         if instanceof_AppError error
         then throw error
         else throw (AppError "Failed to create contact" 500)).

Definition upsertContactByHubspotId (contactData : CreateContact.t)
  : M (option Contact.t) :=
  try_catch
    (ContactRepository.upsertByHubspotId contactData)
    (fun _ => throw (AppError "Failed to upsert contact" 500)).

Definition getContactCount : M nat :=
  try_catch
    ContactRepository.count
    (fun _ => throw (AppError "Failed to get contact count" 500)).

End ContactService.

(* ===================================================================== *)
(** * services/EtlService.ts                                               *)
(* ===================================================================== *)

Module EtlService.

(** Assignments to the fields of [this.syncStatus]. *)
Definition set_isRunning (b : bool) (s : EtlSyncStatus) : EtlSyncStatus :=
  {| isRunning := b; startedAt := startedAt s; completedAt := completedAt s;
     contactsProcessed := contactsProcessed s;
     companiesProcessed := companiesProcessed s; errors := errors s |}.

Definition set_completedAt (t : option string) (s : EtlSyncStatus)
  : EtlSyncStatus :=
  {| isRunning := isRunning s; startedAt := startedAt s; completedAt := t;
     contactsProcessed := contactsProcessed s;
     companiesProcessed := companiesProcessed s; errors := errors s |}.

Definition incr_contactsProcessed (s : EtlSyncStatus) : EtlSyncStatus :=
  {| isRunning := isRunning s; startedAt := startedAt s;
     completedAt := completedAt s;
     contactsProcessed := S (contactsProcessed s);
     companiesProcessed := companiesProcessed s; errors := errors s |}.

Definition incr_companiesProcessed (s : EtlSyncStatus) : EtlSyncStatus :=
  {| isRunning := isRunning s; startedAt := startedAt s;
     completedAt := completedAt s;
     contactsProcessed := contactsProcessed s;
     companiesProcessed := S (companiesProcessed s); errors := errors s |}.

Definition update_status (f : EtlSyncStatus -> EtlSyncStatus) : M unit :=
  modify (fun w => set_syncStatus (f (syncStatus w)) w).

(** [this.syncStatus.errors.push(msg)] *)
Definition errors_push (msg : string) : M unit :=
  l <- gets (fun w => errors (syncStatus w)) ;;
  array_push l msg.

(** The field initialiser of the class: a status that is not running,
    with a fresh empty [errors] array. *)
Definition init : M unit :=
  errs <- new_array [] ;;
  modify (set_syncStatus
            {| isRunning := false; startedAt := None; completedAt := None;
               contactsProcessed := 0; companiesProcessed := 0;
               errors := errs |}).

Definition transformHubspotCompany (hubspotCompany : HubSpotObject)
  : CreateCompany.t :=
  let name := cleanString (prop "name" (properties hubspotCompany)) in
  let domain := cleanString (prop "domain" (properties hubspotCompany)) in
  {| CreateCompany.hubspot_id := hs_id hubspotCompany;
     CreateCompany.name := if Js.truthy name then name else "Unknown Company";
     CreateCompany.domain := if Js.truthy domain then domain else "unknown.com" |}.

Definition transformHubspotContact (hubspotContact : HubSpotObject)
  : M CreateContact.t :=
  let firstname := cleanString (prop "firstname" (properties hubspotContact)) in
  let lastname := cleanString (prop "lastname" (properties hubspotContact)) in
  let email := cleanString (prop "email" (properties hubspotContact)) in
  let associatedCompanyId := prop "associatedcompanyid" (properties hubspotContact) in
  companyId <-
    (if Js.truthy_opt associatedCompanyId
     then
       try_catch
         (company <- CompanyService.getCompanyByHubspotId
                       (default "" associatedCompanyId) ;;
          ret (Company.id <$> company))
         (fun _ => ret None)
     else ret None) ;;
  ret {| CreateContact.hubspot_id := hs_id hubspotContact;
         CreateContact.firstname := Js.or_undefined firstname;
         CreateContact.lastname := Js.or_undefined lastname;
         CreateContact.email := email;
         CreateContact.company_id := companyId |}.

(** The body of the [for] loop of [syncCompanies], with its own
    [try]/[catch]. *)
Definition syncCompany (hubspotCompany : HubSpotObject) : M unit :=
  try_catch
    (let companyData := transformHubspotCompany hubspotCompany in
     if Js.truthy (CreateCompany.name companyData)
        && Js.truthy (CreateCompany.domain companyData)
     then
       CompanyService.upsertCompanyByHubspotId companyData ;;;
       update_status incr_companiesProcessed
     else
       logger_warn ("Skipping company " +:+ hs_id hubspotCompany
                    +:+ " - missing required data"))
    (fun error =>
       errors_push ("Failed to sync company " +:+ hs_id hubspotCompany
                    +:+ ": " +:+ formatError error)).

(** The outer [catch] of [syncCompanies] logs and rethrows. *)
Definition syncCompanies : M unit :=
  hubspotCompanies <- HubSpotApiService.getAllCompanies ;;
  for_of hubspotCompanies syncCompany.

Definition syncContact (hubspotContact : HubSpotObject) : M unit :=
  try_catch
    (contactData <- transformHubspotContact hubspotContact ;;
     if Js.truthy (CreateContact.email contactData)
     then
       ContactService.upsertContactByHubspotId contactData ;;;
       update_status incr_contactsProcessed
     else
       logger_warn ("Skipping contact " +:+ hs_id hubspotContact
                    +:+ " - missing email"))
    (fun error =>
       errors_push ("Failed to sync contact " +:+ hs_id hubspotContact
                    +:+ ": " +:+ formatError error)).

Definition syncContacts : M unit :=
  hubspotContacts <- HubSpotApiService.getAllContacts ;;
  for_of hubspotContacts syncContact.

Definition syncCrmData : M EtlSyncResponse :=
  running <- gets (fun w => isRunning (syncStatus w)) ;;
  if running
  then throw (AppError "ETL sync is already running" 409)
  else
    now <- getCurrentTimestamp ;;
    errs <- new_array [] ;;
    modify (set_syncStatus
              {| isRunning := true; startedAt := Some now;
                 completedAt := None;
                 contactsProcessed := 0; companiesProcessed := 0;
                 errors := errs |}) ;;;
    try_catch
      (isHealthy <- HubSpotApiService.healthCheck ;;
       (if negb isHealthy
        then throw (AppError "HubSpot API is not accessible" 502)
        else ret tt) ;;;
       syncCompanies ;;;
       syncContacts ;;;
       now <- getCurrentTimestamp ;;
       update_status (set_completedAt (Some now)) ;;;
       update_status (set_isRunning false) ;;;
       status <- gets syncStatus ;;
       ret {| message := "Sync completed successfully";
              contactsSynced := contactsProcessed status;
              companiesSynced := companiesProcessed status;
              syncedAt := completedAt status |})
      (fun error =>
         update_status (set_isRunning false) ;;;
         now <- getCurrentTimestamp ;;
         update_status (set_completedAt (Some now)) ;;;
         errors_push (formatError error) ;;;
         if instanceof_AppError error
         then throw error
         else throw (AppError "ETL sync failed due to an unexpected error" 500)).

(** [return { ...this.syncStatus }]: a new object with the same field
    values, so the scalars are copied and [errors] is the same array. *)
Definition getSyncStatus : M EtlSyncStatus := gets syncStatus.

Definition isSyncRunning : M bool := gets (fun w => isRunning (syncStatus w)).

Definition getLastSyncInfo : M (option (nat * nat)) :=
  try_catch
    (contactCount <- ContactService.getContactCount ;;
     companyCount <- CompanyService.getCompanyCount ;;
     ret (Some (contactCount, companyCount)))
    (fun _ => ret None).

End EtlService.

(* ===================================================================== *)
(** * Schema invariants and observations                                   *)
(* ===================================================================== *)

(** What SQLite guarantees of every database state. *)
Record companies_ok (d : Database) : Prop :=
  { company_ids_unique : NoDup (Company.id <$> companies d);
    company_hubspot_ids_unique : NoDup (Company.hubspot_id <$> companies d) }.

Record contacts_ok (d : Database) : Prop :=
  { contact_ids_unique : NoDup (Contact.id <$> contacts d);
    contact_hubspot_ids_unique : NoDup (Contact.hubspot_id <$> contacts d);
    contact_emails_unique : NoDup (Contact.email <$> contacts d) }.

(** Every company reference of a stored contact names a stored company. *)
Definition references_ok (d : Database) : Prop :=
  ∀ r c, r ∈ contacts d → Contact.company_id r = Some c →
         c ∈ Company.id <$> companies d.

(** The [errors] array of the status object is allocated. *)
Definition status_allocated (w : World) : Prop :=
  errors (syncStatus w) < length (heap w).

(** The error list of the current status, read through the heap. *)
Definition status_errors (w : World) : list string :=
  array_read w (errors (syncStatus w)).

(** What the next answer of the upstream means for [healthCheck]. *)
Definition upstream_reachable (w : World) : bool :=
  match upstream w with
  | HttpOk _ :: _ => true
  | _ => false
  end.

(** Running a computation [n] times in a row, stopping at the first
    throw. *)
Fixpoint repeat_m {A} (n : nat) (m : M A) : M unit :=
  match n with
  | O => ret tt
  | S n' => m ;;; repeat_m n' m
  end.

(** A page of the upstream and the request that asks for it. *)
Definition page (rs : list HubSpotObject) (nx : option Next) : ResponseData :=
  {| results := rs; paging := Some {| next := nx |} |}.

Definition page_request (u properties : string) (cursor : option string)
  : Event :=
  EvRequest {| url := u;
               params := HubSpotApiService.page_params properties cursor |}.

Definition contact_properties : string :=
  "firstname,lastname,email,associatedcompanyid".

Definition company_properties : string := "name,domain".

(* ===================================================================== *)
(** * A caller of [getSyncStatus]                                          *)
(* ===================================================================== *)

(** What a caller can do to the object it was handed: assign its fields,
    or reach through [errors] and change that array in place. *)
Module Caller.

Inductive Mutation : Type :=
| SetIsRunning (b : bool)
| SetStartedAt (t : option string)
| SetCompletedAt (t : option string)
| SetContactsProcessed (n : nat)
| SetCompaniesProcessed (n : nat)
| AssignErrors (xs : list string)     (* [status.errors = [...]] *)
| PushError (x : string)              (* [status.errors.push(x)] *)
| TruncateErrors.                     (* [status.errors.length = 0] *)

Definition apply (m : Mutation) (s : EtlSyncStatus) : M EtlSyncStatus :=
  match m with
  | SetIsRunning b => ret (EtlService.set_isRunning b s)
  | SetStartedAt t =>
      ret {| isRunning := isRunning s; startedAt := t;
             completedAt := completedAt s;
             contactsProcessed := contactsProcessed s;
             companiesProcessed := companiesProcessed s;
             errors := errors s |}
  | SetCompletedAt t => ret (EtlService.set_completedAt t s)
  | SetContactsProcessed n =>
      ret {| isRunning := isRunning s; startedAt := startedAt s;
             completedAt := completedAt s;
             contactsProcessed := n;
             companiesProcessed := companiesProcessed s;
             errors := errors s |}
  | SetCompaniesProcessed n =>
      ret {| isRunning := isRunning s; startedAt := startedAt s;
             completedAt := completedAt s;
             contactsProcessed := contactsProcessed s;
             companiesProcessed := n;
             errors := errors s |}
  | AssignErrors xs =>
      l <- new_array xs ;;
      ret {| isRunning := isRunning s; startedAt := startedAt s;
             completedAt := completedAt s;
             contactsProcessed := contactsProcessed s;
             companiesProcessed := companiesProcessed s;
             errors := l |}
  | PushError x => array_push (errors s) x ;;; ret s
  | TruncateErrors =>
      modify (fun w => set_heap (alter (fun _ => []) (errors s) (heap w)) w) ;;;
      ret s
  end.

Fixpoint apply_all (ms : list Mutation) (s : EtlSyncStatus)
  : M EtlSyncStatus :=
  match ms with
  | [] => ret s
  | m :: ms' => s' <- apply m s ;; apply_all ms' s'
  end.

(** The caller asks for the status, changes what it got, and asks
    again. *)
Definition tamper (ms : list Mutation) : M EtlSyncStatus :=
  status <- EtlService.getSyncStatus ;;
  apply_all ms status ;;;
  EtlService.getSyncStatus.

End Caller.

(** The cursor a response hands on: [response.data.paging?.next?.after]. *)
Definition next_cursor (p : ResponseData) : option string :=
  after <$> (paging p ≫= next).

(** The requests of one traversal: the first carries no cursor, each
    further one the cursor of the page before it. *)
Definition page_requests (u properties : string) (pages : list ResponseData)
  : list Event :=
  page_request u properties <$> (None :: (next_cursor <$> pages)).

(** Every mutable field of the stored contact is the candidate's, a
    missing value included. *)
Definition overwritten_from (data : CreateContact.t) (stored : Contact.t)
  : Prop :=
  Contact.hubspot_id stored = CreateContact.hubspot_id data
  ∧ Contact.firstname stored = CreateContact.firstname data
  ∧ Contact.lastname stored = CreateContact.lastname data
  ∧ Contact.email stored = CreateContact.email data
  ∧ Contact.company_id stored = CreateContact.company_id data.

(** An optional field after an update: the candidate's value when it has
    one, the stored value otherwise. *)
Definition merged (candidate stored : option string) : option string :=
  match candidate with
  | Some v => Some v
  | None => stored
  end.

(* ===================================================================== *)
(** * Relations between the world before and after a computation           *)
(* ===================================================================== *)

(** [keeps R m]: whatever [m] does, and whether it returns or throws, the
    world it leaves is related by [R] to the world it started in. *)
Definition keeps {A} (R : relation World) (m : M A) : Prop :=
  ∀ w, R w (snd (m w)).

(** An observation that does not change. *)
Definition same {A} (f : World → A) : relation World :=
  λ w w', f w' = f w.

(** Events of the company phase: requests for companies, and writes that
    leave the contact table alone. *)
Definition company_event (e : Event) : Prop :=
  match e with
  | EvRequest r => url r = HubSpotApiService.companies_path
  | EvWrite d d' => contacts d' = contacts d
  end.

(** Events of the contact phase: requests for contacts, and writes that
    leave the company table alone and after which every company a contact
    refers to was stored before the write. *)
Definition contact_event (e : Event) : Prop :=
  match e with
  | EvRequest r => url r = HubSpotApiService.contacts_path
  | EvWrite d d' =>
      companies d' = companies d
      ∧ ∀ r c, r ∈ contacts d' → Contact.company_id r = Some c →
               c ∈ Company.id <$> companies d
  end.

(** From a database whose references are sound, the computation reaches
    one whose references are sound, through events that all satisfy [P]. *)
Definition traces (P : Event → Prop) : relation World :=
  λ w w',
    references_ok (db w) →
    references_ok (db w')
    ∧ ∃ evs, trace w' = trace w ++ evs ∧ Forall P evs.

(** The error list of the status object only receives messages that
    satisfy [P]. *)
Definition errors_grow (P : string → Prop) : relation World :=
  λ w w',
    errors (syncStatus w') = errors (syncStatus w)
    ∧ ∃ msgs, status_errors w' = status_errors w ++ msgs ∧ Forall P msgs.

(** Identifiers are drawn from one sequence, forwards. *)
Definition uuid_advances : relation World :=
  λ w w', uuid w' = uuid w ∧ uuid_next w ≤ uuid_next w'.

(** The message the company phase records for a company it could not
    store. *)
Definition company_failure (c : HubSpotObject) : string :=
  "Failed to sync company " +:+ hs_id c +:+ ": "
  +:+ formatError (AppError "Failed to upsert company" 500).

(** The message the contact phase logs for a contact it skips. *)
Definition contact_skipped (c : HubSpotObject) : string :=
  "Skipping contact " +:+ hs_id c +:+ " - missing email".

(** The email the transformer gives a HubSpot contact. *)
Definition email_of (c : HubSpotObject) : string :=
  cleanString (prop "email" (properties c)).

(** The request of the health check. *)
Definition health_request : Event :=
  EvRequest {| url := HubSpotApiService.contacts_path;
               params := [("limit", "1"); ("properties", "email")] |}.

(* ===================================================================== *)
(** * What a computation can throw, and what a run keeps                   *)
(* ===================================================================== *)

(** [throws P m]: whenever [m] throws, what it throws satisfies [P]. *)
Definition throws {A} (P : Exn → Prop) (m : M A) : Prop :=
  ∀ w e, fst (m w) = Throw e → P e.

(** An error that is not an [AppError]: what the store and the HTTP client
    reject with. *)
Definition foreign (e : Exn) : Prop := instanceof_AppError e = false.

(** The three errors [syncCrmData] throws by name. *)
Definition sync_failures : list Exn :=
  [AppError "ETL sync is already running" 409;
   AppError "HubSpot API is not accessible" 502;
   AppError "ETL sync failed due to an unexpected error" 500].

(** The identity of a stored row: its local id and its creation time. *)
Definition company_identity (r : Company.t) : string * string :=
  (Company.id r, Company.created_at r).

Definition contact_identity (r : Contact.t) : string * string :=
  (Contact.id r, Contact.created_at r).

(** Every row is still there, at its place and under its identity; rows
    may have been added behind. *)
Definition rows_persist : relation World :=
  λ w w',
    (company_identity <$> companies (db w))
      `prefix_of` (company_identity <$> companies (db w'))
    ∧ (contact_identity <$> contacts (db w))
        `prefix_of` (contact_identity <$> contacts (db w')).

(** A string of white space only (the empty string included). *)
Definition blank (s : string) : Prop :=
  Forall (λ c, Js.is_space c = true) (list_ascii_of_string s).

(** The three places a fetched contact can end up in: the counter, the
    skip warnings, the error list. *)
Definition contacts_accounted (w : World) : nat :=
  contactsProcessed (syncStatus w) + length (warnings w)
  + length (status_errors w).

Definition companies_accounted (w : World) : nat :=
  companiesProcessed (syncStatus w) + length (warnings w)
  + length (status_errors w).

Global Instance blank_dec (s : string) : Decision (blank s).
Proof. unfold blank. apply _. Defined.

(** The email property of a HubSpot contact is absent or white space
    only. *)
Definition email_blank (c : HubSpotObject) : Prop :=
  from_option blank True (prop "email" (properties c)).

(** [trimStart] on the code units of a string. *)
Fixpoint drop_spaces (l : list ascii) : list ascii :=
  match l with
  | [] => []
  | c :: l' => if Js.is_space c then drop_spaces l' else l
  end.

(** The first code unit, if there is one, is not white space. *)
Definition lead_ok (l : list ascii) : Prop :=
  match l with
  | [] => True
  | c :: _ => Js.is_space c = false
  end.

(* ===================================================================== *)
(** * The rest of the repositories: [delete]                               *)
(* ===================================================================== *)

(** [DELETE FROM ... WHERE id = ?]. The statement resolves to the number
    of rows it removed ([result.changes]). A company that a contact
    refers to cannot be removed: the foreign key of [contacts.company_id]
    has no [ON DELETE] action, so with [PRAGMA foreign_keys = ON] the
    statement rejects and changes nothing. Nothing refers to a
    contact. *)
Module SqlDelete.

Definition referenced (i : string) (d : Database) : bool :=
  bool_decide (Some i ∈ Contact.company_id <$> contacts d).

Definition company (i : string) : M nat :=
  fun w =>
    let rows := companies (db w) in
    let hit := filter (fun r => Company.id r = i) rows in
    if bool_decide (hit ≠ []) && referenced i (db w)
    then throw (Sql.constraint_failed "FOREIGN KEY constraint failed") w
    else (Sql.commit {| companies := filter (fun r => Company.id r ≠ i) rows;
                        contacts := contacts (db w) |} ;;;
          ret (length hit)) w.

Definition contact (i : string) : M nat :=
  fun w =>
    let rows := contacts (db w) in
    let hit := filter (fun r => Contact.id r = i) rows in
    (Sql.commit {| companies := companies (db w);
                   contacts := filter (fun r => Contact.id r ≠ i) rows |} ;;;
     ret (length hit)) w.

End SqlDelete.

(** [CompanyRepository.delete], [ContactRepository.delete]:
    [result.changes > 0]. *)
Module CompanyRepositoryCrud.

Definition delete (id : string) : M bool :=
  changes <- SqlDelete.company id ;;
  ret (0 <? changes).

End CompanyRepositoryCrud.

Module ContactRepositoryCrud.

Definition delete (id : string) : M bool :=
  changes <- SqlDelete.contact id ;;
  ret (0 <? changes).

End ContactRepositoryCrud.

(* ===================================================================== *)
(** * The rest of [services/CompanyService.ts]                             *)
(* ===================================================================== *)

(** The methods behind the CRUD routes. Each wraps its body in
    [try { ... } catch (error) { if (error instanceof AppError) throw
    error; ...; throw new AppError(<message>, 500); }]. *)
Module CompanyServiceCrud.

Definition getCompanyById (id : string) : M Company.t :=
  if negb (isValidUuid id)
  then throw (AppError "Invalid company ID format" 400)
  else
    try_catch
      (company <- CompanyRepository.findById id ;;
       match company with
       | None => throw (AppError ("Company with id " +:+ id +:+ " not found") 404)
       | Some c => ret c
       end)
      (fun error =>
         if instanceof_AppError error
         then throw error
         else throw (AppError "Failed to retrieve company" 500)).

Definition createCompany (companyData : CreateCompany.t) : M Company.t :=
  try_catch
    (existingCompany <-
       CompanyRepository.findByHubspotId (CreateCompany.hubspot_id companyData) ;;
     (if bool_decide (is_Some existingCompany)
      then throw (AppError ("Company with hubspot_id "
                            +:+ CreateCompany.hubspot_id companyData
                            +:+ " already exists") 409)
      else ret tt) ;;;
     CompanyRepository.create companyData)
    (fun error =>
       if instanceof_AppError error
       then throw error
       else throw (AppError "Failed to create company" 500)).

Definition updateCompany (id : string) (updates : UpdateCompany.t)
  : M Company.t :=
  if negb (isValidUuid id)
  then throw (AppError "Invalid company ID format" 400)
  else
    try_catch
      ((if Js.truthy_opt (UpdateCompany.hubspot_id updates)
        then
          let hubspot_id := default "" (UpdateCompany.hubspot_id updates) in
          existingCompany <- CompanyRepository.findByHubspotId hubspot_id ;;
          match existingCompany with
          | Some existing =>
              if bool_decide (Company.id existing ≠ id)
              then throw (AppError ("Company with hubspot_id " +:+ hubspot_id
                                    +:+ " already exists") 409)
              else ret tt
          | None => ret tt
          end
        else ret tt) ;;;
       updatedCompany <- CompanyRepository.update id updates ;;
       match updatedCompany with
       | None => throw (AppError ("Company with id " +:+ id +:+ " not found") 404)
       | Some c => ret c
       end)
      (fun error =>
         if instanceof_AppError error
         then throw error
         else throw (AppError "Failed to update company" 500)).

Definition deleteCompany (id : string) : M unit :=
  if negb (isValidUuid id)
  then throw (AppError "Invalid company ID format" 400)
  else
    try_catch
      (deleted <- CompanyRepositoryCrud.delete id ;;
       if negb deleted
       then throw (AppError ("Company with id " +:+ id +:+ " not found") 404)
       else ret tt)
      (fun error =>
         if instanceof_AppError error
         then throw error
         else throw (AppError "Failed to delete company" 500)).

End CompanyServiceCrud.

(* ===================================================================== *)
(** * The rest of [services/ContactService.ts]                             *)
(* ===================================================================== *)

Module ContactServiceCrud.

Definition getContactById (id : string) : M Contact.t :=
  if negb (isValidUuid id)
  then throw (AppError "Invalid contact ID format" 400)
  else
    try_catch
      (contact <- ContactRepository.findById id ;;
       match contact with
       | None => throw (AppError ("Contact with id " +:+ id +:+ " not found") 404)
       | Some c => ret c
       end)
      (fun error =>
         if instanceof_AppError error
         then throw error
         else throw (AppError "Failed to retrieve contact" 500)).

Definition getContactByHubspotId (hubspotId : string) : M (option Contact.t) :=
  try_catch
    (ContactRepository.findByHubspotId hubspotId)
    (fun _ => throw (AppError "Failed to retrieve contact" 500)).

Definition updateContact (id : string) (updates : UpdateContact.t)
  : M Contact.t :=
  if negb (isValidUuid id)
  then throw (AppError "Invalid contact ID format" 400)
  else if Js.truthy_opt (UpdateContact.email updates)
          && negb (isValidEmail (default "" (UpdateContact.email updates)))
  then throw (AppError "Invalid email format" 400)
  else if Js.truthy_opt (UpdateContact.company_id updates)
          && negb (isValidUuid (default "" (UpdateContact.company_id updates)))
  then throw (AppError "Invalid company ID format" 400)
  else
    try_catch
      ((if Js.truthy_opt (UpdateContact.hubspot_id updates)
        then
          let hubspot_id := default "" (UpdateContact.hubspot_id updates) in
          existingContact <- ContactRepository.findByHubspotId hubspot_id ;;
          match existingContact with
          | Some existing =>
              if bool_decide (Contact.id existing ≠ id)
              then throw (AppError ("Contact with hubspot_id " +:+ hubspot_id
                                    +:+ " already exists") 409)
              else ret tt
          | None => ret tt
          end
        else ret tt) ;;;
       (if Js.truthy_opt (UpdateContact.email updates)
        then
          let email := default "" (UpdateContact.email updates) in
          existingEmailContact <- ContactRepository.findByEmail email ;;
          match existingEmailContact with
          | Some existing =>
              if bool_decide (Contact.id existing ≠ id)
              then throw (AppError ("Contact with email " +:+ email
                                    +:+ " already exists") 409)
              else ret tt
          | None => ret tt
          end
        else ret tt) ;;;
       (if Js.truthy_opt (UpdateContact.company_id updates)
        then
          let company_id := default "" (UpdateContact.company_id updates) in
          company <- CompanyRepository.findById company_id ;;
          if bool_decide (is_Some company)
          then ret tt
          else throw (AppError ("Company with id " +:+ company_id
                                +:+ " not found") 404)
        else ret tt) ;;;
       updatedContact <- ContactRepository.update id updates ;;
       match updatedContact with
       | None => throw (AppError ("Contact with id " +:+ id +:+ " not found") 404)
       | Some c => ret c
       end)
      (fun error =>
         if instanceof_AppError error
         then throw error
         else throw (AppError "Failed to update contact" 500)).

Definition deleteContact (id : string) : M unit :=
  if negb (isValidUuid id)
  then throw (AppError "Invalid contact ID format" 400)
  else
    try_catch
      (deleted <- ContactRepositoryCrud.delete id ;;
       if negb deleted
       then throw (AppError ("Contact with id " +:+ id +:+ " not found") 404)
       else ret tt)
      (fun error =>
         if instanceof_AppError error
         then throw error
         else throw (AppError "Failed to delete contact" 500)).

End ContactServiceCrud.

(** The status code of an error, as [middleware/errorHandler.ts] reads it
    off an [AppError]. *)
Definition statusCode_of (e : Exn) : option nat :=
  match e with
  | AppError _ code => Some code
  | JsError _ => None
  end.

(** What a service method may throw: an [AppError] with one of the four
    status codes. *)
Definition service_error (e : Exn) : Prop :=
  ∃ m code, e = AppError m code ∧ code ∈ [400; 404; 409; 500].

(** The row [ContactRepository.create] binds for a contact: an empty or
    missing name or company reference is stored as [NULL]. *)
Definition stored_contact (c : Contact.t) : Contact.t :=
  {| Contact.id := Contact.id c;
     Contact.hubspot_id := Contact.hubspot_id c;
     Contact.firstname := Js.or_null (Contact.firstname c);
     Contact.lastname := Js.or_null (Contact.lastname c);
     Contact.email := Contact.email c;
     Contact.company_id := Js.or_null (Contact.company_id c);
     Contact.created_at := Contact.created_at c |}.

(** An update that sets the email to the empty string and names no other
    field. *)
Definition clear_email : UpdateContact.t :=
  {| UpdateContact.hubspot_id := None; UpdateContact.firstname := None;
     UpdateContact.lastname := None; UpdateContact.email := Some "";
     UpdateContact.company_id := None |}.

(* ===================================================================== *)
(** * What the regular expressions mean                                    *)
(* ===================================================================== *)

(** The language of a regular expression, on sequences of code units. *)
Module RegexSem.

Inductive matches : Regex.t → list ascii → Prop :=
| matches_eps : matches Regex.Eps []
| matches_class p c : p c = true → matches (Regex.Class p) [c]
| matches_seq r1 r2 l1 l2 :
    matches r1 l1 → matches r2 l2 → matches (Regex.Seq r1 r2) (l1 ++ l2)
| matches_alt_l r1 r2 l : matches r1 l → matches (Regex.Alt r1 r2) l
| matches_alt_r r1 r2 l : matches r2 l → matches (Regex.Alt r1 r2) l
| matches_star_nil r : matches (Regex.Star r) []
| matches_star_app r l1 l2 :
    matches r l1 → matches (Regex.Star r) l2 →
    matches (Regex.Star r) (l1 ++ l2).

End RegexSem.

(** One of the three parts of an email address as [isValidEmail] sees
    it: not empty, no white space, no ["@"]. *)
Definition address_part (s : string) : Prop :=
  s ≠ ""
  ∧ Forall (λ c, Js.is_space c = false ∧ c ≠ "@"%char)
      (list_ascii_of_string s).

(** Hexadecimal digits, in either case. *)
Definition is_hex (c : ascii) : bool :=
  Regex.range "0" "9" c || Regex.range "a" "f" c || Regex.range "A" "F" c.

Definition hex_group (n : nat) (s : string) : Prop :=
  String.length s = n
  ∧ Forall (λ c, is_hex c = true) (list_ascii_of_string s).

(** The status object keeps its error list, and every other array on the
    heap is as it was. *)
Definition own_error_list : relation World :=
  λ w w',
    errors (syncStatus w') = errors (syncStatus w)
    ∧ ∀ l, l ≠ errors (syncStatus w) → heap w' !! l = heap w !! l.

(** The table holds the company as the transformer renders it. *)
Definition holds_company (d : Database) (c : HubSpotObject) : Prop :=
  ∃ r, r ∈ companies d
       ∧ Company.hubspot_id r = hs_id c
       ∧ Company.name r
         = CreateCompany.name (EtlService.transformHubspotCompany c)
       ∧ Company.domain r
         = CreateCompany.domain (EtlService.transformHubspotCompany c).

(* ===================================================================== *)
(** * utils/helpers.ts: [exponentialBackoff]                               *)
(* ===================================================================== *)

(** [Math.min(baseDelay * Math.pow(2, attempt), 30000)], for an attempt
    count and a base delay that are natural numbers ([baseDelay] defaults
    to 1000 when it is not given). On these the floating-point result is
    exact: a product with a power of two is computed exactly until it
    overflows to [Infinity], far above the cap. The one exception is a
    base delay of 0 from attempt 1024 on, where [0 * Infinity] is [NaN]
    and so is the result: that is [None] here. *)
Definition exponentialBackoff (attempt : N) (baseDelay : option N)
  : option N :=
  let base := default 1000%N baseDelay in
  if (base =? 0)%N && (1024 <=? attempt)%N
  then None
  else Some (N.min (base * 2 ^ attempt) 30000)%N.

(* ===================================================================== *)
(** * Sample worlds                                                        *)
(* ===================================================================== *)

Module Sample.

(** Identifiers and instants are numbered by call: ["id-"], ["id-x"],
    ["id-xx"], ... and ["t"], ["t'"], ["t''"], ... *)
Definition nth_uuid (n : nat) : string :=
  "id-" +:+ string_of_list_ascii (repeat "x"%char n).

Definition nth_instant (n : nat) : string :=
  "t" +:+ string_of_list_ascii (repeat "'"%char n).

Definition idle : EtlSyncStatus :=
  {| isRunning := false; startedAt := None; completedAt := None;
     contactsProcessed := 0; companiesProcessed := 0; errors := 0 |}.

Definition running : EtlSyncStatus :=
  {| isRunning := true; startedAt := Some "t0"; completedAt := None;
     contactsProcessed := 3; companiesProcessed := 7; errors := 0 |}.

Definition world (d : Database) (s : EtlSyncStatus) (errs : list string)
    (up : list HttpResponse) : World :=
  {| db := d; syncStatus := s; heap := [errs]; upstream := up;
     trace := []; warnings := [];
     uuid := nth_uuid; uuid_next := 0;
     clock := nth_instant; clock_next := 0 |}.

Definition empty_db : Database := {| companies := []; contacts := [] |}.

Definition obj (i : string) (ps : list (string * string)) : HubSpotObject :=
  {| hs_id := i; properties := ps |}.

(** A store that already holds one company. *)
Definition acme : Company.t :=
  {| Company.id := "c-1"; Company.hubspot_id := "900";
     Company.name := "Acme"; Company.domain := "acme.com";
     Company.created_at := "2024-10-18T10:30:00.000Z" |}.

Definition with_acme : World :=
  world {| companies := [acme]; contacts := [] |} idle [] [].

(** A store that holds a contact of that company, and the candidate the
    transformer builds once HubSpot has dropped the contact's names and
    its company. *)
Definition ann : Contact.t :=
  {| Contact.id := "k-1"; Contact.hubspot_id := "501";
     Contact.firstname := Some "Ann"; Contact.lastname := Some "Lee";
     Contact.email := "ann@example.com";
     Contact.company_id := Some "c-1";
     Contact.created_at := "2024-10-18T10:31:00.000Z" |}.

Definition with_ann : World :=
  world {| companies := [acme]; contacts := [ann] |} idle [] [].

Definition ann_cleared : CreateContact.t :=
  {| CreateContact.hubspot_id := "501";
     CreateContact.firstname := None; CreateContact.lastname := None;
     CreateContact.email := "ann@example.com";
     CreateContact.company_id := None |}.

Definition ann_renamed : CreateContact.t :=
  {| CreateContact.hubspot_id := "501";
     CreateContact.firstname := Some "Anna"; CreateContact.lastname := None;
     CreateContact.email := "anna@example.com";
     CreateContact.company_id := None |}.

(** HubSpot's contact "601": a new external id with the email that the
    stored contact "501" holds. *)
Definition ann_again : HubSpotObject :=
  obj "601" [("email", "ann@example.com"); ("associatedcompanyid", "900")].

(** A HubSpot contact whose email is not an email address. *)
Definition odd_contact : HubSpotObject :=
  obj "777" [("firstname", "Odd"); ("email", "  not-an-email ")].

(** An upstream that answers the health check, then one page of
    companies, then one page of three contacts of which the second has no
    email. *)
Definition companies_page : ResponseData :=
  {| results := [obj "900" [("name", "Acme"); ("domain", "acme.com")]];
     paging := None |}.

Definition contacts_page : ResponseData :=
  {| results :=
       [ann_again;
        obj "602" [("firstname", "Nemo")];
        obj "603" [("email", "bob@example.com")]];
     paging := None |}.

Definition healthy : list HttpResponse :=
  [HttpOk {| results := []; paging := None |};
   HttpOk companies_page; HttpOk contacts_page].

Definition first_sync : World := world empty_db idle [] healthy.

(** The same upstream in front of a store that still holds the contact
    "501" of an earlier sync, with the email that HubSpot's contact "601"
    now carries. *)
Definition resync : World :=
  world {| companies := [acme]; contacts := [ann] |} idle [] healthy.

(** A run in progress, with one error collected so far. *)
Definition busy : World :=
  world empty_db running ["Failed to sync company 9: Failed to upsert company"] [].

(** An idle service in front of an upstream that refuses the first
    request. *)
Definition down : World :=
  world empty_db idle [] [HttpFail "Request failed with status code 401"].

(** An upstream with two pages of contacts and something more behind
    them. *)
Definition first_page : ResponseData :=
  page [obj "501" [("email", "ann@example.com")];
        obj "502" [("email", "bob@example.com")]]
       (Some {| after := "c1"; link := "https://api.hubapi.com/next" |}).

Definition second_page : ResponseData :=
  {| results := [obj "503" [("email", "cy@example.com")]];
     paging := None |}.

Definition two_pages : World :=
  world empty_db idle []
    [HttpOk first_page; HttpOk second_page; HttpFail "never asked"].

(** An upstream about to answer the company traversal with one page of
    two companies, the second of which has no name and a blank domain. *)
Definition nameless : HubSpotObject := obj "901" [("domain", "   ")].

Definition nameless_company : World :=
  world empty_db idle []
    [HttpOk {| results := [obj "900" [("name", "Acme"); ("domain", "acme.com")];
                           nameless];
               paging := None |}].

(** The service after that run has failed: one error is on record. *)
Definition failed : World := snd (EtlService.syncCrmData down).

End Sample.

(* ===================================================================== *)
(** * More sample worlds                                                   *)
(* ===================================================================== *)

Module Fixture.

(** An upstream that answers the first page of a traversal and refuses
    the request for the second. *)
Definition second_page_refused : World :=
  Sample.world Sample.empty_db Sample.idle []
    [HttpOk Sample.first_page;
     HttpFail "Request failed with status code 429";
     HttpOk Sample.second_page].

(** An upstream that answers the health check and refuses the first
    request for companies. *)
Definition companies_refused : World :=
  Sample.world Sample.empty_db Sample.idle []
    [HttpOk {| results := []; paging := None |};
     HttpFail "Request failed with status code 429";
     HttpOk Sample.contacts_page].

(** A first page that announces a successor under the empty cursor. *)
Definition looping_page : ResponseData :=
  page [Sample.obj "501" [("email", "ann@example.com")]]
       (Some {| after := ""; link := "https://api.hubapi.com/next" |}).

Definition empty_cursor : World :=
  Sample.world Sample.empty_db Sample.idle []
    [HttpOk looping_page; HttpOk Sample.second_page].

(** An upstream that answers the health check and the companies, and
    refuses the first request for contacts. *)
Definition contacts_refused : World :=
  Sample.world Sample.empty_db Sample.idle []
    [HttpOk {| results := []; paging := None |};
     HttpOk Sample.companies_page;
     HttpFail "Request failed with status code 429"].

(** A store whose local ids are UUIDs, as [generateId] makes them: two
    companies, and a contact of the first. *)
Definition acme_id : string := "123e4567-e89b-42d3-a456-426614174000".
Definition bolt_id : string := "123e4567-e89b-42d3-a456-426614174001".
Definition ann_id : string := "123e4567-e89b-42d3-a456-426614174002".

Definition acme : Company.t :=
  {| Company.id := acme_id; Company.hubspot_id := "900";
     Company.name := "Acme"; Company.domain := "acme.com";
     Company.created_at := "2024-10-18T10:30:00.000Z" |}.

Definition bolt : Company.t :=
  {| Company.id := bolt_id; Company.hubspot_id := "901";
     Company.name := "Bolt"; Company.domain := "bolt.io";
     Company.created_at := "2024-10-18T10:30:05.000Z" |}.

Definition ann : Contact.t :=
  {| Contact.id := ann_id; Contact.hubspot_id := "501";
     Contact.firstname := Some "Ann"; Contact.lastname := Some "Lee";
     Contact.email := "ann@example.com";
     Contact.company_id := Some acme_id;
     Contact.created_at := "2024-10-18T10:31:00.000Z" |}.

(** The identifiers still to come: UUIDs that differ in their last
    group, which holds as many ["1"] as calls were made (twelve at
    most), filled up with ["0"]. *)
Definition nth_uuid (n : nat) : string :=
  "9b2f0c1e-7d4a-4c3b-8e1f-"
  +:+ string_of_list_ascii
        (repeat "1"%char (n `min` 12) ++ repeat "0"%char (12 - n `min` 12)).

Definition crm : World :=
  {| db := {| companies := [acme; bolt]; contacts := [ann] |};
     syncStatus := Sample.idle; heap := [[]]; upstream := [];
     trace := []; warnings := [];
     uuid := nth_uuid; uuid_next := 0;
     clock := Sample.nth_instant; clock_next := 0 |}.

(** A candidate contact of the second company. *)
Definition bob : CreateContact.t :=
  {| CreateContact.hubspot_id := "502";
     CreateContact.firstname := Some "Bob"; CreateContact.lastname := Some "";
     CreateContact.email := "bob@example.com";
     CreateContact.company_id := Some bolt_id |}.

End Fixture.

(* ===================================================================== *)
(** * Basic facts                                                          *)
(* ===================================================================== *)

Lemma truthy_true s : Js.truthy s = true <-> s <> "".
Proof.
  unfold Js.truthy. rewrite negb_true_iff. split.
  - intros H ->. discriminate.
  - intros H. destruct (String.eqb s "") eqn:E; [|reflexivity].
    apply String.eqb_eq in E. contradiction.
Qed.

Lemma truthy_false s : Js.truthy s = false <-> s = "".
Proof. unfold Js.truthy. rewrite negb_false_iff. apply String.eqb_eq. Qed.

Example isValidEmail_ok : isValidEmail "john.doe@example.com" = true.
Proof. reflexivity. Qed.

Example isValidEmail_no_at : isValidEmail "not-an-email" = false.
Proof. reflexivity. Qed.

Example isValidEmail_two_at : isValidEmail "a@b@c.d" = false.
Proof. reflexivity. Qed.

Example isValidEmail_space : isValidEmail "a b@c.d" = false.
Proof. reflexivity. Qed.

Example isValidUuid_ok :
  isValidUuid "123E4567-e89b-42d3-a456-426614174000" = true.
Proof. reflexivity. Qed.

Example isValidUuid_bad_version :
  isValidUuid "123e4567-e89b-62d3-a456-426614174000" = false.
Proof. reflexivity. Qed.

Example cleanString_pads : cleanString (Some "  Acme Corp  ") = "Acme Corp".
Proof. reflexivity. Qed.

Example cleanString_blank : cleanString (Some "   ") = "".
Proof. reflexivity. Qed.

(** Reading and pushing on the heap. *)
Lemma alter_at_end {A} (f : A → A) (l : list A) (x : A) :
  alter f (length l) (l ++ [x]) = l ++ [f x].
Proof.
  replace (length l) with (length l + 0) by lia.
  rewrite alter_app_r. reflexivity.
Qed.

Lemma lookup_at_end {A} (l : list A) (x : A) :
  (l ++ [x]) !! length l = Some x.
Proof.
  rewrite lookup_app_r by lia. rewrite Nat.sub_diag. reflexivity.
Qed.

Lemma array_push_read (w : World) (l : loc) (x : string) :
  l < length (heap w) →
  array_read (snd (array_push l x w)) l = array_read w l ++ [x].
Proof.
  intros Hl. unfold array_read, array_push, modify.
  cbn [snd heap set_heap]. rewrite list_lookup_alter_eq.
  destruct (heap w !! l) as [a|] eqn:E; [reflexivity|].
  apply lookup_ge_None in E. lia.
Qed.

(* ===================================================================== *)
(** * The guard against a second run                                       *)
(* ===================================================================== *)

(** C3. While a run is in progress ([isRunning] is [true]),
    [syncCrmData] throws [AppError] with status 409 and leaves the whole
    world as it was: the counters, the error list, the timestamps and
    the running flag of the active run are untouched, and so is
    everything else. *)
Theorem syncCrmData_rejects_second_run (w : World) :
  isRunning (syncStatus w) = true →
  EtlService.syncCrmData w
  = (Throw (AppError "ETL sync is already running" 409), w).
Proof.
  intros Hrun. unfold EtlService.syncCrmData, bind, gets.
  rewrite Hrun. reflexivity.
Qed.

Lemma syncCrmData_rejects_second_run_witness :
  EtlService.syncCrmData Sample.busy
  = (Throw (AppError "ETL sync is already running" 409), Sample.busy).
Proof.
  apply (syncCrmData_rejects_second_run Sample.busy). reflexivity.
Defined.

(* ===================================================================== *)
(** * The pre-flight health check                                          *)
(* ===================================================================== *)

Lemma healthCheck_reports (w : World) :
  fst (HubSpotApiService.healthCheck w) = Return (upstream_reachable w).
Proof.
  unfold HubSpotApiService.healthCheck, try_catch, bind,
    HubSpotApiService.httpClient_get, upstream_reachable, ret.
  destruct (upstream w) as [|[d|m] rest]; reflexivity.
Qed.

(** C7. When the upstream does not answer the health check, a run that
    was free to start ends failed before any record is processed: both
    counters are zero, the database is as it was, the only request sent
    is the health check, the error list holds exactly the one message,
    the completion time is recorded, the running flag is down, and the
    caller gets [AppError] with status 502. [healthCheck] itself always
    returns a boolean, [false] when the request fails. *)
Theorem syncCrmData_upstream_unreachable (w : World) :
  isRunning (syncStatus w) = false →
  upstream_reachable w = false →
  (∀ w0, fst (HubSpotApiService.healthCheck w0) = Return (upstream_reachable w0))
  ∧ let r := EtlService.syncCrmData w in
    fst r = Throw (AppError "HubSpot API is not accessible" 502)
    ∧ isRunning (syncStatus (snd r)) = false
    ∧ contactsProcessed (syncStatus (snd r)) = 0
    ∧ companiesProcessed (syncStatus (snd r)) = 0
    ∧ status_errors (snd r) = ["HubSpot API is not accessible"]
    ∧ startedAt (syncStatus (snd r)) = Some (clock w (clock_next w))
    ∧ completedAt (syncStatus (snd r)) = Some (clock w (S (clock_next w)))
    ∧ db (snd r) = db w
    ∧ trace (snd r)
      = trace w ++ [EvRequest {| url := HubSpotApiService.contacts_path;
                                 params := [("limit", "1"); ("properties", "email")] |}].
Proof.
  intros Hidle Hdown. split; [exact healthCheck_reports|].
  assert (∃ W, EtlService.syncCrmData w
               = (Throw (AppError "HubSpot API is not accessible" 502), W)
              ∧ syncStatus W
                = {| isRunning := false;
                     startedAt := Some (clock w (clock_next w));
                     completedAt := Some (clock w (S (clock_next w)));
                     contactsProcessed := 0; companiesProcessed := 0;
                     errors := length (heap w) |}
              ∧ heap W = heap w ++ [["HubSpot API is not accessible"]]
              ∧ db W = db w
              ∧ trace W
                = trace w ++ [EvRequest {| url := HubSpotApiService.contacts_path;
                                           params := [("limit", "1"); ("properties", "email")] |}])
    as (W & -> & Hst & Hheap & Hdb & Htr).
  { unfold upstream_reachable in Hdown.
    unfold EtlService.syncCrmData, bind, gets. rewrite Hidle.
    unfold try_catch, bind, HubSpotApiService.healthCheck, try_catch, bind,
      HubSpotApiService.httpClient_get, getCurrentTimestamp, new_array, modify.
    cbn.
    destruct (upstream w) as [|[d|m] rest] eqn:Hup; try discriminate;
      cbn; rewrite alter_at_end;
      (eexists; split; [reflexivity|]); cbn; repeat split; reflexivity. }
  cbn. unfold status_errors, array_read. rewrite Hst, Hheap. cbn.
  rewrite lookup_at_end. repeat split; assumption.
Qed.

Lemma syncCrmData_upstream_unreachable_witness :
  fst (EtlService.syncCrmData Sample.down)
  = Throw (AppError "HubSpot API is not accessible" 502)
  ∧ status_errors (snd (EtlService.syncCrmData Sample.down))
    = ["HubSpot API is not accessible"].
Proof.
  pose proof (syncCrmData_upstream_unreachable Sample.down eq_refl eq_refl)
    as [_ (H1 & _ & _ & _ & H2 & _)].
  split; [exact H1 | exact H2].
Defined.

(* ===================================================================== *)
(** * The status accessor                                                  *)
(* ===================================================================== *)

(** No mutation of the object handed out reaches the fields of the
    status object itself. *)
Lemma caller_keeps_status_fields (ms : list Caller.Mutation)
    (s : EtlSyncStatus) (w : World) :
  syncStatus (snd (Caller.apply_all ms s w)) = syncStatus w.
Proof.
  revert s w. induction ms as [|m ms IH]; intros s w; [reflexivity|].
  cbn [Caller.apply_all]. unfold bind.
  destruct m; cbn; try apply IH;
    unfold array_push, modify, new_array, bind; cbn; rewrite IH; reflexivity.
Qed.

(** The array behind [errors] is the one the service keeps appending to:
    a push through the copy is a push on the service's own list. *)
Lemma caller_push_reaches_service (x : string) (w : World) :
  status_allocated w →
  ∃ s w', Caller.tamper [Caller.PushError x] w = (Return s, w')
          ∧ syncStatus w' = syncStatus w
          ∧ array_read w' (errors s) = status_errors w ++ [x]
          ∧ status_errors w' = status_errors w ++ [x].
Proof.
  intros Halloc.
  unfold Caller.tamper, EtlService.getSyncStatus, bind, gets.
  cbn. unfold array_push, modify, bind, ret. cbn.
  eexists _, _. split; [reflexivity|]. cbn.
  pose proof (array_push_read w (errors (syncStatus w)) x Halloc) as H.
  unfold array_push, modify in H. cbn in H.
  unfold status_errors. repeat split; exact H.
Qed.

(** C9. [getSyncStatus] copies the fields of the status object but not the
    array behind [errors]. After the failed run of [Sample.down] the
    service holds one error; a caller that pushes a string on the
    [errors] of the status it was handed changes the service's own list,
    and the next [getSyncStatus] shows the string. *)
Theorem getSyncStatus_shares_errors :
  status_errors Sample.failed = ["HubSpot API is not accessible"]
  ∧ ∃ s w',
      Caller.tamper [Caller.PushError "tampered"] Sample.failed = (Return s, w')
      ∧ array_read w' (errors s)
        = ["HubSpot API is not accessible"; "tampered"]
      ∧ status_errors w' ≠ status_errors Sample.failed.
Proof.
  split; [reflexivity|].
  eexists _, _. split; [reflexivity|]. split; [reflexivity|].
  discriminate.
Qed.

(* ===================================================================== *)
(** * Cursor pagination                                                    *)
(* ===================================================================== *)

Section Pagination.

Variables (u properties : string).

(** The loop asks once per page that announces a successor, once more
    for the page that does not, and then stops; fuel beyond the number
    of pages is never touched. *)
Lemma fetch_pages_run (pages : list ResponseData) :
  ∀ (fuel : nat) (all : list HubSpotObject) (cursor : option string)
    (w : World) (last : ResponseData) (rest : list HttpResponse),
    upstream w = (HttpOk <$> pages) ++ HttpOk last :: rest →
    Forall (λ p, is_Some (paging p ≫= next)) pages →
    paging last ≫= next = None →
    length pages < fuel →
    HubSpotApiService.fetch_pages fuel u properties all cursor w
    = (Return (all ++ concat (results <$> pages) ++ results last),
       set_upstream rest
         (set_trace
            (trace w ++ (page_request u properties
                           <$> (cursor :: (next_cursor <$> pages)))) w)).
Proof.
  induction pages as [|p pages IH];
    intros fuel all cursor w last rest Hup Hnext Hlast Hfuel.
  - destruct fuel as [|fuel]; [cbn in Hfuel; lia|].
    cbn [HubSpotApiService.fetch_pages]. unfold bind at 1.
    unfold HubSpotApiService.httpClient_get. rewrite Hup. cbn.
    rewrite Hlast. cbn. reflexivity.
  - destruct fuel as [|fuel]; [cbn in Hfuel; lia|].
    apply Forall_cons in Hnext as [Hp Hnext].
    cbn [HubSpotApiService.fetch_pages]. unfold bind at 1.
    unfold HubSpotApiService.httpClient_get. rewrite Hup.
    cbn [fmap list_fmap app].
    destruct Hp as [nx Hnx]. rewrite Hnx.
    rewrite bool_decide_true by (eexists; reflexivity).
    unfold sleep, bind at 1, ret.
    erewrite IH; [| reflexivity | exact Hnext | exact Hlast
                  | cbn in Hfuel; lia].
    cbn. unfold next_cursor at 2. rewrite Hnx.
    rewrite <- !(assoc_L (++)). reflexivity.
Qed.

(** Every request takes one answer from the upstream, so any amount of
    fuel above the number of answers left gives the same run: the fuel of
    [getAllContacts] and [getAllCompanies] never runs out. *)
Lemma fetch_pages_fuel (fuel1 : nat) :
  ∀ (fuel2 : nat) (all : list HubSpotObject) (cursor : option string)
    (w : World),
    length (upstream w) < fuel1 →
    length (upstream w) < fuel2 →
    HubSpotApiService.fetch_pages fuel1 u properties all cursor w
    = HubSpotApiService.fetch_pages fuel2 u properties all cursor w.
Proof.
  induction fuel1 as [|fuel1 IH]; intros fuel2 all cursor w H1 H2; [lia|].
  destruct fuel2 as [|fuel2]; [lia|].
  cbn [HubSpotApiService.fetch_pages]. unfold bind at 1 3.
  unfold HubSpotApiService.httpClient_get.
  destruct (upstream w) as [|[d|m] rest] eqn:Hup; cbn [length] in *;
    try reflexivity.
  case_bool_decide; [|reflexivity].
  unfold sleep, bind, ret. apply IH; cbn; lia.
Qed.

End Pagination.

(** C8. When the upstream answers with pages that each announce a
    successor, followed by one page that does not, [getAllContacts] and
    [getAllCompanies] send one request per page and not one more, the
    first without a cursor and each further one built from the cursor of
    the page before; they return the records of all pages in fetch order
    and leave the later answers of the upstream unread. For two pages,
    the first carrying the non-empty cursor [c1]: exactly two requests,
    the second with [after = c1], and the result is the records of the
    first page followed by those of the second. *)
Theorem pagination_stops_at_last_page
    (w : World) (pages : list ResponseData) (last : ResponseData)
    (rest : list HttpResponse) :
  upstream w = (HttpOk <$> pages) ++ HttpOk last :: rest →
  Forall (λ p, is_Some (paging p ≫= next)) pages →
  paging last ≫= next = None →
  HubSpotApiService.getAllContacts w
  = (Return (concat (results <$> pages) ++ results last),
     set_upstream rest
       (set_trace
          (trace w ++ page_requests HubSpotApiService.contacts_path
                        contact_properties pages) w))
  ∧ HubSpotApiService.getAllCompanies w
    = (Return (concat (results <$> pages) ++ results last),
       set_upstream rest
         (set_trace
            (trace w ++ page_requests HubSpotApiService.companies_path
                          company_properties pages) w))
  ∧ length (page_requests HubSpotApiService.contacts_path
              contact_properties pages) = S (length pages)
  ∧ ∀ P1 c1 l1,
      c1 ≠ "" →
      pages = [page P1 (Some {| after := c1; link := l1 |})] →
      concat (results <$> pages) ++ results last = P1 ++ results last
      ∧ page_requests HubSpotApiService.contacts_path contact_properties pages
        = [EvRequest
             {| url := HubSpotApiService.contacts_path;
                params := [("limit", "100");
                           ("properties", contact_properties)] |};
           EvRequest
             {| url := HubSpotApiService.contacts_path;
                params := [("limit", "100");
                           ("properties", contact_properties);
                           ("after", c1)] |}].
Proof.
  intros Hup Hnext Hlast.
  assert (length pages < S (length (upstream w))) as Hfuel.
  { rewrite Hup, length_app, length_fmap. lia. }
  repeat split.
  - unfold HubSpotApiService.getAllContacts.
    apply (fetch_pages_run _ _ pages _ [] None w last rest); assumption.
  - unfold HubSpotApiService.getAllCompanies.
    apply (fetch_pages_run _ _ pages _ [] None w last rest); assumption.
  - unfold page_requests. rewrite length_fmap. cbn. rewrite length_fmap.
    reflexivity.
  - subst pages. cbn. rewrite app_nil_r. reflexivity.
  - subst pages. unfold page_requests, page_request, next_cursor. cbn.
    unfold HubSpotApiService.page_params.
    assert (Js.truthy c1 = true) as -> by (apply truthy_true; assumption).
    reflexivity.
Qed.

Lemma pagination_stops_at_last_page_witness :
  fst (HubSpotApiService.getAllContacts Sample.two_pages)
  = Return (results Sample.first_page ++ results Sample.second_page)
  ∧ upstream (snd (HubSpotApiService.getAllContacts Sample.two_pages))
    = [HttpFail "never asked"].
Proof.
  pose proof (pagination_stops_at_last_page Sample.two_pages
                [Sample.first_page] Sample.second_page
                [HttpFail "never asked"] eq_refl) as H.
  destruct H as [H _].
  - repeat constructor. eexists. reflexivity.
  - reflexivity.
  - rewrite H. split; reflexivity.
Defined.

(** Without the condition on the cursor the two-page case fails. The
    first page of [Fixture.empty_cursor] announces its successor under
    the empty cursor; [if (after)] is then false, so the second request
    passes no cursor at all, where it would have to carry [after = ""]:
    it is the first request once more. *)
Lemma empty_cursor_is_not_passed_on :
  next_cursor Fixture.looping_page = Some ""
  ∧ next_cursor Sample.second_page = None
  ∧ let r := HubSpotApiService.getAllContacts Fixture.empty_cursor in
    let second_request :=
      EvRequest {| url := HubSpotApiService.contacts_path;
                   params := [("limit", "100");
                              ("properties", contact_properties);
                              ("after", "")] |} in
    fst r
    = Return (results Fixture.looping_page ++ results Sample.second_page)
    ∧ trace (snd r)
      = [EvRequest {| url := HubSpotApiService.contacts_path;
                      params := [("limit", "100");
                                 ("properties", contact_properties)] |};
         EvRequest {| url := HubSpotApiService.contacts_path;
                      params := [("limit", "100");
                                 ("properties", contact_properties)] |}]
    ∧ second_request ∉ trace (snd r).
Proof.
  split; [reflexivity|]. split; [reflexivity|]. cbv zeta.
  split; [vm_compute; reflexivity|].
  assert (trace (snd (HubSpotApiService.getAllContacts Fixture.empty_cursor))
          = [EvRequest {| url := HubSpotApiService.contacts_path;
                          params := [("limit", "100");
                                     ("properties", contact_properties)] |};
             EvRequest {| url := HubSpotApiService.contacts_path;
                          params := [("limit", "100");
                                     ("properties", contact_properties)] |}])
    as -> by (vm_compute; reflexivity).
  split; [reflexivity|].
  intros H. repeat (apply elem_of_cons in H as [H|H]; [discriminate H|]).
  inversion H.
Qed.

(* ===================================================================== *)
(** * Tables with a unique column                                          *)
(* ===================================================================== *)

Section UniqueColumn.

Context {R : Type} (key : R → string).

Lemma filter_key_absent (v : string) (l : list R) :
  v ∉ key <$> l → filter (λ x, key x = v) l = [].
Proof.
  induction l as [|a l IH]; [reflexivity|].
  rewrite fmap_cons, not_elem_of_cons. intros [Hne Hnot].
  rewrite filter_cons_False by congruence. auto.
Qed.

Lemma filter_key_unique (l : list R) (r : R) :
  NoDup (key <$> l) → r ∈ l → filter (λ x, key x = key r) l = [r].
Proof.
  induction l as [|a l IH]; [intros _ H; inversion H|].
  rewrite fmap_cons, NoDup_cons. intros [Hnot Hnd] Hin.
  apply elem_of_cons in Hin as [->|Hin].
  - rewrite filter_cons_True by reflexivity.
    rewrite filter_key_absent by assumption. reflexivity.
  - rewrite filter_cons_False; [auto|].
    intros Heq. apply Hnot. rewrite Heq.
    apply list_elem_of_fmap. eauto.
Qed.

Lemma key_determines_row (l : list R) (x y : R) :
  NoDup (key <$> l) → x ∈ l → y ∈ l → key x = key y → x = y.
Proof.
  intros Hnd Hx Hy Heq.
  pose proof (filter_key_unique l y Hnd Hy) as Hf.
  assert (x ∈ filter (λ z, key z = key y) l) as Hin
    by (apply list_elem_of_filter; auto).
  rewrite Hf in Hin. apply list_elem_of_singleton in Hin. assumption.
Qed.

Lemma head_filter_key (l : list R) (v : string) :
  v ∈ key <$> l → ∃ r, head (filter (λ x, key x = v) l) = Some r
                       ∧ r ∈ l ∧ key r = v.
Proof.
  intros Hin. apply list_elem_of_fmap in Hin as (r & -> & Hr).
  destruct (filter (λ x, key x = key r) l) as [|r' tl] eqn:E.
  - assert (r ∈ filter (λ x, key x = key r) l) as H
      by (apply list_elem_of_filter; auto).
    rewrite E in H. inversion H.
  - exists r'. split; [reflexivity|].
    assert (r' ∈ filter (λ x, key x = key r) l) as H
      by (rewrite E; left).
    apply list_elem_of_filter in H. destruct H; auto.
Qed.

Lemma head_filter_elem (P : R → Prop) `{∀ x, Decision (P x)}
    (l : list R) (r : R) :
  head (filter P l) = Some r → r ∈ l ∧ P r.
Proof.
  intros Hh. apply head_Some in Hh as [tl Hl].
  assert (r ∈ filter P l) as Hin by (rewrite Hl; left).
  apply list_elem_of_filter in Hin. tauto.
Qed.

(** Rewriting rows by a function that keeps the column keeps the
    column of the table. *)
Lemma rewrite_rows_keys (rid : R → string) (i : string) (f : R → R)
    (l : list R) :
  (∀ r, r ∈ l → rid r = i → key (f r) = key r) →
  key <$> Sql.rewrite_rows rid i f l = key <$> l.
Proof.
  unfold Sql.rewrite_rows. induction l as [|a l IH]; intros Hf.
  - reflexivity.
  - cbn [fmap list_fmap]. f_equal.
    + destruct (decide (rid a = i)); [apply Hf; [left|assumption]|reflexivity].
    + apply IH. intros r Hr. apply Hf. right. assumption.
Qed.

Lemma rewrite_rows_elem (rid : R → string) (i : string) (f : R → R)
    (l : list R) (x : R) :
  x ∈ Sql.rewrite_rows rid i f l →
  ∃ r, r ∈ l ∧ x = (if decide (rid r = i) then f r else r).
Proof.
  unfold Sql.rewrite_rows. intros H.
  apply list_elem_of_fmap in H as (r & -> & Hr). eauto.
Qed.

Lemma rewrite_rows_id (rid : R → string) (i : string) (f : R → R)
    (l : list R) :
  (∀ r, r ∈ l → rid r = i → f r = r) →
  Sql.rewrite_rows rid i f l = l.
Proof.
  unfold Sql.rewrite_rows. induction l as [|a l IH]; intros Hf.
  - reflexivity.
  - cbn [fmap list_fmap]. f_equal.
    + destruct (decide (rid a = i)); [apply Hf; [left|assumption]|reflexivity].
    + apply IH. intros r Hr. apply Hf. right. assumption.
Qed.

(** Selecting by the column after rewriting the one row that holds the
    value. *)
Lemma filter_rewrite_rows (i : string) (f : R → R) (l : list R) :
  (∀ r, key (f r) = key r) →
  filter (λ x, key x = i) (Sql.rewrite_rows key i f l)
  = f <$> filter (λ x, key x = i) l.
Proof.
  intros Hf. unfold Sql.rewrite_rows.
  induction l as [|a l IH]; [reflexivity|].
  cbn [fmap list_fmap]. destruct (decide (key a = i)) as [Ha|Ha].
  - rewrite !filter_cons_True by (rewrite ?Hf; assumption).
    cbn [fmap list_fmap]. f_equal. exact IH.
  - rewrite !filter_cons_False by assumption. exact IH.
Qed.

End UniqueColumn.

Lemma collides_false {R} (rid col : R → string) (i v : string) (l : list R) :
  (∀ x, x ∈ l → col x = v → rid x = i) →
  Sql.collides rid col i (Some v) l = false.
Proof.
  intros H. unfold Sql.collides. apply andb_false_iff. right.
  apply bool_decide_eq_false. intros Hin.
  apply list_elem_of_fmap in Hin as (x & -> & Hx).
  apply list_elem_of_filter in Hx as [Hne Hx].
  apply Hne. apply H; auto.
Qed.

Lemma collides_own_key {R} (rid col : R → string) (l : list R) (r : R) :
  NoDup (col <$> l) → r ∈ l →
  Sql.collides rid col (rid r) (Some (col r)) l = false.
Proof.
  intros Hnd Hr. apply collides_false. intros x Hx Heq.
  f_equal. eapply (key_determines_row col); eauto.
Qed.

(* ===================================================================== *)
(** * Upsert of a company                                                  *)
(* ===================================================================== *)

Section CompanyUpsert.

Variables (w : World) (data : CreateCompany.t).

Let rows := companies (db w).
Let u := CreateCompany_as_update data.

(** The external id is known: the row is rewritten in place. *)
Lemma upsert_company_existing (r : Company.t) :
  companies_ok (db w) →
  r ∈ rows →
  Company.hubspot_id r = CreateCompany.hubspot_id data →
  CompanyRepository.upsertByHubspotId data w
  = (Return (Some (Sql.set_company u r)),
     let d' := {| companies :=
                    Sql.rewrite_rows Company.id (Company.id r)
                      (Sql.set_company u) rows;
                  contacts := contacts (db w) |} in
     set_trace (trace w ++ [EvWrite (db w) d']) (set_db d' w)).
Proof.
  intros [Hids Hhs] Hr Hext. subst rows u.
  unfold CompanyRepository.upsertByHubspotId, bind at 1.
  unfold CompanyRepository.findByHubspotId, Sql.company_where, gets.
  rewrite <- Hext.
  rewrite (filter_key_unique Company.hubspot_id) by assumption.
  cbn [head].
  unfold CompanyRepository.update, bind at 1.
  unfold CompanyRepository.findById, Sql.company_where, gets.
  rewrite (filter_key_unique Company.id) by assumption.
  cbn [head CreateCompany_as_update UpdateCompany.hubspot_id
         UpdateCompany.name UpdateCompany.domain].
  unfold bind, Sql.update_company.
  cbn [UpdateCompany.hubspot_id CreateCompany_as_update]. rewrite <- Hext.
  rewrite collides_own_key by assumption.
  unfold Sql.commit, modify. cbn.
  rewrite (filter_rewrite_rows Company.id) by reflexivity.
  rewrite (filter_key_unique Company.id) by assumption.
  reflexivity.
Qed.

(** The external id is new: a row is appended under a fresh local id. *)
Lemma upsert_company_new :
  CreateCompany.hubspot_id data ∉ Company.hubspot_id <$> rows →
  uuid w (uuid_next w) ∉ Company.id <$> rows →
  let c := {| Company.id := uuid w (uuid_next w);
              Company.hubspot_id := CreateCompany.hubspot_id data;
              Company.name := CreateCompany.name data;
              Company.domain := CreateCompany.domain data;
              Company.created_at := clock w (clock_next w) |} in
  CompanyRepository.upsertByHubspotId data w
  = (Return (Some c),
     let d' := {| companies := rows ++ [c]; contacts := contacts (db w) |} in
     set_trace (trace w ++ [EvWrite (db w) d'])
       (set_db d'
          (set_clock_next (S (clock_next w))
             (set_uuid_next (S (uuid_next w)) w)))).
Proof.
  intros Hext Hid. subst rows.
  unfold CompanyRepository.upsertByHubspotId, bind at 1.
  unfold CompanyRepository.findByHubspotId, Sql.company_where, gets.
  rewrite (filter_key_absent Company.hubspot_id) by assumption.
  cbn [head].
  unfold CompanyRepository.create, bind, generateId, getCurrentTimestamp,
    Sql.insert_company. cbn.
  rewrite bool_decide_false by assumption.
  rewrite bool_decide_false by assumption.
  reflexivity.
Qed.

End CompanyUpsert.

Lemma set_company_keeps_keys (u : UpdateCompany.t) (r : Company.t) :
  Company.id (Sql.set_company u r) = Company.id r
  ∧ Company.created_at (Sql.set_company u r) = Company.created_at r.
Proof. split; reflexivity. Qed.

Lemma rewritten_companies_ok (d : Database) (data : CreateCompany.t)
    (r : Company.t) :
  companies_ok d →
  r ∈ companies d →
  Company.hubspot_id r = CreateCompany.hubspot_id data →
  companies_ok
    {| companies :=
         Sql.rewrite_rows Company.id (Company.id r)
           (Sql.set_company (CreateCompany_as_update data)) (companies d);
       contacts := contacts d |}.
Proof.
  intros [Hids Hhs] Hr Hext. split; cbn [companies].
  - rewrite (rewrite_rows_keys Company.id); [assumption|reflexivity].
  - rewrite (rewrite_rows_keys Company.hubspot_id); [assumption|].
    intros x Hx Hid. cbn.
    assert (x = r) as -> by (eapply (key_determines_row Company.id); eauto).
    symmetry. assumption.
Qed.

(** An upsert of a company succeeds on every consistent table, provided
    the identifier drawn for a new row is not taken; it returns the stored
    row, which carries the candidate's fields and, when the external id
    was known, the local id and creation time of the row that held it. *)
Lemma upsert_company_total (w : World) (data : CreateCompany.t) :
  companies_ok (db w) →
  (CreateCompany.hubspot_id data ∉ Company.hubspot_id <$> companies (db w) →
   uuid w (uuid_next w) ∉ Company.id <$> companies (db w)) →
  ∃ c w',
    CompanyRepository.upsertByHubspotId data w = (Return (Some c), w')
    ∧ companies_ok (db w')
    ∧ c ∈ companies (db w')
    ∧ Company.hubspot_id c = CreateCompany.hubspot_id data
    ∧ Company.name c = CreateCompany.name data
    ∧ Company.domain c = CreateCompany.domain data
    ∧ (∀ r, r ∈ companies (db w) →
            Company.hubspot_id r = CreateCompany.hubspot_id data →
            Company.id c = Company.id r
            ∧ Company.created_at c = Company.created_at r)
    ∧ (CreateCompany.hubspot_id data ∉ Company.hubspot_id <$> companies (db w) →
       Company.id c = uuid w (uuid_next w)
       ∧ Company.created_at c = clock w (clock_next w)).
Proof.
  intros Hok Hfresh.
  destruct (decide (CreateCompany.hubspot_id data
                    ∈ Company.hubspot_id <$> companies (db w))) as [Hin|Hnot].
  - apply list_elem_of_fmap in Hin as (r & Hext & Hr). symmetry in Hext.
    eexists _, _. split; [apply (upsert_company_existing w data r); assumption|].
    cbn [db set_trace set_db].
    split; [apply rewritten_companies_ok; assumption|].
    split.
    { cbn [companies]. unfold Sql.rewrite_rows.
      apply list_elem_of_fmap. exists r. split; [|assumption].
      rewrite decide_True by reflexivity. reflexivity. }
    split; [reflexivity|]. split; [reflexivity|]. split; [reflexivity|].
    split.
    + intros r0 Hr0 Hext0. destruct Hok as [Hids Hhs].
      assert (r0 = r) as ->; [|split; reflexivity].
      eapply (key_determines_row Company.hubspot_id); eauto. congruence.
    + intros Hnot. exfalso. apply Hnot. apply list_elem_of_fmap. eauto.
  - specialize (Hfresh Hnot).
    eexists _, _. split; [apply (upsert_company_new w data); assumption|].
    cbn [db set_trace set_db companies].
    destruct Hok as [Hids Hhs].
    split.
    { split; cbn [companies]; rewrite fmap_app; cbn [fmap list_fmap];
        apply NoDup_app; (split; [assumption|]);
        (split; [|apply NoDup_singleton]);
        intros x Hx Hx'; apply list_elem_of_singleton in Hx'; subst x;
        contradiction. }
    split; [apply elem_of_app; right; left|].
    split; [reflexivity|]. split; [reflexivity|]. split; [reflexivity|].
    split.
    + intros r Hr Hext. exfalso. apply Hnot. apply list_elem_of_fmap. eauto.
    + intros _. split; reflexivity.
Qed.

(** Upserting what is already stored changes nothing in the database. *)
Lemma upsert_company_again (w : World) (data : CreateCompany.t) (c : Company.t) :
  companies_ok (db w) →
  c ∈ companies (db w) →
  Company.hubspot_id c = CreateCompany.hubspot_id data →
  Company.name c = CreateCompany.name data →
  Company.domain c = CreateCompany.domain data →
  ∃ w', CompanyRepository.upsertByHubspotId data w = (Return (Some c), w')
        ∧ db w' = db w.
Proof.
  intros Hok Hc Hext Hname Hdom.
  assert (Sql.set_company (CreateCompany_as_update data) c = c) as Hsame.
  { destruct c; cbn in *. subst. reflexivity. }
  rewrite (upsert_company_existing w data c) by assumption.
  rewrite Hsame. eexists. split; [reflexivity|].
  cbn [db set_trace set_db].
  rewrite rewrite_rows_id.
  - destruct (db w); reflexivity.
  - intros r Hr Hid. destruct Hok as [Hids _].
    assert (r = c) as -> by (eapply (key_determines_row Company.id); eauto).
    exact Hsame.
Qed.

Lemma upsert_company_repeat (data : CreateCompany.t) (c : Company.t) (n : nat) :
  ∀ w, companies_ok (db w) →
       c ∈ companies (db w) →
       Company.hubspot_id c = CreateCompany.hubspot_id data →
       Company.name c = CreateCompany.name data →
       Company.domain c = CreateCompany.domain data →
       ∃ w', repeat_m n (CompanyRepository.upsertByHubspotId data) w
             = (Return tt, w')
             ∧ db w' = db w.
Proof.
  induction n as [|n IH]; intros w Hok Hc Hext Hname Hdom.
  - exists w. split; reflexivity.
  - destruct (upsert_company_again w data c) as (w1 & Hrun & Hdb); try assumption.
    destruct (IH w1) as (w2 & Hrun2 & Hdb2); try (rewrite Hdb; assumption);
      try assumption.
    exists w2. split; [|congruence].
    cbn [repeat_m]. unfold bind. rewrite Hrun. exact Hrun2.
Qed.

(** C1. On a consistent company table, upserting the external id [ext]
    with one name and then with another succeeds both times (the
    identifier drawn for a new row being free), and leaves exactly one
    stored company with that external id: it carries the second name,
    and the local id and creation time that the first upsert returned.
    Repeating the first upsert any number of times gives the database
    that one upsert gives, with one row for the external id. *)
Theorem upsert_company_converges
    (w : World) (ext nameA domainA nameB domainB : string) :
  companies_ok (db w) →
  (ext ∉ Company.hubspot_id <$> companies (db w) →
   uuid w (uuid_next w) ∉ Company.id <$> companies (db w)) →
  let A := {| CreateCompany.hubspot_id := ext;
              CreateCompany.name := nameA;
              CreateCompany.domain := domainA |} in
  let B := {| CreateCompany.hubspot_id := ext;
              CreateCompany.name := nameB;
              CreateCompany.domain := domainB |} in
  ∃ c1 w1 c2 w2,
    CompanyRepository.upsertByHubspotId A w = (Return (Some c1), w1)
    ∧ CompanyRepository.upsertByHubspotId B w1 = (Return (Some c2), w2)
    ∧ filter (λ r, Company.hubspot_id r = ext) (companies (db w2)) = [c2]
    ∧ Company.name c2 = nameB
    ∧ Company.id c2 = Company.id c1
    ∧ Company.created_at c2 = Company.created_at c1
    ∧ companies_ok (db w2)
    ∧ ∀ n, ∃ w',
        repeat_m (S n) (CompanyRepository.upsertByHubspotId A) w
        = (Return tt, w')
        ∧ db w' = db w1
        ∧ filter (λ r, Company.hubspot_id r = ext) (companies (db w')) = [c1].
Proof.
  intros Hok Hfresh A B.
  destruct (upsert_company_total w A Hok Hfresh)
    as (c1 & w1 & Hrun1 & Hok1 & Hc1 & Hext1 & Hname1 & Hdom1 & _ & _).
  assert (ext ∈ Company.hubspot_id <$> companies (db w1)) as Hin1.
  { apply list_elem_of_fmap. exists c1. split; [symmetry; exact Hext1|assumption]. }
  destruct (upsert_company_total w1 B Hok1)
    as (c2 & w2 & Hrun2 & Hok2 & Hc2 & Hext2 & Hname2 & Hdom2 & Hkeep & _).
  { intros Hnot. contradiction. }
  destruct (Hkeep c1 Hc1 Hext1) as [Hid Hcreated].
  exists c1, w1, c2, w2.
  split; [exact Hrun1|]. split; [exact Hrun2|].
  split.
  { cbn in Hext2. rewrite <- Hext2.
    apply (filter_key_unique Company.hubspot_id); [apply Hok2|assumption]. }
  split; [exact Hname2|]. split; [exact Hid|]. split; [exact Hcreated|].
  split; [exact Hok2|].
  intros n.
  destruct (upsert_company_repeat A c1 n w1) as (w' & Hrep & Hdb);
    try assumption.
  exists w'. split; [|split; [exact Hdb|]].
  - cbn [repeat_m]. unfold bind. rewrite Hrun1. exact Hrep.
  - rewrite Hdb. cbn in Hext1. rewrite <- Hext1.
    apply (filter_key_unique Company.hubspot_id); [apply Hok1|assumption].
Qed.

Lemma upsert_company_converges_witness :
  ∃ c1 w1 c2 w2,
    CompanyRepository.upsertByHubspotId
      {| CreateCompany.hubspot_id := "hubspot-123";
         CreateCompany.name := "A"; CreateCompany.domain := "a.com" |}
      Sample.with_acme = (Return (Some c1), w1)
    ∧ CompanyRepository.upsertByHubspotId
        {| CreateCompany.hubspot_id := "hubspot-123";
           CreateCompany.name := "B"; CreateCompany.domain := "b.com" |}
        w1 = (Return (Some c2), w2)
    ∧ filter (λ r, Company.hubspot_id r = "hubspot-123") (companies (db w2)) = [c2]
    ∧ Company.name c2 = "B"
    ∧ Company.id c2 = Company.id c1
    ∧ Company.created_at c2 = Company.created_at c1.
Proof.
  destruct (upsert_company_converges Sample.with_acme
              "hubspot-123" "A" "a.com" "B" "b.com")
    as (c1 & w1 & c2 & w2 & H1 & H2 & H3 & H4 & H5 & H6 & _).
  - split; cbn; apply NoDup_singleton.
  - intros _. cbn. intros H. apply list_elem_of_singleton in H. discriminate.
  - exists c1, w1, c2, w2. repeat split; assumption.
Defined.

(* ===================================================================== *)
(** * Upsert of a contact                                                  *)
(* ===================================================================== *)

Lemma dangling_or_null (v : option string) (d : Database) :
  Sql.dangling v d = false → Sql.dangling (Js.or_null v) d = false.
Proof.
  destruct v as [s|]; [|auto]. cbn. unfold Js.or_undefined.
  destruct (Js.truthy s); auto.
Qed.

Section ContactUpsert.

Variables (w : World) (data : CreateContact.t).

Let rows := contacts (db w).
Let u := CreateContact_as_update data.

(** The external id is known: the row is rewritten in place, field by
    field where the candidate has a value. *)
Lemma upsert_contact_existing (r : Contact.t) :
  contacts_ok (db w) →
  r ∈ rows →
  Contact.hubspot_id r = CreateContact.hubspot_id data →
  (∀ x, x ∈ rows → Contact.email x = CreateContact.email data →
        Contact.id x = Contact.id r) →
  Sql.dangling (CreateContact.company_id data) (db w) = false →
  ContactRepository.upsertByHubspotId data w
  = (Return (Some (Sql.set_contact u r)),
     let d' := {| companies := companies (db w);
                  contacts :=
                    Sql.rewrite_rows Contact.id (Contact.id r)
                      (Sql.set_contact u) rows |} in
     set_trace (trace w ++ [EvWrite (db w) d']) (set_db d' w)).
Proof.
  intros [Hids Hhs Hem] Hr Hext Hemail Hfk. subst rows u.
  unfold ContactRepository.upsertByHubspotId, bind at 1.
  unfold ContactRepository.findByHubspotId, Sql.contact_where, gets.
  rewrite <- Hext.
  rewrite (filter_key_unique Contact.hubspot_id) by assumption.
  cbn [head].
  unfold ContactRepository.update, bind at 1.
  unfold ContactRepository.findById, Sql.contact_where, gets.
  rewrite (filter_key_unique Contact.id) by assumption.
  cbn [head CreateContact_as_update UpdateContact.hubspot_id].
  unfold bind, Sql.update_contact.
  cbn [UpdateContact.hubspot_id UpdateContact.email
         UpdateContact.company_id CreateContact_as_update].
  rewrite <- Hext.
  rewrite collides_own_key by assumption.
  rewrite collides_false by assumption.
  rewrite Hfk, andb_false_r.
  unfold Sql.commit, modify. cbn.
  rewrite (filter_rewrite_rows Contact.id) by reflexivity.
  rewrite (filter_key_unique Contact.id) by assumption.
  reflexivity.
Qed.

(** The external id is new: a row is appended under a fresh local id and
    the current time. *)
Lemma upsert_contact_new :
  CreateContact.hubspot_id data ∉ Contact.hubspot_id <$> rows →
  uuid w (uuid_next w) ∉ Contact.id <$> rows →
  CreateContact.email data ∉ Contact.email <$> rows →
  Sql.dangling (CreateContact.company_id data) (db w) = false →
  let c := {| Contact.id := uuid w (uuid_next w);
              Contact.hubspot_id := CreateContact.hubspot_id data;
              Contact.firstname := CreateContact.firstname data;
              Contact.lastname := CreateContact.lastname data;
              Contact.email := CreateContact.email data;
              Contact.company_id := CreateContact.company_id data;
              Contact.created_at := clock w (clock_next w) |} in
  let row := {| Contact.id := uuid w (uuid_next w);
                Contact.hubspot_id := CreateContact.hubspot_id data;
                Contact.firstname := Js.or_null (CreateContact.firstname data);
                Contact.lastname := Js.or_null (CreateContact.lastname data);
                Contact.email := CreateContact.email data;
                Contact.company_id := Js.or_null (CreateContact.company_id data);
                Contact.created_at := clock w (clock_next w) |} in
  ContactRepository.upsertByHubspotId data w
  = (Return (Some c),
     let d' := {| companies := companies (db w); contacts := rows ++ [row] |} in
     set_trace (trace w ++ [EvWrite (db w) d'])
       (set_db d'
          (set_clock_next (S (clock_next w))
             (set_uuid_next (S (uuid_next w)) w)))).
Proof.
  intros Hext Hid Hemail Hfk. subst rows.
  unfold ContactRepository.upsertByHubspotId, bind at 1.
  unfold ContactRepository.findByHubspotId, Sql.contact_where, gets.
  rewrite (filter_key_absent Contact.hubspot_id) by assumption.
  cbn [head].
  unfold ContactRepository.create, bind, generateId, getCurrentTimestamp,
    Sql.insert_contact. cbn.
  rewrite !bool_decide_false by assumption.
  rewrite dangling_or_null by assumption.
  reflexivity.
Qed.

End ContactUpsert.

Lemma set_contact_fields (u : UpdateContact.t) (r : Contact.t) :
  Contact.id (Sql.set_contact u r) = Contact.id r
  ∧ Contact.created_at (Sql.set_contact u r) = Contact.created_at r
  ∧ Contact.firstname (Sql.set_contact u r)
    = merged (UpdateContact.firstname u) (Contact.firstname r)
  ∧ Contact.lastname (Sql.set_contact u r)
    = merged (UpdateContact.lastname u) (Contact.lastname r)
  ∧ Contact.company_id (Sql.set_contact u r)
    = merged (UpdateContact.company_id u) (Contact.company_id r).
Proof. repeat split; reflexivity. Qed.

(** The candidate of [Sample.ann_cleared] has no names and no company;
    the stored contact keeps the ones it had. *)
Lemma upsert_contact_keeps_absent_fields :
  ∃ stored w',
    ContactRepository.upsertByHubspotId Sample.ann_cleared Sample.with_ann
    = (Return (Some stored), w')
    ∧ contacts (db w') = [stored]
    ∧ Contact.firstname stored = Some "Ann"
    ∧ Contact.lastname stored = Some "Lee"
    ∧ Contact.company_id stored = Some "c-1"
    ∧ ¬ overwritten_from Sample.ann_cleared stored.
Proof.
  eexists _, _. split; [reflexivity|]. split; [reflexivity|].
  split; [reflexivity|]. split; [reflexivity|]. split; [reflexivity|].
  intros (_ & Hfirst & _). discriminate Hfirst.
Qed.

(** C2. An upsert of a contact on a consistent table, with an email that
    no other contact holds and a company reference that exists, succeeds
    and leaves one row for the external id. If the external id was
    stored, that row keeps its local id and creation time, takes the
    external id and the email of the candidate, and takes each of
    [firstname], [lastname] and [company_id] from the candidate when the
    candidate has a value for it, keeping the stored value when it has
    none. If the external id was not stored, the row gets the identifier
    and the instant drawn for it, and the candidate's fields. *)
Theorem upsert_contact_merges (w : World) (data : CreateContact.t) :
  contacts_ok (db w) →
  (∀ x, x ∈ contacts (db w) →
        Contact.email x = CreateContact.email data →
        Contact.hubspot_id x = CreateContact.hubspot_id data) →
  Sql.dangling (CreateContact.company_id data) (db w) = false →
  (CreateContact.hubspot_id data ∉ Contact.hubspot_id <$> contacts (db w) →
   uuid w (uuid_next w) ∉ Contact.id <$> contacts (db w)) →
  ∃ res row w',
    ContactRepository.upsertByHubspotId data w = (Return (Some res), w')
    ∧ filter (λ r, Contact.hubspot_id r = CreateContact.hubspot_id data)
        (contacts (db w')) = [row]
    ∧ Contact.email row = CreateContact.email data
    ∧ Contact.id res = Contact.id row
    ∧ Contact.created_at res = Contact.created_at row
    ∧ (∀ r, r ∈ contacts (db w) →
            Contact.hubspot_id r = CreateContact.hubspot_id data →
            res = row
            ∧ Contact.id row = Contact.id r
            ∧ Contact.created_at row = Contact.created_at r
            ∧ Contact.firstname row
              = merged (CreateContact.firstname data) (Contact.firstname r)
            ∧ Contact.lastname row
              = merged (CreateContact.lastname data) (Contact.lastname r)
            ∧ Contact.company_id row
              = merged (CreateContact.company_id data) (Contact.company_id r))
    ∧ (CreateContact.hubspot_id data ∉ Contact.hubspot_id <$> contacts (db w) →
       Contact.id row = uuid w (uuid_next w)
       ∧ Contact.created_at row = clock w (clock_next w)
       ∧ Contact.firstname row = Js.or_null (CreateContact.firstname data)
       ∧ Contact.lastname row = Js.or_null (CreateContact.lastname data)
       ∧ Contact.company_id row = Js.or_null (CreateContact.company_id data)).
Proof.
  intros Hok Hemail Hfk Hfresh.
  destruct (decide (CreateContact.hubspot_id data
                    ∈ Contact.hubspot_id <$> contacts (db w))) as [Hin|Hnot].
  - apply list_elem_of_fmap in Hin as (r & Hext & Hr). symmetry in Hext.
    pose proof Hok as [Hids Hhs Hem].
    assert (∀ x, x ∈ contacts (db w) →
                 Contact.email x = CreateContact.email data →
                 Contact.id x = Contact.id r) as Hemail'.
    { intros x Hx He. f_equal.
      eapply (key_determines_row Contact.hubspot_id); eauto.
      rewrite Hext. auto. }
    eexists _, _, _.
    split; [apply (upsert_contact_existing w data r); assumption|].
    cbn [db set_trace set_db contacts].
    split.
    { apply (filter_key_unique Contact.hubspot_id _
               (Sql.set_contact (CreateContact_as_update data) r)).
      - rewrite (rewrite_rows_keys Contact.hubspot_id); [assumption|].
        intros x Hx Hid. cbn.
        assert (x = r) as -> by (eapply (key_determines_row Contact.id); eauto).
        symmetry. assumption.
      - unfold Sql.rewrite_rows. apply list_elem_of_fmap. exists r.
        split; [|assumption]. rewrite decide_True by reflexivity. reflexivity. }
    split; [reflexivity|]. split; [reflexivity|]. split; [reflexivity|].
    split.
    + intros r0 Hr0 Hext0.
      assert (r0 = r) as ->.
      { eapply (key_determines_row Contact.hubspot_id); eauto. congruence. }
      repeat split; reflexivity.
    + intros Hnot. exfalso. apply Hnot. apply list_elem_of_fmap. eauto.
  - specialize (Hfresh Hnot).
    assert (CreateContact.email data ∉ Contact.email <$> contacts (db w)) as Hem.
    { intros Hin. apply list_elem_of_fmap in Hin as (x & He & Hx).
      apply Hnot. apply list_elem_of_fmap. exists x. split; [|assumption].
      symmetry. apply Hemail; auto. }
    eexists _, _, _.
    split; [apply (upsert_contact_new w data); assumption|].
    cbn [db set_trace set_db contacts].
    split.
    { rewrite filter_app.
      rewrite (filter_key_absent Contact.hubspot_id) by assumption.
      rewrite filter_cons_True by reflexivity. reflexivity. }
    split; [reflexivity|]. split; [reflexivity|]. split; [reflexivity|].
    split.
    + intros r Hr Hext. exfalso. apply Hnot. apply list_elem_of_fmap. eauto.
    + intros _. repeat split; reflexivity.
Qed.

Lemma upsert_contact_merges_witness :
  ∃ res row w',
    ContactRepository.upsertByHubspotId Sample.ann_renamed Sample.with_ann
    = (Return (Some res), w')
    ∧ filter (λ r, Contact.hubspot_id r = "501") (contacts (db w')) = [row]
    ∧ Contact.id row = "k-1"
    ∧ Contact.firstname row = Some "Anna"
    ∧ Contact.lastname row = Some "Lee"
    ∧ Contact.email row = "anna@example.com"
    ∧ Contact.company_id row = Some "c-1".
Proof.
  destruct (upsert_contact_merges Sample.with_ann Sample.ann_renamed)
    as (res & row & w' & Hrun & Hrows & Hem & _ & _ & Hold & _).
  - split; cbn; apply NoDup_singleton.
  - intros x Hx. cbn in Hx. apply list_elem_of_singleton in Hx. subst x.
    cbn. discriminate.
  - reflexivity.
  - intros Hnot. exfalso. apply Hnot. cbn. left.
  - destruct (Hold Sample.ann) as (_ & Hid & _ & Hfn & Hln & Hco);
      [cbn; left | reflexivity |].
    exists res, row, w'.
    split; [exact Hrun|]. split; [exact Hrows|].
    repeat split; assumption.
Defined.

(* ===================================================================== *)
(** * One contact of the contact phase                                     *)
(* ===================================================================== *)

(** The transformer never fails and does not change the world; the company
    it resolves, if any, is a stored one. *)
Lemma transformHubspotContact_run (c : HubSpotObject) (w : World) :
  ∃ cid,
    EtlService.transformHubspotContact c w
    = (Return {| CreateContact.hubspot_id := hs_id c;
                 CreateContact.firstname :=
                   Js.or_undefined (cleanString (prop "firstname" (properties c)));
                 CreateContact.lastname :=
                   Js.or_undefined (cleanString (prop "lastname" (properties c)));
                 CreateContact.email := cleanString (prop "email" (properties c));
                 CreateContact.company_id := cid |}, w)
    ∧ Sql.dangling cid (db w) = false.
Proof.
  unfold EtlService.transformHubspotContact, bind at 1.
  destruct (Js.truthy_opt (prop "associatedcompanyid" (properties c))).
  - unfold try_catch, bind, CompanyService.getCompanyByHubspotId, try_catch,
      CompanyRepository.findByHubspotId, Sql.company_where, gets, ret.
    eexists. split; [reflexivity|].
    destruct (head _) as [company|] eqn:Hhead; [|reflexivity].
    apply (head_filter_elem Company.hubspot_id) in Hhead as [Hin _].
    cbn. rewrite bool_decide_true; [reflexivity|].
    apply list_elem_of_fmap. eauto.
  - exists None. split; reflexivity.
Qed.

Section ContactStep.

Variables (w : World) (c : HubSpotObject).

Let e := cleanString (prop "email" (properties c)).

(** A contact with an email and a new external id is stored under a fresh
    identifier and counted. *)
Lemma syncContact_new :
  e ≠ "" →
  hs_id c ∉ Contact.hubspot_id <$> contacts (db w) →
  uuid w (uuid_next w) ∉ Contact.id <$> contacts (db w) →
  e ∉ Contact.email <$> contacts (db w) →
  ∃ row,
    Contact.id row = uuid w (uuid_next w)
    ∧ Contact.hubspot_id row = hs_id c
    ∧ Contact.email row = e
    ∧ Sql.dangling (Contact.company_id row) (db w) = false
    ∧ EtlService.syncContact c w
      = (Return tt,
         let d' := {| companies := companies (db w);
                      contacts := contacts (db w) ++ [row] |} in
         set_syncStatus (EtlService.incr_contactsProcessed (syncStatus w))
           (set_trace (trace w ++ [EvWrite (db w) d'])
              (set_db d'
                 (set_clock_next (S (clock_next w))
                    (set_uuid_next (S (uuid_next w)) w))))).
Proof.
  intros He Hext Hid Hemail. subst e.
  destruct (transformHubspotContact_run c w) as (cid & Htr & Hfk).
  eexists. split; [|split; [|split; [|split]]]; cycle 4.
  - unfold EtlService.syncContact, try_catch, bind at 1. rewrite Htr.
    cbn [CreateContact.email].
    assert (Js.truthy (cleanString (prop "email" (properties c))) = true) as ->
      by (apply truthy_true; assumption).
    unfold bind at 1, ContactService.upsertContactByHubspotId, try_catch.
    rewrite upsert_contact_new by assumption.
    unfold EtlService.update_status, modify. cbn. reflexivity.
  - reflexivity.
  - reflexivity.
  - reflexivity.
  - cbn. apply dangling_or_null. assumption.
Qed.

(** A contact with an email and a stored external id has its row
    rewritten and is counted. *)
Lemma syncContact_existing (r : Contact.t) :
  e ≠ "" →
  contacts_ok (db w) →
  r ∈ contacts (db w) →
  Contact.hubspot_id r = hs_id c →
  (∀ x, x ∈ contacts (db w) → Contact.email x = e →
        Contact.id x = Contact.id r) →
  ∃ u,
    Contact.hubspot_id (Sql.set_contact u r) = hs_id c
    ∧ Contact.email (Sql.set_contact u r) = e
    ∧ EtlService.syncContact c w
      = (Return tt,
         let d' := {| companies := companies (db w);
                      contacts :=
                        Sql.rewrite_rows Contact.id (Contact.id r)
                          (Sql.set_contact u) (contacts (db w)) |} in
         set_syncStatus (EtlService.incr_contactsProcessed (syncStatus w))
           (set_trace (trace w ++ [EvWrite (db w) d']) (set_db d' w))).
Proof.
  intros He Hok Hr Hext Hemail. subst e.
  destruct (transformHubspotContact_run c w) as (cid & Htr & Hfk).
  eexists. split; [|split]; cycle 2.
  - unfold EtlService.syncContact, try_catch, bind at 1. rewrite Htr.
    cbn [CreateContact.email].
    assert (Js.truthy (cleanString (prop "email" (properties c))) = true) as ->
      by (apply truthy_true; assumption).
    unfold bind at 1, ContactService.upsertContactByHubspotId, try_catch.
    rewrite (upsert_contact_existing _ _ r) by assumption.
    unfold EtlService.update_status, modify. cbn. reflexivity.
  - reflexivity.
  - reflexivity.
Qed.

End ContactStep.

(** The contact "601" carries the email of the stored contact "501":
    the store rejects the insert, nothing is persisted for "601", and the
    failure is reported. *)
Lemma held_email_is_not_persisted :
  email_of Sample.ann_again = "ann@example.com"
  ∧ let r := EtlService.syncContact Sample.ann_again Sample.with_ann in
    fst r = Return tt
    ∧ contacts (db (snd r)) = [Sample.ann]
    ∧ ("601" ∉ Contact.hubspot_id <$> contacts (db (snd r)))
    ∧ contactsProcessed (syncStatus (snd r)) = 0
    ∧ status_errors (snd r)
      = ["Failed to sync contact 601: Failed to upsert contact"].
Proof.
  vm_compute. repeat split; try reflexivity.
  intros H. apply list_elem_of_singleton in H. discriminate.
Qed.

(** C10. A fetched contact whose email trims to a non-empty string is
    handed to the upsert with that string as its email, whatever the
    string looks like: the loop body of the contact phase is the upsert
    of the transformed contact followed by the count, and no check
    stands between the transformer and the upsert. On a consistent table
    where no other contact holds that email (and the identifier drawn
    for a new row is free) the upsert stores one row for the external id
    with that string as its email, the contact is counted, and neither an
    error nor a warning is recorded. The create path of the CRUD service
    rejects the same string with status 400 when it is not a valid email,
    and changes nothing. *)
Theorem sync_stores_unvalidated_email (w : World) (c : HubSpotObject) :
  let e := email_of c in
  e ≠ "" →
  (∃ data,
     EtlService.transformHubspotContact c w = (Return data, w)
     ∧ CreateContact.hubspot_id data = hs_id c
     ∧ CreateContact.email data = e
     ∧ EtlService.syncContact c w
       = try_catch
           (ContactService.upsertContactByHubspotId data ;;;
            EtlService.update_status EtlService.incr_contactsProcessed)
           (λ error,
              EtlService.errors_push
                ("Failed to sync contact " +:+ hs_id c +:+ ": "
                 +:+ formatError error)) w)
  ∧ (contacts_ok (db w) →
     (∀ x, x ∈ contacts (db w) → Contact.email x = e →
           Contact.hubspot_id x = hs_id c) →
     (hs_id c ∉ Contact.hubspot_id <$> contacts (db w) →
      uuid w (uuid_next w) ∉ Contact.id <$> contacts (db w)) →
     ∃ row w',
       EtlService.syncContact c w = (Return tt, w')
       ∧ filter (λ r, Contact.hubspot_id r = hs_id c) (contacts (db w')) = [row]
       ∧ Contact.email row = e
       ∧ contactsProcessed (syncStatus w') = S (contactsProcessed (syncStatus w))
       ∧ heap w' = heap w
       ∧ warnings w' = warnings w)
  ∧ (isValidEmail e = false →
     ∀ data, CreateContact.email data = e →
             ContactService.createContact data w
             = (Throw (AppError "Invalid email format" 400), w)).
Proof.
  intros e He. split; [|split].
  - destruct (transformHubspotContact_run c w) as (cid & Htr & _).
    eexists. split; [exact Htr|]. split; [reflexivity|]. split; [reflexivity|].
    unfold EtlService.syncContact, try_catch, bind at 1. rewrite Htr.
    cbn [CreateContact.email]. fold (email_of c). fold e.
    assert (Js.truthy e = true) as -> by (apply truthy_true; exact He).
    reflexivity.
  - intros Hok Hemail Hfresh.
    destruct (decide (hs_id c ∈ Contact.hubspot_id <$> contacts (db w)))
      as [Hin|Hnot].
    + apply list_elem_of_fmap in Hin as (r & Hext & Hr). symmetry in Hext.
      pose proof Hok as [Hids Hhs Hem].
      destruct (syncContact_existing w c r) as (u & Hu1 & Hu2 & Hrun);
        try assumption.
      { intros x Hx Hxe. f_equal.
        eapply (key_determines_row Contact.hubspot_id); eauto.
        rewrite Hext. auto. }
      eexists _, _. split; [exact Hrun|].
      cbn [db set_syncStatus set_trace set_db contacts syncStatus heap warnings].
      split.
      { rewrite <- Hu1.
        apply (filter_key_unique Contact.hubspot_id).
        - rewrite (rewrite_rows_keys Contact.hubspot_id); [assumption|].
          intros x Hx Hid.
          assert (x = r) as -> by (eapply (key_determines_row Contact.id); eauto).
          congruence.
        - unfold Sql.rewrite_rows. apply list_elem_of_fmap. exists r.
          split; [|assumption]. rewrite decide_True by reflexivity. reflexivity. }
      split; [exact Hu2|]. split; [reflexivity|]. split; reflexivity.
    + assert (e ∉ Contact.email <$> contacts (db w)) as Hem.
      { intros Hin. apply list_elem_of_fmap in Hin as (x & Hxe & Hx).
        apply Hnot. apply list_elem_of_fmap. exists x. split; [|assumption].
        symmetry. apply Hemail; auto. }
      destruct (syncContact_new w c) as (row & Hid & Hext & Hrow & _ & Hrun);
        auto.
      eexists row, _. split; [exact Hrun|].
      cbn [db set_syncStatus set_trace set_db contacts syncStatus heap warnings
             set_clock_next set_uuid_next].
      split.
      { rewrite filter_app.
        rewrite (filter_key_absent Contact.hubspot_id) by assumption.
        rewrite filter_cons_True by assumption. reflexivity. }
      split; [exact Hrow|]. split; [reflexivity|]. split; reflexivity.
  - intros Hbad data Hdata.
    unfold ContactService.createContact. rewrite Hdata, Hbad. reflexivity.
Qed.

Lemma sync_stores_unvalidated_email_witness :
  (∃ row w',
     EtlService.syncContact Sample.odd_contact Sample.with_ann = (Return tt, w')
     ∧ filter (λ r, Contact.hubspot_id r = "777") (contacts (db w')) = [row]
     ∧ Contact.email row = "not-an-email")
  ∧ ContactService.createContact
      {| CreateContact.hubspot_id := "777";
         CreateContact.firstname := Some "Odd";
         CreateContact.lastname := None;
         CreateContact.email := "not-an-email";
         CreateContact.company_id := None |} Sample.with_ann
    = (Throw (AppError "Invalid email format" 400), Sample.with_ann).
Proof.
  destruct (sync_stores_unvalidated_email Sample.with_ann Sample.odd_contact)
    as (_ & Hstore & Hcreate).
  - vm_compute. discriminate.
  - destruct Hstore as (row & w' & Hrun & Hrows & Hemail & _).
    + split; cbn; apply NoDup_singleton.
    + intros x Hx. cbn in Hx. apply list_elem_of_singleton in Hx. subst x.
      vm_compute. discriminate.
    + intros _. cbn. intros H. apply list_elem_of_singleton in H.
      vm_compute in H. discriminate.
    + split.
      * exists row, w'. repeat split; assumption.
      * apply Hcreate; reflexivity.
Defined.

(* ===================================================================== *)
(** * Effects, structurally                                                *)
(* ===================================================================== *)

Section Keeps.

Context (R : relation World) `{!PreOrder R}.

Lemma keeps_ret {A} (a : A) : keeps R (ret a).
Proof. intros w. reflexivity. Qed.

Lemma keeps_throw {A} (e : Exn) : keeps R (@throw A e).
Proof. intros w. reflexivity. Qed.

Lemma keeps_gets {A} (f : World → A) : keeps R (gets f).
Proof. intros w. reflexivity. Qed.

Lemma keeps_sleep (ms : nat) : keeps R (sleep ms).
Proof. intros w. reflexivity. Qed.

Lemma keeps_bind {A B} (m : M A) (k : A → M B) :
  keeps R m → (∀ a, keeps R (k a)) → keeps R (bind m k).
Proof.
  intros Hm Hk w. unfold bind. specialize (Hm w).
  destruct (m w) as [[a|e] w1]; cbn in *.
  - etrans; [exact Hm|apply Hk].
  - exact Hm.
Qed.

Lemma keeps_try_catch {A} (m : M A) (h : Exn → M A) :
  keeps R m → (∀ e, keeps R (h e)) → keeps R (try_catch m h).
Proof.
  intros Hm Hh w. unfold try_catch. specialize (Hm w).
  destruct (m w) as [[a|e] w1]; cbn in *.
  - exact Hm.
  - etrans; [exact Hm|apply Hh].
Qed.

Lemma keeps_for_of {A} (xs : list A) (body : A → M unit) :
  (∀ x, x ∈ xs → keeps R (body x)) → keeps R (for_of xs body).
Proof.
  induction xs as [|x xs IH]; intros Hbody.
  - apply keeps_ret.
  - cbn [for_of]. apply keeps_bind.
    + apply Hbody. left.
    + intros _. apply IH. intros y Hy. apply Hbody. right. assumption.
Qed.

Lemma keeps_modify (f : World → World) :
  (∀ w, R w (f w)) → keeps R (modify f).
Proof. intros Hf w. apply Hf. Qed.

End Keeps.

Global Instance same_preorder {A} (f : World → A) : PreOrder (same f).
Proof.
  split.
  - intros w. reflexivity.
  - intros w1 w2 w3 H12 H23. unfold same in *. congruence.
Qed.

Global Instance traces_preorder (P : Event → Prop) : PreOrder (traces P).
Proof.
  split.
  - intros w Hok. split; [assumption|]. exists []. rewrite app_nil_r. auto.
  - intros w1 w2 w3 H12 H23 Hok.
    destruct (H12 Hok) as (Hok2 & evs1 & Ht1 & HP1).
    destruct (H23 Hok2) as (Hok3 & evs2 & Ht2 & HP2).
    split; [assumption|]. exists (evs1 ++ evs2).
    split; [rewrite Ht2, Ht1, (assoc_L (++)); reflexivity|].
    apply Forall_app; auto.
Qed.

Global Instance errors_grow_preorder (P : string → Prop) :
  PreOrder (errors_grow P).
Proof.
  split.
  - intros w. split; [reflexivity|]. exists []. rewrite app_nil_r. auto.
  - intros w1 w2 w3 (Hl1 & m1 & Hm1 & HP1) (Hl2 & m2 & Hm2 & HP2).
    split; [congruence|]. exists (m1 ++ m2).
    split; [rewrite Hm2, Hm1, (assoc_L (++)); reflexivity|].
    apply Forall_app; auto.
Qed.

Global Instance uuid_advances_preorder : PreOrder uuid_advances.
Proof.
  split.
  - intros w. split; [reflexivity|lia].
  - intros w1 w2 w3 [Hf1 Hn1] [Hf2 Hn2]. split; [congruence|lia].
Qed.

(** A step that leaves the database and the trace alone. *)
Lemma traces_silent (P : Event → Prop) (w w' : World) :
  db w' = db w → trace w' = trace w → traces P w w'.
Proof.
  intros Hdb Htr Hok. rewrite Hdb. split; [assumption|].
  exists []. rewrite app_nil_r. auto.
Qed.

(** A step that leaves the status object and the heap alone. *)
Lemma errors_grow_silent (P : string → Prop) (w w' : World) :
  errors (syncStatus w') = errors (syncStatus w) →
  heap w' = heap w → errors_grow P w w'.
Proof.
  intros Hl Hh. split; [assumption|]. exists [].
  unfold status_errors, array_read. rewrite Hl, Hh, app_nil_r. auto.
Qed.

(** The layers above the primitives are unfolded on the way down. *)
Create HintDb etl discriminated.

#[local] Hint Unfold
  CompanyRepository.findById CompanyRepository.findByHubspotId
  CompanyRepository.create CompanyRepository.update
  CompanyRepository.upsertByHubspotId
  ContactRepository.findById ContactRepository.findByHubspotId
  ContactRepository.findByEmail ContactRepository.create
  ContactRepository.update ContactRepository.upsertByHubspotId
  CompanyService.getCompanyByHubspotId CompanyService.upsertCompanyByHubspotId
  ContactService.upsertContactByHubspotId
  EtlService.transformHubspotContact EtlService.syncCompany
  EtlService.syncContact EtlService.update_status EtlService.errors_push
  Sql.company_where Sql.contact_where logger_warn : etl.

(** Descend through the structure of a computation; [leaf] closes what is
    left at the primitives. *)
Ltac keeps_descend leaf :=
  repeat first
    [ apply keeps_ret; apply _
    | apply keeps_throw; apply _
    | apply keeps_gets; apply _
    | apply keeps_sleep; apply _
    | apply keeps_bind; [apply _| |intros ?]
    | apply keeps_try_catch; [apply _| |intros ?]
    | lazymatch goal with
      | |- keeps _ (if ?b then _ else _) => destruct b
      | |- keeps _ (match ?x with _ => _ end) => destruct x
      end
    | progress cbv zeta
    | progress autounfold with etl
    | solve [leaf] ].

(** Leaves for an observation: compute both worlds and compare. *)
Ltac same_leaf :=
  intros ?w;
  unfold same, modify, generateId, getCurrentTimestamp, array_push,
    Sql.insert_company, Sql.update_company, Sql.insert_contact,
    Sql.update_contact, Sql.commit, throw, modify,
    HubSpotApiService.httpClient_get;
  cbn; repeat case_match; reflexivity.

(** ** The events of the primitives *)

Lemma insert_company_traces (row : Company.t) :
  keeps (traces company_event) (Sql.insert_company row).
Proof.
  intros w Hok. unfold Sql.insert_company, throw, Sql.commit, modify.
  repeat case_bool_decide; cbn; try (apply traces_silent; auto; fail).
  split.
  - intros r c Hr Hc. cbn in *. rewrite fmap_app. apply elem_of_app. left.
    eapply Hok; eauto.
  - eexists. split; [reflexivity|]. repeat constructor.
Qed.

Lemma update_company_traces (i : string) (u : UpdateCompany.t) :
  keeps (traces company_event) (Sql.update_company i u).
Proof.
  intros w Hok. unfold Sql.update_company, throw, Sql.commit, modify.
  case_match; cbn; [apply traces_silent; auto|].
  split.
  - intros r c Hr Hc. cbn in *.
    rewrite (rewrite_rows_keys Company.id) by reflexivity.
    eapply Hok; eauto.
  - eexists. split; [reflexivity|]. repeat constructor.
Qed.

Lemma not_dangling (c : string) (d : Database) :
  Sql.dangling (Some c) d = false → c ∈ Company.id <$> companies d.
Proof.
  cbn. rewrite negb_false_iff. apply bool_decide_eq_true_1.
Qed.

Lemma insert_contact_traces (row : Contact.t) :
  keeps (traces contact_event) (Sql.insert_contact row).
Proof.
  intros w Hok. unfold Sql.insert_contact, throw, Sql.commit, modify.
  repeat case_bool_decide; cbn; try (apply traces_silent; auto; fail).
  destruct (Sql.dangling (Contact.company_id row) (db w)) eqn:Hfk; cbn;
    [apply traces_silent; auto|].
  assert (∀ r c, r ∈ contacts (db w) ++ [row] →
                 Contact.company_id r = Some c →
                 c ∈ Company.id <$> companies (db w)) as Hrefs.
  { intros r c Hr Hc. apply elem_of_app in Hr as [Hr|Hr].
    - eapply Hok; eauto.
    - apply list_elem_of_singleton in Hr. subst r. rewrite Hc in Hfk.
      apply not_dangling. assumption. }
  split; [exact Hrefs|].
  eexists. split; [reflexivity|]. repeat constructor. exact Hrefs.
Qed.

Lemma update_contact_traces (i : string) (u : UpdateContact.t) :
  keeps (traces contact_event) (Sql.update_contact i u).
Proof.
  intros w Hok. unfold Sql.update_contact, throw, Sql.commit, modify.
  repeat (case_match; cbn; [apply traces_silent; auto|]).
  assert (∀ r c, r ∈ Sql.rewrite_rows Contact.id i (Sql.set_contact u)
                        (contacts (db w)) →
                 Contact.company_id r = Some c →
                 c ∈ Company.id <$> companies (db w)) as Hrefs.
  { intros r' c Hr' Hc.
    apply (rewrite_rows_elem Contact.id) in Hr' as (r & Hr & ->).
    destruct (decide (Contact.id r = i)) as [Hid|Hid]; [|eapply Hok; eauto].
    cbn in Hc. destruct (UpdateContact.company_id u) as [v|] eqn:Hu;
      [|eapply Hok; eauto].
    injection Hc as ->.
    match goal with
    | H : bool_decide _ && Sql.dangling _ _ = false |- _ =>
        apply andb_false_iff in H as [Hmem|Hfk]
    end.
    - apply bool_decide_eq_false in Hmem. exfalso. apply Hmem.
      apply list_elem_of_fmap. eauto.
    - apply not_dangling. assumption. }
  split; [exact Hrefs|].
  eexists. split; [reflexivity|]. repeat constructor. exact Hrefs.
Qed.

Lemma httpClient_get_traces (P : Event → Prop) (u : string)
    (ps : list (string * string)) :
  (∀ r, url r = u → P (EvRequest r)) →
  keeps (traces P) (HubSpotApiService.httpClient_get u ps).
Proof.
  intros HP w Hok. unfold HubSpotApiService.httpClient_get.
  assert (P (EvRequest {| url := u; params := ps |})) as Hev
    by (apply HP; reflexivity).
  repeat case_match; cbn; (split; [assumption|]);
    eexists; (split; [reflexivity|]); repeat constructor; assumption.
Qed.

Lemma fetch_pages_traces (P : Event → Prop) (u properties : string)
    (fuel : nat) :
  (∀ r, url r = u → P (EvRequest r)) →
  ∀ all cursor,
    keeps (traces P) (HubSpotApiService.fetch_pages fuel u properties all cursor).
Proof.
  intros HP. induction fuel as [|fuel IH]; intros all cursor;
    cbn [HubSpotApiService.fetch_pages].
  - apply keeps_throw. apply _.
  - apply keeps_bind; [apply _|apply httpClient_get_traces; assumption|].
    intros response. cbv zeta. case_bool_decide.
    + apply keeps_bind; [apply _|apply keeps_sleep; apply _|].
      intros _. apply IH.
    + apply keeps_ret. apply _.
Qed.

(** Leaves that touch neither the database nor the trace. *)
Ltac silent_leaf :=
  intros ?w;
  unfold modify, generateId, getCurrentTimestamp, array_push;
  apply traces_silent; reflexivity.

Lemma syncCompany_traces (c : HubSpotObject) :
  keeps (traces company_event) (EtlService.syncCompany c).
Proof.
  keeps_descend
    ltac:(first [ apply insert_company_traces
                | apply update_company_traces
                | silent_leaf ]).
Qed.

Lemma syncContact_traces (c : HubSpotObject) :
  keeps (traces contact_event) (EtlService.syncContact c).
Proof.
  keeps_descend
    ltac:(first [ apply insert_contact_traces
                | apply update_contact_traces
                | silent_leaf ]).
Qed.

Lemma syncCompanies_traces : keeps (traces company_event) EtlService.syncCompanies.
Proof.
  unfold EtlService.syncCompanies.
  apply keeps_bind; [apply _| |].
  - intros w. unfold HubSpotApiService.getAllCompanies.
    apply fetch_pages_traces. intros r Hr. exact Hr.
  - intros cs. apply keeps_for_of; [apply _|].
    intros c _. apply syncCompany_traces.
Qed.

Lemma syncContacts_traces : keeps (traces contact_event) EtlService.syncContacts.
Proof.
  unfold EtlService.syncContacts.
  apply keeps_bind; [apply _| |].
  - intros w. unfold HubSpotApiService.getAllContacts.
    apply fetch_pages_traces. intros r Hr. exact Hr.
  - intros cs. apply keeps_for_of; [apply _|].
    intros c _. apply syncContact_traces.
Qed.

(** The health check sends its one request and touches nothing else that
    the phases look at. *)
Lemma healthCheck_run (w : World) :
  ∃ w', HubSpotApiService.healthCheck w = (Return (upstream_reachable w), w')
        ∧ db w' = db w
        ∧ trace w' = trace w ++ [health_request]
        ∧ syncStatus w' = syncStatus w
        ∧ heap w' = heap w
        ∧ warnings w' = warnings w
        ∧ upstream w' = tail (upstream w)
        ∧ uuid w' = uuid w ∧ uuid_next w' = uuid_next w
        ∧ clock w' = clock w ∧ clock_next w' = clock_next w.
Proof.
  unfold HubSpotApiService.healthCheck, try_catch, bind,
    HubSpotApiService.httpClient_get, upstream_reachable, ret.
  destruct (upstream w) as [|[d|m] rest] eqn:Hup; cbn;
    eexists; (split; [reflexivity|]); cbn; rewrite ?Hup;
    repeat split; reflexivity.
Qed.

(** C4. In every run that starts from a database whose references are
    sound, the trace grows by at most the health request, then by events
    of the company phase only, then by events of the contact phase only:
    no contact is written before the last company write, every write of
    the contact phase leaves the company table as it was, and after it
    every company that a stored contact refers to was in the company
    table before that write. The database the run leaves has sound
    references again. *)
Theorem company_phase_precedes_contact_phase (w : World) :
  references_ok (db w) →
  references_ok (db (snd (EtlService.syncCrmData w)))
  ∧ ∃ pre tc tk,
      trace (snd (EtlService.syncCrmData w)) = trace w ++ pre ++ tc ++ tk
      ∧ (pre = [] ∨ pre = [health_request])
      ∧ Forall company_event tc
      ∧ Forall contact_event tk.
Proof.
  intros Hok.
  destruct (EtlService.syncCrmData w) as [res wf] eqn:Hrun. cbn [snd].
  unfold EtlService.syncCrmData, bind at 1, gets in Hrun.
  destruct (isRunning (syncStatus w)).
  { injection Hrun as _ <-. split; [assumption|].
    exists [], [], []. rewrite !app_nil_r.
    split; [reflexivity|]. split; [left; reflexivity|]. split; constructor. }
  unfold bind at 1, getCurrentTimestamp in Hrun.
  unfold bind at 1, new_array in Hrun.
  unfold bind at 1, modify in Hrun.
  match type of Hrun with
  | try_catch ?body ?handler ?w1 = _ =>
      set (w1' := w1) in Hrun; set (B := body) in Hrun; set (H := handler) in Hrun
  end.
  assert (db w1' = db w ∧ trace w1' = trace w) as [Hdb1 Htr1]
    by (split; reflexivity).
  assert (∀ e wa, db (snd (H e wa)) = db wa ∧ trace (snd (H e wa)) = trace wa)
    as Hsilent.
  { intros e wa. subst H. unfold bind, EtlService.update_status,
      EtlService.errors_push, modify, getCurrentTimestamp, gets, array_push,
      bind, modify.
    cbn. destruct (instanceof_AppError e); split; reflexivity. }
  assert (∀ rb wb, B w1' = (rb, wb) →
          references_ok (db wb)
          ∧ ∃ pre tc tk,
              trace wb = trace w1' ++ pre ++ tc ++ tk
              ∧ (pre = [] ∨ pre = [health_request])
              ∧ Forall company_event tc ∧ Forall contact_event tk) as Hbody.
  { assert (references_ok (db w1')) as Hok1 by (rewrite Hdb1; assumption).
    clearbody w1'. clear Hrun. intros rb wb HB. subst B.
    unfold bind at 1 in HB.
    destruct (healthCheck_run w1') as (w2 & Hh & Hdb2 & Htr2 & _).
    rewrite Hh in HB.
    assert (references_ok (db w2)) as Hok2 by (rewrite Hdb2; assumption).
    destruct (upstream_reachable w1'); cbn [negb] in HB.
    - unfold bind at 1, ret in HB.
      unfold bind at 1 in HB.
      pose proof (syncCompanies_traces w2 Hok2) as (Hok3 & tc & Htr3 & Htc).
      destruct (EtlService.syncCompanies w2) as [[[]|e3] w3]; cbn [snd] in *.
      + unfold bind at 1 in HB.
        pose proof (syncContacts_traces w3 Hok3) as (Hok4 & tk & Htr4 & Htk).
        destruct (EtlService.syncContacts w3) as [[[]|e4] w4]; cbn [snd] in *.
        * unfold bind, getCurrentTimestamp, EtlService.update_status, modify,
            gets, ret in HB. cbn in HB. injection HB as _ <-. cbn.
          split; [assumption|]. exists [health_request], tc, tk.
          rewrite Htr4, Htr3, Htr2, <- !(assoc_L (++)). auto.
        * injection HB as _ <-.
          split; [assumption|]. exists [health_request], tc, tk.
          rewrite Htr4, Htr3, Htr2, <- !(assoc_L (++)). auto.
      + injection HB as _ <-.
        split; [assumption|]. exists [health_request], tc, [].
        rewrite Htr3, Htr2, app_nil_r, <- !(assoc_L (++)). auto.
    - unfold bind, throw in HB. injection HB as _ <-.
      split; [assumption|]. exists [health_request], [], [].
      rewrite Htr2. auto. }
  unfold try_catch in Hrun.
  destruct (B w1') as [[resp|e] wb] eqn:HB;
    specialize (Hbody _ _ eq_refl).
  - injection Hrun as _ <-. rewrite <- Htr1. exact Hbody.
  - destruct (Hsilent e wb) as [Hdbf Htrf]. rewrite Hrun in Hdbf, Htrf.
    cbn [snd] in Hdbf, Htrf. rewrite Hdbf, Htrf, <- Htr1. exact Hbody.
Qed.

Lemma company_phase_precedes_contact_phase_witness :
  references_ok (db (snd (EtlService.syncCrmData Sample.resync)))
  ∧ ∃ pre tc tk,
      trace (snd (EtlService.syncCrmData Sample.resync))
      = trace Sample.resync ++ pre ++ tc ++ tk
      ∧ (pre = [] ∨ pre = [health_request])
      ∧ Forall company_event tc
      ∧ Forall contact_event tk.
Proof.
  apply (company_phase_precedes_contact_phase Sample.resync).
  intros r c Hr Hc. cbn in Hr. apply list_elem_of_singleton in Hr. subst r.
  cbn in Hc. injection Hc as <-. cbn. left.
Defined.

(* ===================================================================== *)
(** * The company phase                                                    *)
(* ===================================================================== *)

Lemma transformHubspotCompany_truthy (c : HubSpotObject) :
  Js.truthy (CreateCompany.name (EtlService.transformHubspotCompany c)) = true
  ∧ Js.truthy (CreateCompany.domain (EtlService.transformHubspotCompany c)) = true.
Proof.
  unfold EtlService.transformHubspotCompany. cbn.
  split.
  - destruct (Js.truthy (cleanString (prop "name" (properties c)))) eqn:E;
      [exact E|reflexivity].
  - destruct (Js.truthy (cleanString (prop "domain" (properties c)))) eqn:E;
      [exact E|reflexivity].
Qed.

(** The loop body of the company phase without its dead branch. *)
Lemma syncCompany_upserts (c : HubSpotObject) (w : World) :
  EtlService.syncCompany c w
  = try_catch
      (CompanyService.upsertCompanyByHubspotId
         (EtlService.transformHubspotCompany c) ;;;
       EtlService.update_status EtlService.incr_companiesProcessed)
      (λ error,
         EtlService.errors_push
           ("Failed to sync company " +:+ hs_id c +:+ ": "
            +:+ formatError error)) w.
Proof.
  unfold EtlService.syncCompany. cbv zeta.
  destruct (transformHubspotCompany_truthy c) as [-> ->]. reflexivity.
Qed.

(** What the repositories leave alone. *)
Lemma upsert_company_frame (data : CreateCompany.t) :
  keeps (same (λ w, (heap w, syncStatus w, warnings w, upstream w,
                     contacts (db w), uuid w, clock w)))
    (CompanyRepository.upsertByHubspotId data).
Proof. keeps_descend same_leaf. Qed.

Lemma upsert_contact_frame (data : CreateContact.t) :
  keeps (same (λ w, (heap w, syncStatus w, warnings w, upstream w,
                     companies (db w), uuid w, clock w)))
    (ContactRepository.upsertByHubspotId data).
Proof. keeps_descend same_leaf. Qed.

(** Each company is either stored and counted, or reported. *)
Lemma syncCompany_outcome (c : HubSpotObject) (w : World) :
  status_allocated w →
  let w' := snd (EtlService.syncCompany c w) in
  fst (EtlService.syncCompany c w) = Return tt
  ∧ warnings w' = warnings w
  ∧ upstream w' = upstream w
  ∧ contacts (db w') = contacts (db w)
  ∧ contactsProcessed (syncStatus w') = contactsProcessed (syncStatus w)
  ∧ errors (syncStatus w') = errors (syncStatus w)
  ∧ length (heap w') = length (heap w)
  ∧ ((companiesProcessed (syncStatus w') = S (companiesProcessed (syncStatus w))
      ∧ status_errors w' = status_errors w)
     ∨ (companiesProcessed (syncStatus w') = companiesProcessed (syncStatus w)
        ∧ status_errors w' = status_errors w ++ [company_failure c])).
Proof.
  intros Halloc.
  destruct (EtlService.syncCompany c w) as [res w'] eqn:Hrun. cbn [fst snd].
  rewrite syncCompany_upserts in Hrun.
  unfold try_catch, bind at 1, CompanyService.upsertCompanyByHubspotId,
    try_catch in Hrun.
  pose proof (upsert_company_frame (EtlService.transformHubspotCompany c) w)
    as Hframe.
  destruct (CompanyRepository.upsertByHubspotId _ w) as [[r|e] w1];
    unfold same in Hframe; cbn [snd] in Hframe;
    injection Hframe as Hheap Hst Hwarn Hup Hcontacts _ _.
  - unfold EtlService.update_status, modify in Hrun.
    injection Hrun as <- <-.
    unfold status_errors, array_read. cbn. rewrite Hst, Hheap.
    repeat split; auto.
  - unfold throw, EtlService.errors_push, bind, gets in Hrun.
    assert (errors (syncStatus w1) < length (heap w1)) as Halloc1
      by (rewrite Hst, Hheap; exact Halloc).
    pose proof (array_push_read w1 (errors (syncStatus w1))
                  (company_failure c) Halloc1) as Hpush.
    unfold company_failure in *. rewrite Hrun in Hpush.
    unfold array_push, modify in Hrun. injection Hrun as <- <-.
    cbn [snd] in Hpush. unfold status_errors. cbn in *.
    rewrite length_alter. unfold array_read in *.
    rewrite Hst, Hheap in *.
    repeat split; auto.
Qed.

Ltac uuid_leaf :=
  intros ?w;
  unfold uuid_advances, modify, generateId, getCurrentTimestamp, array_push,
    Sql.insert_company, Sql.update_company, Sql.insert_contact,
    Sql.update_contact, Sql.commit, throw, modify;
  cbn; repeat case_match; cbn; split; (reflexivity || lia).

Lemma syncCompany_uuid (c : HubSpotObject) :
  keeps uuid_advances (EtlService.syncCompany c).
Proof. keeps_descend uuid_leaf. Qed.

Lemma syncContact_uuid (c : HubSpotObject) :
  keeps uuid_advances (EtlService.syncContact c).
Proof. keeps_descend uuid_leaf. Qed.

Lemma syncCompany_warnings (c : HubSpotObject) :
  keeps (same warnings) (EtlService.syncCompany c).
Proof.
  intros w. unfold same. rewrite syncCompany_upserts.
  revert w. change (keeps (same warnings)
    (try_catch
       (CompanyService.upsertCompanyByHubspotId
          (EtlService.transformHubspotCompany c) ;;;
        EtlService.update_status EtlService.incr_companiesProcessed)
       (λ error,
          EtlService.errors_push
            ("Failed to sync company " +:+ hs_id c +:+ ": "
             +:+ formatError error)))).
  keeps_descend same_leaf.
Qed.

Lemma fetch_pages_warnings (u properties : string) (fuel : nat) :
  ∀ all cursor,
    keeps (same warnings)
      (HubSpotApiService.fetch_pages fuel u properties all cursor).
Proof.
  induction fuel as [|fuel IH]; intros all cursor;
    cbn [HubSpotApiService.fetch_pages];
    keeps_descend ltac:(first [apply IH | same_leaf]).
Qed.


(* ===================================================================== *)
(** * The contact phase                                                    *)
(* ===================================================================== *)

(** A contact without an email is skipped with a warning, and nothing
    else happens. *)
Lemma syncContact_skips (c : HubSpotObject) (w : World) :
  email_of c = "" →
  EtlService.syncContact c w
  = (Return tt, set_warnings (warnings w ++ [contact_skipped c]) w).
Proof.
  intros He. unfold email_of in He.
  destruct (transformHubspotContact_run c w) as (cid & Htr & _).
  unfold EtlService.syncContact, try_catch, bind at 1. rewrite Htr.
  cbn [CreateContact.email]. rewrite He. cbn [Js.truthy String.eqb negb].
  unfold logger_warn, modify. reflexivity.
Qed.

Lemma iter_incr_contactsProcessed (k : nat) (s : EtlSyncStatus) :
  let s' := Nat.iter k EtlService.incr_contactsProcessed s in
  contactsProcessed s' = contactsProcessed s + k
  ∧ companiesProcessed s' = companiesProcessed s
  ∧ isRunning s' = isRunning s
  ∧ startedAt s' = startedAt s
  ∧ completedAt s' = completedAt s
  ∧ errors s' = errors s.
Proof.
  cbv zeta. induction k as [|k IH].
  - cbn. repeat split; lia.
  - destruct IH as (H1 & H2 & H3 & H4 & H5 & H6).
    rewrite Nat.iter_succ.
    cbn [EtlService.incr_contactsProcessed contactsProcessed
           companiesProcessed isRunning startedAt completedAt errors].
    repeat split; try assumption. rewrite H1. lia.
Qed.

(** Rewriting the rows of one identifier keeps a column free of
    duplicates when the new values collide with no other row. *)
Lemma rewrite_rows_NoDup {R} (key rid : R → string) (i : string) (f : R → R)
    (l : list R) :
  NoDup (rid <$> l) →
  NoDup (key <$> l) →
  (∀ x y, x ∈ l → y ∈ l → rid x ≠ i → rid y = i → key x ≠ key (f y)) →
  NoDup (key <$> Sql.rewrite_rows rid i f l).
Proof.
  induction l as [|a l IH]; intros Hrid Hkey Hnew; [constructor|].
  rewrite fmap_cons in Hrid, Hkey.
  apply NoDup_cons in Hrid as [Hrid_a Hrid].
  apply NoDup_cons in Hkey as [Hkey_a Hkey].
  unfold Sql.rewrite_rows. rewrite !fmap_cons. apply NoDup_cons. split.
  - intros Hin. apply list_elem_of_fmap in Hin as (x' & Heq & Hx').
    apply (rewrite_rows_elem rid) in Hx' as (x & Hx & ->).
    destruct (decide (rid a = i)) as [Ha|Ha];
      destruct (decide (rid x = i)) as [Hx_i|Hx_i].
    + apply Hrid_a. apply list_elem_of_fmap. exists x. split; [congruence|exact Hx].
    + apply (Hnew x a); [right; exact Hx|left|exact Hx_i|exact Ha|].
      symmetry. exact Heq.
    + apply (Hnew a x); [left|right; exact Hx|exact Ha|exact Hx_i|exact Heq].
    + apply Hkey_a. apply list_elem_of_fmap. exists x. split; [exact Heq|exact Hx].
  - apply IH; [exact Hrid|exact Hkey|].
    intros x y Hx Hy. apply Hnew; right; assumption.
Qed.

Lemma contacts_ok_rewritten (d : Database) (r : Contact.t) (u : UpdateContact.t) :
  contacts_ok d →
  r ∈ contacts d →
  Contact.hubspot_id (Sql.set_contact u r) = Contact.hubspot_id r →
  (∀ x, x ∈ contacts d →
        Contact.email x = Contact.email (Sql.set_contact u r) →
        Contact.id x = Contact.id r) →
  contacts_ok
    {| companies := companies d;
       contacts := Sql.rewrite_rows Contact.id (Contact.id r)
                     (Sql.set_contact u) (contacts d) |}.
Proof.
  intros [Hids Hhs Hem] Hr Hkeep Hfree. split; cbn [contacts].
  - rewrite (rewrite_rows_keys Contact.id); [assumption|reflexivity].
  - rewrite (rewrite_rows_keys Contact.hubspot_id); [assumption|].
    intros x Hx Hid.
    assert (x = r) as -> by (eapply (key_determines_row Contact.id); eauto).
    exact Hkeep.
  - apply rewrite_rows_NoDup; [assumption|assumption|].
    intros x y Hx Hy Hx_i Hy_i Heq.
    assert (y = r) as -> by (eapply (key_determines_row Contact.id); eauto).
    apply Hx_i. apply Hfree; assumption.
Qed.

Lemma contacts_ok_appended (d : Database) (row : Contact.t) :
  contacts_ok d →
  Contact.id row ∉ Contact.id <$> contacts d →
  Contact.hubspot_id row ∉ Contact.hubspot_id <$> contacts d →
  Contact.email row ∉ Contact.email <$> contacts d →
  contacts_ok {| companies := companies d; contacts := contacts d ++ [row] |}.
Proof.
  intros [Hids Hhs Hem] Hid Hh He.
  split; cbn [contacts]; rewrite fmap_app; cbn [fmap list_fmap];
    apply NoDup_app; (split; [assumption|]);
    (split; [|apply NoDup_singleton]);
    intros x Hx Hx'; apply list_elem_of_singleton in Hx'; subst x;
    contradiction.
Qed.

(** The loop of the contact phase over any list of fetched contacts. The
    ones without an email are skipped with one warning each. The ones
    with an email are stored and counted, whether their external id is
    new or known, as long as their emails are pairwise different and
    none of these emails is held by a stored contact of another external
    id. The loop runs to the end of the list. *)
Lemma contact_loop (cs : list HubSpotObject) :
  ∀ w,
    let good := filter (λ c, email_of c ≠ "") cs in
    contacts_ok (db w) →
    NoDup (email_of <$> good) →
    (∀ x c, x ∈ contacts (db w) → c ∈ good →
            Contact.email x = email_of c → Contact.hubspot_id x = hs_id c) →
    (∀ n, uuid_next w ≤ n → uuid w n ∉ Contact.id <$> contacts (db w)) →
    (∀ n m, uuid_next w ≤ n → uuid_next w ≤ m → uuid w n = uuid w m → n = m) →
    ∃ w',
      for_of cs EtlService.syncContact w = (Return tt, w')
      ∧ syncStatus w'
        = Nat.iter (length good) EtlService.incr_contactsProcessed (syncStatus w)
      ∧ heap w' = heap w
      ∧ clock w' = clock w
      ∧ warnings w'
        = warnings w ++ (contact_skipped <$> filter (λ c, email_of c = "") cs)
      ∧ contacts_ok (db w')
      ∧ (∀ h, h ∈ Contact.hubspot_id <$> contacts (db w) →
              h ∈ Contact.hubspot_id <$> contacts (db w'))
      ∧ (∀ c, c ∈ good → hs_id c ∈ Contact.hubspot_id <$> contacts (db w')).
Proof.
  induction cs as [|c cs IH]; intros w good Hok Hems Hcompat Hfresh Hinj.
  - exists w. cbn. rewrite !app_nil_r.
    split; [reflexivity|]. split; [reflexivity|]. split; [reflexivity|].
    split; [reflexivity|]. split; [reflexivity|]. split; [assumption|].
    split; [auto|]. intros c Hc. inversion Hc.
  - subst good. cbn [for_of]. unfold bind.
    destruct (decide (email_of c = "")) as [He|He].
    + rewrite filter_cons_False in * by (intros H; apply H; exact He).
      rewrite (filter_cons_True (λ c, email_of c = "")) by exact He.
      rewrite syncContact_skips by exact He.
      destruct (IH (set_warnings (warnings w ++ [contact_skipped c]) w))
        as (w' & Hrun & Hst & Hheap & Hclock & Hwarn & Hok' & Hkeep & Hrows);
        try assumption.
      exists w'. split; [exact Hrun|].
      cbn in Hst, Hheap, Hclock, Hwarn, Hkeep.
      rewrite Hwarn, <- (assoc_L (++)). cbn.
      split; [exact Hst|]. split; [exact Hheap|]. split; [exact Hclock|].
      split; [reflexivity|]. split; [exact Hok'|].
      split; [exact Hkeep|exact Hrows].
    + rewrite filter_cons_True in * by exact He.
      rewrite (filter_cons_False (λ c, email_of c = "")) by exact He.
      rewrite fmap_cons in Hems.
      apply NoDup_cons in Hems as [Hem_c Hems].
      set (good' := filter (λ c, email_of c ≠ "") cs) in *.
      assert (∀ c', c' ∈ good' → email_of c' ≠ email_of c) as Hother.
      { intros c' Hc' Heq. apply Hem_c. rewrite <- Heq.
        apply list_elem_of_fmap. eauto. }
      pose proof Hok as [Hids Hhs Hemails].
      destruct (decide (hs_id c ∈ Contact.hubspot_id <$> contacts (db w)))
        as [Hin|Hnot].
      * (* a stored external id: the row is rewritten *)
        apply list_elem_of_fmap in Hin as (r & Hext & Hr). symmetry in Hext.
        assert (∀ x, x ∈ contacts (db w) → Contact.email x = email_of c →
                     Contact.id x = Contact.id r) as Hfree.
        { intros x Hx Hxe. f_equal.
          eapply (key_determines_row Contact.hubspot_id); eauto.
          rewrite Hext. apply (Hcompat x c); [exact Hx|left|exact Hxe]. }
        destruct (syncContact_existing w c r He Hok Hr Hext Hfree)
          as (u & Hu_hs & Hu_em & Hrun).
        change (Contact.email (Sql.set_contact u r) = email_of c) in Hu_em.
        rewrite Hrun.
        match goal with
        | |- context [for_of cs EtlService.syncContact ?w1] =>
            destruct (IH w1)
              as (w' & Hrun' & Hst & Hheap & Hclock & Hwarn & Hok' & Hkeep
                  & Hrows)
        end.
        -- cbn. apply contacts_ok_rewritten; try assumption.
           ++ congruence.
           ++ intros x Hx Hxe. apply Hfree; [exact Hx|]. congruence.
        -- exact Hems.
        -- cbn. intros x' c' Hx' Hc' Hxe.
           apply (rewrite_rows_elem Contact.id) in Hx' as (x & Hx & ->).
           destruct (decide (Contact.id x = Contact.id r)) as [Hid|Hid].
           ++ assert (x = r) as ->
                by (eapply (key_determines_row Contact.id); eauto).
              exfalso. apply (Hother c' Hc'). congruence.
           ++ apply (Hcompat x c'); [exact Hx|right; exact Hc'|exact Hxe].
        -- cbn. intros n Hn.
           rewrite (rewrite_rows_keys Contact.id) by reflexivity.
           apply Hfresh. exact Hn.
        -- cbn. exact Hinj.
        -- exists w'. split; [exact Hrun'|].
           cbn in Hst, Hheap, Hclock, Hwarn, Hkeep.
           rewrite (rewrite_rows_keys Contact.hubspot_id) in Hkeep.
           2:{ intros x Hx Hid.
               assert (x = r) as ->
                 by (eapply (key_determines_row Contact.id); eauto).
               congruence. }
           rewrite Hst, Hheap, Hclock, Hwarn.
           split; [rewrite <- Nat.iter_succ_r; reflexivity|].
           split; [reflexivity|]. split; [reflexivity|].
           split; [reflexivity|]. split; [exact Hok'|].
           split; [exact Hkeep|].
           intros c' Hc'. apply elem_of_cons in Hc' as [->|Hc'].
           ++ apply Hkeep. rewrite <- Hext. apply list_elem_of_fmap. eauto.
           ++ apply Hrows. exact Hc'.
      * (* a new external id: a row is appended *)
        assert (email_of c ∉ Contact.email <$> contacts (db w)) as Hfree.
        { intros Hin. apply list_elem_of_fmap in Hin as (x & Hxe & Hx).
          apply Hnot. apply list_elem_of_fmap. exists x. split; [|exact Hx].
          symmetry. apply (Hcompat x c); [exact Hx|left|]. congruence. }
        destruct (syncContact_new w c He Hnot (Hfresh _ (le_n _)) Hfree)
          as (row & Hrid & Hrhs & Hrem & _ & Hrun).
        change (Contact.email row = email_of c) in Hrem.
        rewrite Hrun.
        match goal with
        | |- context [for_of cs EtlService.syncContact ?w1] =>
            destruct (IH w1)
              as (w' & Hrun' & Hst & Hheap & Hclock & Hwarn & Hok' & Hkeep
                  & Hrows)
        end.
        -- cbn. apply contacts_ok_appended; try assumption.
           ++ rewrite Hrid. apply Hfresh. lia.
           ++ rewrite Hrhs. exact Hnot.
           ++ rewrite Hrem. exact Hfree.
        -- exact Hems.
        -- cbn. intros x c' Hx Hc' Hxe.
           apply elem_of_app in Hx as [Hx|Hx].
           ++ apply (Hcompat x c'); [exact Hx|right; exact Hc'|exact Hxe].
           ++ apply list_elem_of_singleton in Hx. subst x.
              exfalso. apply (Hother c' Hc'). congruence.
        -- cbn. intros n Hn Hin. rewrite fmap_app in Hin.
           apply elem_of_app in Hin as [Hin|Hin].
           ++ apply (Hfresh n); [lia|exact Hin].
           ++ cbn in Hin. apply list_elem_of_singleton in Hin.
              rewrite Hrid in Hin. apply Hinj in Hin; lia.
        -- cbn. intros n m Hn Hm. apply Hinj; lia.
        -- exists w'. split; [exact Hrun'|].
           cbn in Hst, Hheap, Hclock, Hwarn, Hkeep.
           rewrite Hst, Hheap, Hclock, Hwarn.
           split; [rewrite <- Nat.iter_succ_r; reflexivity|].
           split; [reflexivity|]. split; [reflexivity|].
           split; [reflexivity|]. split; [exact Hok'|].
           split.
           ++ intros h Hh. apply Hkeep. rewrite fmap_app.
              apply elem_of_app. left. exact Hh.
           ++ intros c' Hc'. apply elem_of_cons in Hc' as [->|Hc'].
              ** apply Hkeep. rewrite fmap_app. apply elem_of_app. right.
                 cbn. rewrite Hrhs. left.
              ** apply Hrows. exact Hc'.
Qed.

(** The loop of the company phase runs to the end of the list; it leaves
    the contact side of the world alone, and what it adds to the error
    list are failures of companies of the list. *)
Lemma company_loop (cs : list HubSpotObject) :
  ∀ w,
    status_allocated w →
    ∃ w',
      for_of cs EtlService.syncCompany w = (Return tt, w')
      ∧ warnings w' = warnings w
      ∧ upstream w' = upstream w
      ∧ contacts (db w') = contacts (db w)
      ∧ contactsProcessed (syncStatus w') = contactsProcessed (syncStatus w)
      ∧ errors (syncStatus w') = errors (syncStatus w)
      ∧ length (heap w') = length (heap w)
      ∧ uuid_advances w w'
      ∧ ∃ msgs,
          status_errors w' = status_errors w ++ msgs
          ∧ Forall (λ m, ∃ c, c ∈ cs ∧ m = company_failure c) msgs.
Proof.
  induction cs as [|c cs IH]; intros w Halloc.
  - exists w. split; [reflexivity|]. repeat split; try reflexivity.
    exists []. rewrite app_nil_r. split; [reflexivity|constructor].
  - cbn [for_of]. unfold bind.
    pose proof (syncCompany_outcome c w Halloc) as Hout.
    pose proof (syncCompany_uuid c w) as Huuid.
    destruct (EtlService.syncCompany c w) as [r1 w1]. cbn [fst snd] in *.
    destruct Hout as (-> & Hwarn & Hup & Hcon & Hcount & Hloc & Hlen & Herr).
    destruct (IH w1) as (w' & Hrun & Hwarn' & Hup' & Hcon' & Hcount' & Hloc'
                         & Hlen' & Huuid' & msgs & Hmsgs & HP).
    { unfold status_allocated. rewrite Hloc, Hlen. exact Halloc. }
    exists w'. split; [exact Hrun|].
    split; [congruence|]. split; [congruence|]. split; [congruence|].
    split; [congruence|]. split; [congruence|]. split; [congruence|].
    split; [etrans; eassumption|].
    assert (Forall (λ m, ∃ c0, c0 ∈ c :: cs ∧ m = company_failure c0) msgs)
      as HP'.
    { eapply Forall_impl; [exact HP|]. intros m (c0 & Hc0 & ->).
      exists c0. split; [right; assumption|reflexivity]. }
    destruct Herr as [[_ Hsame]|[_ Hpush]].
    + exists msgs. split; [congruence|exact HP'].
    + exists (company_failure c :: msgs).
      split.
      * rewrite Hmsgs, Hpush, <- (assoc_L (++)). reflexivity.
      * constructor; [|exact HP']. exists c. split; [left|reflexivity].
Qed.

Section Traversal.

Variables (w : World) (pages : list ResponseData) (last : ResponseData)
  (rest : list HttpResponse).

Hypothesis Hupstream : upstream w = (HttpOk <$> pages) ++ HttpOk last :: rest.
Hypothesis Hpages : Forall (λ p, is_Some (paging p ≫= next)) pages.
Hypothesis Hlast : paging last ≫= next = None.

Let fetched := concat (results <$> pages) ++ results last.

Lemma getAllCompanies_run :
  HubSpotApiService.getAllCompanies w
  = (Return fetched,
     set_upstream rest
       (set_trace
          (trace w ++ page_requests HubSpotApiService.companies_path
                        company_properties pages) w)).
Proof.
  unfold HubSpotApiService.getAllCompanies.
  apply (fetch_pages_run _ _ pages _ [] None w last rest); try assumption.
  rewrite Hupstream, length_app, length_fmap. lia.
Qed.

Lemma getAllContacts_run :
  HubSpotApiService.getAllContacts w
  = (Return fetched,
     set_upstream rest
       (set_trace
          (trace w ++ page_requests HubSpotApiService.contacts_path
                        contact_properties pages) w)).
Proof.
  unfold HubSpotApiService.getAllContacts.
  apply (fetch_pages_run _ _ pages _ [] None w last rest); try assumption.
  rewrite Hupstream, length_app, length_fmap. lia.
Qed.

(** The company phase over a traversal that succeeds. *)
Lemma syncCompanies_run :
  status_allocated w →
  ∃ w',
    EtlService.syncCompanies w = (Return tt, w')
    ∧ upstream w' = rest
    ∧ warnings w' = warnings w
    ∧ contacts (db w') = contacts (db w)
    ∧ contactsProcessed (syncStatus w') = contactsProcessed (syncStatus w)
    ∧ errors (syncStatus w') = errors (syncStatus w)
    ∧ uuid_advances w w'
    ∧ ∃ msgs,
        status_errors w' = status_errors w ++ msgs
        ∧ Forall (λ m, ∃ c, m = company_failure c) msgs.
Proof.
  intros Halloc. unfold EtlService.syncCompanies, bind.
  rewrite getAllCompanies_run.
  match goal with
  | |- context [for_of fetched EtlService.syncCompany ?w1] =>
      destruct (company_loop fetched w1)
        as (w' & Hrun & Hwarn & Hup & Hcon & Hcount & Hloc & Hlen & Huuid
            & msgs & Hmsgs & HP)
  end.
  { exact Halloc. }
  exists w'. split; [exact Hrun|].
  cbn in Hwarn, Hup, Hcon, Hcount, Hloc, Hlen, Huuid, Hmsgs.
  repeat split; try assumption; try apply Huuid.
  exists msgs. split; [exact Hmsgs|].
  eapply Forall_impl; [exact HP|]. intros m (c & _ & ->). eauto.
Qed.

(** The contact phase over a traversal that succeeds, when the emails of
    the fetched contacts are pairwise different and none of them is held
    by a stored contact of another external id. *)
Lemma syncContacts_run :
  let good := filter (λ c, email_of c ≠ "") fetched in
  contacts_ok (db w) →
  NoDup (email_of <$> good) →
  (∀ x c, x ∈ contacts (db w) → c ∈ good →
          Contact.email x = email_of c → Contact.hubspot_id x = hs_id c) →
  (∀ n, uuid_next w ≤ n → uuid w n ∉ Contact.id <$> contacts (db w)) →
  (∀ n m, uuid_next w ≤ n → uuid_next w ≤ m → uuid w n = uuid w m → n = m) →
  ∃ w',
    EtlService.syncContacts w = (Return tt, w')
    ∧ syncStatus w'
      = Nat.iter (length good) EtlService.incr_contactsProcessed (syncStatus w)
    ∧ heap w' = heap w
    ∧ clock w' = clock w
    ∧ warnings w'
      = warnings w ++ (contact_skipped <$> filter (λ c, email_of c = "") fetched)
    ∧ contacts_ok (db w')
    ∧ (∀ h, h ∈ Contact.hubspot_id <$> contacts (db w) →
            h ∈ Contact.hubspot_id <$> contacts (db w'))
    ∧ (∀ c, c ∈ good → hs_id c ∈ Contact.hubspot_id <$> contacts (db w')).
Proof.
  intros good Hok Hems Hcompat Hfresh Hinj.
  unfold EtlService.syncContacts, bind.
  rewrite getAllContacts_run.
  match goal with
  | |- context [for_of fetched EtlService.syncContact ?w1] =>
      destruct (contact_loop fetched w1)
        as (w' & Hrun & Hst & Hheap & Hclock & Hwarn & Hok' & Hkeep & Hrows);
        try assumption
  end.
  exists w'. split; [exact Hrun|].
  split; [exact Hst|]. split; [exact Hheap|]. split; [exact Hclock|].
  split; [exact Hwarn|]. split; [exact Hok'|]. split; [exact Hkeep|exact Hrows].
Qed.

End Traversal.

(** A whole run over an upstream that answers the health check and both
    traversals. *)
Lemma sync_run_completes (w : World) (h : ResponseData)
    (cpages : list ResponseData) (clast : ResponseData)
    (kpages : list ResponseData) (klast : ResponseData)
    (rest : list HttpResponse) :
  isRunning (syncStatus w) = false →
  upstream w
  = HttpOk h :: (HttpOk <$> cpages) ++ HttpOk clast
      :: (HttpOk <$> kpages) ++ HttpOk klast :: rest →
  Forall (λ p, is_Some (paging p ≫= next)) cpages →
  paging clast ≫= next = None →
  Forall (λ p, is_Some (paging p ≫= next)) kpages →
  paging klast ≫= next = None →
  let fetched := concat (results <$> kpages) ++ results klast in
  let good := filter (λ c, email_of c ≠ "") fetched in
  contacts_ok (db w) →
  NoDup (email_of <$> good) →
  (∀ x c, x ∈ contacts (db w) → c ∈ good →
          Contact.email x = email_of c → Contact.hubspot_id x = hs_id c) →
  (∀ n, uuid_next w ≤ n → uuid w n ∉ Contact.id <$> contacts (db w)) →
  (∀ n m, uuid_next w ≤ n → uuid_next w ≤ m → uuid w n = uuid w m → n = m) →
  ∃ resp w',
    EtlService.syncCrmData w = (Return resp, w')
    ∧ contactsSynced resp = length good
    ∧ contactsProcessed (syncStatus w') = length good
    ∧ isRunning (syncStatus w') = false
    ∧ is_Some (completedAt (syncStatus w'))
    ∧ warnings w'
      = warnings w ++ (contact_skipped <$> filter (λ c, email_of c = "") fetched)
    ∧ Forall (λ m, ∃ c, m = company_failure c) (status_errors w')
    ∧ (∀ x, x ∈ Contact.hubspot_id <$> contacts (db w) →
            x ∈ Contact.hubspot_id <$> contacts (db w'))
    ∧ (∀ c, c ∈ good → hs_id c ∈ Contact.hubspot_id <$> contacts (db w')).
Proof.
  intros Hidle Hup Hcp Hcl Hkp Hkl fetched good Hok Hems Hcompat Hfresh Hinj.
  unfold EtlService.syncCrmData, bind at 1, gets. rewrite Hidle.
  unfold bind at 1, getCurrentTimestamp.
  unfold bind at 1, new_array.
  unfold bind at 1, modify.
  match goal with
  | |- context [try_catch _ _ ?w1] => set (w1' := w1)
  end.
  unfold try_catch, bind at 1.
  destruct (healthCheck_run w1')
    as (w2 & Hh & Hdb2 & _ & Hst2 & Hheap2 & Hwarn2 & Hup2 & Hu2 & Hun2 & Hc2 & _).
  rewrite Hh.
  assert (upstream_reachable w1' = true) as ->
    by (unfold upstream_reachable; subst w1'; cbn; rewrite Hup; reflexivity).
  cbn [negb]. unfold bind at 1, ret. unfold bind at 1.
  assert (upstream w2 = (HttpOk <$> cpages) ++ HttpOk clast
                          :: (HttpOk <$> kpages) ++ HttpOk klast :: rest) as Hup2'
    by (rewrite Hup2; subst w1'; cbn; rewrite Hup; reflexivity).
  destruct (syncCompanies_run w2 cpages clast _ Hup2' Hcp Hcl)
    as (w3 & -> & Hup3 & Hwarn3 & Hcon3 & Hcount3 & Hloc3 & [Hu3 Hun3]
        & msgs & Hmsgs & HP).
  { unfold status_allocated. rewrite Hst2, Hheap2. subst w1'. cbn.
    rewrite length_app. cbn. lia. }
  assert (contacts (db w3) = contacts (db w)) as Hcon
    by (rewrite Hcon3, Hdb2; reflexivity).
  unfold bind at 1.
  destruct (syncContacts_run w3 kpages klast rest Hup3 Hkp Hkl)
    as (w4 & -> & Hst4 & Hheap4 & Hclock4 & Hwarn4 & Hok4 & Hkeep4 & Hrows4).
  - destruct Hok as [H1 H2 H3]. split; rewrite Hcon; assumption.
  - exact Hems.
  - rewrite Hcon. exact Hcompat.
  - intros n Hn. rewrite Hcon, Hu3, Hu2. subst w1'. cbn.
    apply Hfresh. rewrite Hun2 in Hun3. cbn in Hun3. lia.
  - intros n m Hn Hm. rewrite Hu3, Hu2. subst w1'. cbn.
    rewrite Hun2 in Hun3. cbn in Hun3. apply Hinj; lia.
  - unfold bind, getCurrentTimestamp, EtlService.update_status, modify, gets,
      ret. cbn.
    eexists _, _. split; [reflexivity|]. cbn.
    destruct (iter_incr_contactsProcessed (length good) (syncStatus w3))
      as (Hn & _ & _ & _ & _ & Hloc4).
    fold fetched good in Hst4, Hwarn4, Hrows4.
    rewrite Hst4, Hn, Hcount3, Hst2. subst w1'. cbn.
    split; [reflexivity|]. split; [reflexivity|]. split; [reflexivity|].
    split; [eexists; reflexivity|].
    split; [rewrite Hwarn4, Hwarn3, Hwarn2; reflexivity|].
    split.
    + unfold status_errors, array_read in *. cbn.
      rewrite Hloc4, Hheap4. rewrite Hmsgs.
      rewrite Hst2, Hheap2. cbn. rewrite lookup_at_end. cbn. exact HP.
    + rewrite Hcon in Hkeep4. split; [exact Hkeep4|exact Hrows4].
Qed.

Lemma filter_all {A} (P : A → Prop) `{∀ x, Decision (P x)} (l : list A) :
  Forall P l → filter P l = l.
Proof.
  induction 1 as [|x l Hx _ IH]; [reflexivity|].
  rewrite filter_cons_True by assumption. f_equal. exact IH.
Qed.

Lemma filter_none {A} (P : A → Prop) `{∀ x, Decision (P x)} (l : list A) :
  Forall (λ x, ¬ P x) l → filter P l = [].
Proof.
  induction 1 as [|x l Hx _ IH]; [reflexivity|].
  rewrite filter_cons_False by assumption. exact IH.
Qed.

Lemma one_malformed (pre post : list HubSpotObject) (bad : HubSpotObject) :
  email_of bad = "" →
  Forall (λ c, email_of c ≠ "") (pre ++ post) →
  filter (λ c, email_of c ≠ "") (pre ++ bad :: post) = pre ++ post
  ∧ filter (λ c, email_of c = "") (pre ++ bad :: post) = [bad].
Proof.
  intros Hbad Hgood. apply Forall_app in Hgood as [Hpre Hpost].
  rewrite !filter_app.
  rewrite (filter_cons_False (λ c, email_of c ≠ "")) by (intros H; apply H; exact Hbad).
  rewrite (filter_cons_True (λ c, email_of c = "")) by exact Hbad.
  rewrite !(filter_all (λ c, email_of c ≠ "")) by assumption.
  rewrite !(filter_none (λ c, email_of c = "")) by assumption.
  split; reflexivity.
Qed.

(** HubSpot's contact "601" carries the email of the stored contact
    "501": its insert is rejected, it is reported and not counted, and of
    the three fetched contacts, one of them malformed, one is processed. *)
Lemma rejected_upsert_is_not_counted :
  email_of <$> results Sample.contacts_page
  = ["ann@example.com"; ""; "bob@example.com"]
  ∧ let r := EtlService.syncCrmData Sample.resync in
    fst r = Return {| message := "Sync completed successfully";
                      contactsSynced := 1; companiesSynced := 1;
                      syncedAt := Some (Sample.nth_instant 3) |}
    ∧ contactsProcessed (syncStatus (snd r)) = 1
    ∧ contactsProcessed (syncStatus (snd r))
      ≠ length (results Sample.contacts_page) - 1
    ∧ warnings (snd r) = ["Skipping contact 602 - missing email"]
    ∧ status_errors (snd r)
      = ["Failed to sync contact 601: Failed to upsert contact"]
    ∧ Contact.hubspot_id <$> contacts (db (snd r)) = ["501"; "603"].
Proof.
  vm_compute. repeat split; try reflexivity. discriminate.
Qed.

(** C5. A run whose health check and both traversals succeed, over
    fetched contacts of which exactly one has no email while the emails
    of the others are pairwise different and none of them is held by a
    stored contact of another external id (the contact table being
    consistent and the identifiers drawn for new rows unused), completes:
    [syncCrmData] returns, the running flag is down and the completion
    time set; the contact counter is the number of fetched contacts
    minus one; the malformed contact adds one warning and nothing else
    to the accounting - every entry of the error list is the failure of
    a company; and every other fetched contact, after the malformed one
    as before it, has its row in the contact table, next to the rows
    that were there. *)
Theorem malformed_contact_is_skipped
    (w : World) (h : ResponseData)
    (cpages : list ResponseData) (clast : ResponseData)
    (kpages : list ResponseData) (klast : ResponseData)
    (rest : list HttpResponse)
    (pre post : list HubSpotObject) (bad : HubSpotObject) :
  isRunning (syncStatus w) = false →
  upstream w
  = HttpOk h :: (HttpOk <$> cpages) ++ HttpOk clast
      :: (HttpOk <$> kpages) ++ HttpOk klast :: rest →
  Forall (λ p, is_Some (paging p ≫= next)) cpages →
  paging clast ≫= next = None →
  Forall (λ p, is_Some (paging p ≫= next)) kpages →
  paging klast ≫= next = None →
  concat (results <$> kpages) ++ results klast = pre ++ bad :: post →
  email_of bad = "" →
  Forall (λ c, email_of c ≠ "") (pre ++ post) →
  contacts_ok (db w) →
  NoDup (email_of <$> pre ++ post) →
  (∀ x c, x ∈ contacts (db w) → c ∈ pre ++ post →
          Contact.email x = email_of c → Contact.hubspot_id x = hs_id c) →
  (∀ n, uuid_next w ≤ n → uuid w n ∉ Contact.id <$> contacts (db w)) →
  (∀ n m, uuid_next w ≤ n → uuid_next w ≤ m → uuid w n = uuid w m → n = m) →
  ∃ resp w',
    EtlService.syncCrmData w = (Return resp, w')
    ∧ contactsSynced resp = length (pre ++ bad :: post) - 1
    ∧ contactsProcessed (syncStatus w') = length (pre ++ bad :: post) - 1
    ∧ isRunning (syncStatus w') = false
    ∧ is_Some (completedAt (syncStatus w'))
    ∧ warnings w' = warnings w ++ [contact_skipped bad]
    ∧ Forall (λ m, ∃ c, m = company_failure c) (status_errors w')
    ∧ (∀ x, x ∈ Contact.hubspot_id <$> contacts (db w) →
            x ∈ Contact.hubspot_id <$> contacts (db w'))
    ∧ (∀ c, c ∈ pre ++ post →
            hs_id c ∈ Contact.hubspot_id <$> contacts (db w')).
Proof.
  intros Hidle Hup Hcp Hcl Hkp Hkl Hfetched Hbad Hgood Hok Hems Hcompat
    Hfresh Hinj.
  destruct (one_malformed pre post bad Hbad Hgood) as [Hfg Hfb].
  destruct (sync_run_completes w h cpages clast kpages klast rest
              Hidle Hup Hcp Hcl Hkp Hkl)
    as (resp & w' & Hrun & Hresp & Hcount & Hflag & Hdone & Hwarn & Herr
        & Hkeep & Hrows);
    try (rewrite Hfetched, Hfg; assumption); try assumption.
  rewrite Hfetched, ?Hfg, ?Hfb in *.
  assert (length (pre ++ bad :: post) - 1 = length (pre ++ post)) as ->.
  { rewrite !length_app. cbn. lia. }
  exists resp, w'.
  split; [exact Hrun|]. split; [exact Hresp|]. split; [exact Hcount|].
  split; [exact Hflag|]. split; [exact Hdone|]. split; [exact Hwarn|].
  split; [exact Herr|]. split; [exact Hkeep|exact Hrows].
Qed.

Lemma nth_uuid_length (k : nat) : String.length (Sample.nth_uuid k) = 3 + k.
Proof.
  unfold Sample.nth_uuid.
  change (S (S (S (String.length (string_of_list_ascii (repeat "x"%char k)))))
          = 3 + k).
  induction k as [|k IH]; [reflexivity|].
  cbn [repeat string_of_list_ascii String.length]. rewrite IH. reflexivity.
Qed.

Lemma nth_uuid_inj (n m : nat) : Sample.nth_uuid n = Sample.nth_uuid m → n = m.
Proof.
  intros H. apply (f_equal String.length) in H.
  rewrite !nth_uuid_length in H. lia.
Qed.

Lemma malformed_contact_is_skipped_witness :
  ∃ resp w',
    EtlService.syncCrmData Sample.first_sync = (Return resp, w')
    ∧ contactsSynced resp = 2
    ∧ warnings w' = ["Skipping contact 602 - missing email"]
    ∧ "601" ∈ Contact.hubspot_id <$> contacts (db w')
    ∧ "603" ∈ Contact.hubspot_id <$> contacts (db w').
Proof.
  destruct (malformed_contact_is_skipped Sample.first_sync
              {| results := []; paging := None |}
              [] Sample.companies_page [] Sample.contacts_page []
              [Sample.ann_again]
              [Sample.obj "603" [("email", "bob@example.com")]]
              (Sample.obj "602" [("firstname", "Nemo")]))
    as (resp & w' & Hrun & Hresp & _ & _ & _ & Hwarn & _ & _ & Hrows).
  - reflexivity.
  - reflexivity.
  - constructor.
  - reflexivity.
  - constructor.
  - reflexivity.
  - reflexivity.
  - reflexivity.
  - repeat constructor; vm_compute; discriminate.
  - split; cbn; constructor.
  - vm_compute. apply NoDup_cons. split; [|apply NoDup_singleton].
    intros H. apply list_elem_of_singleton in H. discriminate.
  - intros x c Hx. cbn in Hx. inversion Hx.
  - intros n _ Hin. cbn in Hin. inversion Hin.
  - intros n m _ _. apply nth_uuid_inj.
  - exists resp, w'.
    split; [exact Hrun|]. split; [exact Hresp|]. split; [exact Hwarn|].
    split.
    + apply (Hrows Sample.ann_again). cbn. left.
    + apply (Hrows (Sample.obj "603" [("email", "bob@example.com")])).
      cbn. right. left.
Defined.

(* ===================================================================== *)
(** * Exceptions, structurally                                             *)
(* ===================================================================== *)

Section Throws.

Context {A : Type}.

Lemma throws_ret (P : Exn → Prop) (a : A) : throws P (ret a).
Proof. intros w e H. discriminate. Qed.

Lemma throws_gets (P : Exn → Prop) (f : World → A) : throws P (gets f).
Proof. intros w e H. discriminate. Qed.

Lemma throws_throw (P : Exn → Prop) (e : Exn) : P e → throws P (@throw A e).
Proof. intros HP w e' H. cbn in H. congruence. Qed.

Lemma throws_bind {B} (P : Exn → Prop) (m : M A) (k : A → M B) :
  throws P m → (∀ a, throws P (k a)) → throws P (bind m k).
Proof.
  intros Hm Hk w e. unfold bind. specialize (Hm w).
  destruct (m w) as [[a|e1] w1]; cbn in *.
  - apply Hk.
  - intros [= <-]. auto.
Qed.

Lemma throws_try_catch (P Q : Exn → Prop) (m : M A) (h : Exn → M A) :
  throws Q m → (∀ e, Q e → throws P (h e)) → throws P (try_catch m h).
Proof.
  intros Hm Hh w e. unfold try_catch. specialize (Hm w).
  destruct (m w) as [[a|e1] w1]; cbn in *.
  - discriminate.
  - apply Hh. auto.
Qed.

Lemma throws_weaken (P Q : Exn → Prop) (m : M A) :
  (∀ e, P e → Q e) → throws P m → throws Q m.
Proof. intros HPQ Hm w e H. eauto. Qed.

Lemma throws_anything (m : M A) : throws (λ _, True) m.
Proof. intros w e _. exact I. Qed.

End Throws.

Lemma throws_modify (P : Exn → Prop) (f : World → World) :
  throws P (modify f).
Proof. intros w e H. discriminate. Qed.

Lemma throws_sleep (P : Exn → Prop) (ms : nat) : throws P (sleep ms).
Proof. intros w e H. discriminate. Qed.

Lemma throws_generateId (P : Exn → Prop) : throws P generateId.
Proof. intros w e H. discriminate. Qed.

Lemma throws_getCurrentTimestamp (P : Exn → Prop) :
  throws P getCurrentTimestamp.
Proof. intros w e H. discriminate. Qed.

Lemma throws_new_array (P : Exn → Prop) (xs : list string) :
  throws P (new_array xs).
Proof. intros w e H. discriminate. Qed.

Lemma throws_for_of {A} (P : Exn → Prop) (xs : list A) (body : A → M unit) :
  (∀ x, throws P (body x)) → throws P (for_of xs body).
Proof.
  intros Hbody. induction xs as [|x xs IH]; cbn [for_of].
  - apply throws_ret.
  - apply throws_bind; [apply Hbody|intros _; exact IH].
Qed.

(** A computation that never throws returns. *)
Lemma never_throws_returns {A} (m : M A) (w : World) :
  throws (λ _, False) m → ∃ a, fst (m w) = Return a.
Proof.
  intros H. specialize (H w). destruct (m w) as [[a|e] w1]; cbn in *.
  - eauto.
  - destruct (H e eq_refl).
Qed.

(** Descend through the structure of a computation; [leaf] closes what is
    left at the primitives. *)
Ltac throws_descend leaf :=
  repeat first
    [ apply throws_ret
    | apply throws_gets
    | apply throws_modify
    | apply throws_sleep
    | apply throws_generateId
    | apply throws_getCurrentTimestamp
    | apply throws_new_array
    | apply throws_bind; [|intros ?]
    | lazymatch goal with
      | |- throws _ (if ?b then _ else _) => destruct b
      | |- throws _ (match ?x with _ => _ end) => destruct x
      end
    | progress cbv zeta
    | progress autounfold with etl
    | solve [leaf] ].

(** ** The primitives *)

Lemma throws_insert_company (row : Company.t) :
  throws foreign (Sql.insert_company row).
Proof.
  intros w e. unfold Sql.insert_company, throw, Sql.commit, modify.
  repeat case_bool_decide; cbn; intros [= <-]; reflexivity.
Qed.

Lemma throws_update_company (i : string) (u : UpdateCompany.t) :
  throws foreign (Sql.update_company i u).
Proof.
  intros w e. unfold Sql.update_company, throw, Sql.commit, modify.
  repeat case_match; cbn; intros [= <-]; reflexivity.
Qed.

Lemma throws_insert_contact (row : Contact.t) :
  throws foreign (Sql.insert_contact row).
Proof.
  intros w e. unfold Sql.insert_contact, throw, Sql.commit, modify.
  repeat case_match; cbn; intros [= <-]; reflexivity.
Qed.

Lemma throws_update_contact (i : string) (u : UpdateContact.t) :
  throws foreign (Sql.update_contact i u).
Proof.
  intros w e. unfold Sql.update_contact, throw, Sql.commit, modify.
  repeat case_match; cbn; intros [= <-]; reflexivity.
Qed.

Lemma throws_httpClient_get (u : string) (ps : list (string * string)) :
  throws foreign (HubSpotApiService.httpClient_get u ps).
Proof.
  intros w e. unfold HubSpotApiService.httpClient_get.
  repeat case_match; cbn; intros [= <-]; reflexivity.
Qed.

Lemma throws_fetch_pages (u properties : string) (fuel : nat) :
  ∀ all cursor,
    throws foreign (HubSpotApiService.fetch_pages fuel u properties all cursor).
Proof.
  induction fuel as [|fuel IH]; intros all cursor;
    cbn [HubSpotApiService.fetch_pages].
  - apply throws_throw. reflexivity.
  - apply throws_bind; [apply throws_httpClient_get|].
    intros response. cbv zeta. case_bool_decide.
    + apply throws_bind; [apply throws_sleep|]. intros _. apply IH.
    + apply throws_ret.
Qed.

Lemma throws_array_push (P : Exn → Prop) (l : loc) (x : string) :
  throws P (array_push l x).
Proof. apply throws_modify. Qed.

Lemma throws_errors_push (P : Exn → Prop) (msg : string) :
  throws P (EtlService.errors_push msg).
Proof.
  unfold EtlService.errors_push. apply throws_bind; [apply throws_gets|].
  intros l. apply throws_array_push.
Qed.

(* ===================================================================== *)
(** * One record never stops a phase                                       *)
(* ===================================================================== *)

Lemma syncCompany_never_throws (c : HubSpotObject) :
  throws (λ _, False) (EtlService.syncCompany c).
Proof.
  unfold EtlService.syncCompany.
  eapply throws_try_catch; [apply throws_anything|].
  intros e _. apply throws_errors_push.
Qed.

Lemma syncContact_never_throws (c : HubSpotObject) :
  throws (λ _, False) (EtlService.syncContact c).
Proof.
  unfold EtlService.syncContact.
  eapply throws_try_catch; [apply throws_anything|].
  intros e _. apply throws_errors_push.
Qed.

Lemma for_of_returns {A} (xs : list A) (body : A → M unit) (w : World) :
  (∀ x, throws (λ _, False) (body x)) →
  fst (for_of xs body w) = Return tt.
Proof.
  intros Hbody.
  destruct (never_throws_returns (for_of xs body) w) as [[] H];
    [apply throws_for_of; assumption|exact H].
Qed.

(** X1. The loop of each phase runs to the end of any list of fetched
    records, from any state and whatever the store does with each record:
    the handler around the loop body catches every failure. A phase
    fails only when its traversal does, and then with the error of the
    traversal. *)
Theorem record_failures_never_abort (w : World) :
  (∀ cs, fst (for_of cs EtlService.syncCompany w) = Return tt)
  ∧ (∀ cs, fst (for_of cs EtlService.syncContact w) = Return tt)
  ∧ fst (EtlService.syncCompanies w)
    = match fst (HubSpotApiService.getAllCompanies w) with
      | Return _ => Return tt
      | Throw e => Throw e
      end
  ∧ fst (EtlService.syncContacts w)
    = match fst (HubSpotApiService.getAllContacts w) with
      | Return _ => Return tt
      | Throw e => Throw e
      end.
Proof.
  split; [|split; [|split]].
  - intros cs. apply for_of_returns. exact syncCompany_never_throws.
  - intros cs. apply for_of_returns. exact syncContact_never_throws.
  - unfold EtlService.syncCompanies, bind.
    destruct (HubSpotApiService.getAllCompanies w) as [[cs|e] w1]; cbn [fst].
    + apply for_of_returns. exact syncCompany_never_throws.
    + reflexivity.
  - unfold EtlService.syncContacts, bind.
    destruct (HubSpotApiService.getAllContacts w) as [[cs|e] w1]; cbn [fst].
    + apply for_of_returns. exact syncContact_never_throws.
    + reflexivity.
Qed.

(* ===================================================================== *)
(** * What a run can fail with                                             *)
(* ===================================================================== *)

Lemma syncCompanies_throws : throws foreign EtlService.syncCompanies.
Proof.
  unfold EtlService.syncCompanies. apply throws_bind.
  - intros w. unfold HubSpotApiService.getAllCompanies.
    apply throws_fetch_pages.
  - intros cs. apply throws_for_of. intros c.
    eapply throws_weaken; [|apply syncCompany_never_throws].
    intros e [].
Qed.

Lemma syncContacts_throws : throws foreign EtlService.syncContacts.
Proof.
  unfold EtlService.syncContacts. apply throws_bind.
  - intros w. unfold HubSpotApiService.getAllContacts.
    apply throws_fetch_pages.
  - intros cs. apply throws_for_of. intros c.
    eapply throws_weaken; [|apply syncContact_never_throws].
    intros e [].
Qed.

Lemma healthCheck_never_throws (P : Exn → Prop) :
  throws P HubSpotApiService.healthCheck.
Proof.
  unfold HubSpotApiService.healthCheck.
  eapply throws_try_catch; [apply throws_anything|].
  intros e _. apply throws_ret.
Qed.

(** X2. Whatever [syncCrmData] throws is one of three [AppError]s: 409 when
    a run is in progress, 502 when the health check fails, 500 for
    everything else - no error of the store or of the HTTP client reaches
    the caller as it is. *)
Theorem syncCrmData_failures (w : World) (e : Exn) :
  fst (EtlService.syncCrmData w) = Throw e → e ∈ sync_failures.
Proof.
  revert w e.
  change (throws (λ e, e ∈ sync_failures) EtlService.syncCrmData).
  unfold EtlService.syncCrmData.
  apply throws_bind; [apply throws_gets|]. intros running.
  destruct running.
  { apply throws_throw. left. }
  apply throws_bind; [apply throws_getCurrentTimestamp|]. intros now.
  apply throws_bind; [apply throws_new_array|]. intros errs.
  apply throws_bind; [apply throws_modify|]. intros _.
  apply (throws_try_catch _
           (λ e, e = AppError "HubSpot API is not accessible" 502 ∨ foreign e)).
  - apply throws_bind; [apply healthCheck_never_throws|]. intros isHealthy.
    apply throws_bind.
    { destruct isHealthy; cbn [negb];
        [apply throws_ret|apply throws_throw; left; reflexivity]. }
    intros _.
    apply throws_bind.
    { eapply throws_weaken; [|apply syncCompanies_throws]. intros; right; auto. }
    intros _.
    apply throws_bind.
    { eapply throws_weaken; [|apply syncContacts_throws]. intros; right; auto. }
    intros _.
    throws_descend idtac.
  - intros error Herror.
    apply throws_bind; [apply throws_modify|]. intros _.
    apply throws_bind; [apply throws_getCurrentTimestamp|]. intros now'.
    apply throws_bind; [apply throws_modify|]. intros _.
    apply throws_bind; [apply throws_errors_push|]. intros _.
    destruct Herror as [->|Hforeign].
    + cbn. apply throws_throw. right. left.
    + unfold foreign in Hforeign. rewrite Hforeign.
      apply throws_throw. right. right. left.
Qed.

Lemma syncCrmData_failures_witness :
  AppError "HubSpot API is not accessible" 502 ∈ sync_failures.
Proof.
  apply (syncCrmData_failures Sample.down). vm_compute. reflexivity.
Defined.

(* ===================================================================== *)
(** * The running flag                                                     *)
(* ===================================================================== *)

Lemma fetch_pages_status (u properties : string) (fuel : nat) :
  ∀ all cursor,
    keeps (same syncStatus)
      (HubSpotApiService.fetch_pages fuel u properties all cursor).
Proof.
  induction fuel as [|fuel IH]; intros all cursor;
    cbn [HubSpotApiService.fetch_pages];
    keeps_descend ltac:(first [apply IH | same_leaf]).
Qed.

(** What the two phases leave alone in the status object: the start time
    and the address of the error list. *)
Lemma syncCompanies_status :
  keeps (same (λ w, (startedAt (syncStatus w), errors (syncStatus w))))
    EtlService.syncCompanies.
Proof.
  unfold EtlService.syncCompanies.
  apply keeps_bind; [apply _| |].
  - intros w. unfold HubSpotApiService.getAllCompanies, same.
    rewrite (fetch_pages_status _ _ _ _ _ w). reflexivity.
  - intros cs. apply keeps_for_of; [apply _|]. intros c _.
    keeps_descend same_leaf.
Qed.

Lemma syncContacts_status :
  keeps (same (λ w, (startedAt (syncStatus w), errors (syncStatus w))))
    EtlService.syncContacts.
Proof.
  unfold EtlService.syncContacts.
  apply keeps_bind; [apply _| |].
  - intros w. unfold HubSpotApiService.getAllContacts, same.
    rewrite (fetch_pages_status _ _ _ _ _ w). reflexivity.
  - intros cs. apply keeps_for_of; [apply _|]. intros c _.
    keeps_descend same_leaf.
Qed.

(** X3. A run that was free to start always gives the service back: whether
    [syncCrmData] returns or throws, and whatever the upstream and the
    store did, the running flag is down afterwards, the start time is the
    instant read when the run began, and a completion time is recorded.
    When it returns, the response carries the counters and the
    completion time of the status object. *)
Theorem syncCrmData_releases_the_run (w : World) :
  isRunning (syncStatus w) = false →
  let r := EtlService.syncCrmData w in
  isRunning (syncStatus (snd r)) = false
  ∧ startedAt (syncStatus (snd r)) = Some (clock w (clock_next w))
  ∧ is_Some (completedAt (syncStatus (snd r)))
  ∧ match fst r with
    | Return resp =>
        contactsSynced resp = contactsProcessed (syncStatus (snd r))
        ∧ companiesSynced resp = companiesProcessed (syncStatus (snd r))
        ∧ syncedAt resp = completedAt (syncStatus (snd r))
        ∧ message resp = "Sync completed successfully"
    | Throw _ => True
    end.
Proof.
  intros Hidle. cbv zeta.
  destruct (EtlService.syncCrmData w) as [res w'] eqn:Hrun. cbn [fst snd].
  unfold EtlService.syncCrmData, bind at 1, gets in Hrun. rewrite Hidle in Hrun.
  unfold bind at 1, getCurrentTimestamp in Hrun.
  unfold bind at 1, new_array in Hrun.
  unfold bind at 1, modify in Hrun.
  match type of Hrun with
  | try_catch _ _ ?w1 = _ => set (w1' := w1) in Hrun
  end.
  unfold try_catch, bind at 1 in Hrun.
  destruct (healthCheck_run w1')
    as (w2 & Hh & _ & _ & Hst2 & _).
  rewrite Hh in Hrun.
  assert (startedAt (syncStatus w2) = Some (clock w (clock_next w))) as Hstart2
    by (rewrite Hst2; reflexivity).
  destruct (upstream_reachable w1'); cbn [negb] in Hrun.
  - unfold bind at 1, ret in Hrun. unfold bind at 1 in Hrun.
    pose proof (syncCompanies_status w2) as Hc. unfold same in Hc.
    destruct (EtlService.syncCompanies w2) as [[[]|e] w3]; cbn [snd] in Hc;
      injection Hc as Hstart3 _.
    + unfold bind at 1 in Hrun.
      pose proof (syncContacts_status w3) as Hk. unfold same in Hk.
      destruct (EtlService.syncContacts w3) as [[[]|e] w4]; cbn [snd] in Hk;
        injection Hk as Hstart4 _.
      * unfold bind, getCurrentTimestamp, EtlService.update_status, modify,
          gets, ret in Hrun. cbn in Hrun.
        injection Hrun as <- <-. cbn.
        rewrite Hstart4, Hstart3, Hstart2.
        repeat split; try reflexivity. eexists; reflexivity.
      * unfold bind, getCurrentTimestamp, EtlService.update_status, modify,
          EtlService.errors_push, array_push, modify, gets, throw in Hrun.
        cbn in Hrun.
        destruct (instanceof_AppError e); injection Hrun as <- <-; cbn;
          rewrite Hstart4, Hstart3, Hstart2;
          (repeat split; try reflexivity); eexists; reflexivity.
    + unfold bind, getCurrentTimestamp, EtlService.update_status, modify,
        EtlService.errors_push, array_push, modify, gets, throw in Hrun.
      cbn in Hrun.
      destruct (instanceof_AppError e); injection Hrun as <- <-; cbn;
        rewrite Hstart3, Hstart2;
        (repeat split; try reflexivity); eexists; reflexivity.
  - unfold bind, getCurrentTimestamp, EtlService.update_status, modify,
      EtlService.errors_push, array_push, modify, gets, throw in Hrun.
    cbn in Hrun. injection Hrun as <- <-. cbn.
    rewrite Hstart2. (repeat split; try reflexivity). eexists; reflexivity.
Qed.

Lemma syncCrmData_releases_the_run_witness :
  isRunning (syncStatus (snd (EtlService.syncCrmData Sample.first_sync))) = false.
Proof.
  pose proof (syncCrmData_releases_the_run Sample.first_sync eq_refl) as H.
  destruct H as [H _]. exact H.
Defined.

(* ===================================================================== *)
(** * Accounting                                                           *)
(* ===================================================================== *)

(** Each contact is stored and counted, or skipped with a warning, or
    reported in the error list. *)
Lemma syncContact_outcome (c : HubSpotObject) (w : World) :
  status_allocated w →
  let w' := snd (EtlService.syncContact c w) in
  errors (syncStatus w') = errors (syncStatus w)
  ∧ length (heap w') = length (heap w)
  ∧ companiesProcessed (syncStatus w') = companiesProcessed (syncStatus w)
  ∧ ((contactsProcessed (syncStatus w') = S (contactsProcessed (syncStatus w))
      ∧ warnings w' = warnings w
      ∧ status_errors w' = status_errors w)
     ∨ (contactsProcessed (syncStatus w') = contactsProcessed (syncStatus w)
        ∧ warnings w' = warnings w ++ [contact_skipped c]
        ∧ status_errors w' = status_errors w)
     ∨ (contactsProcessed (syncStatus w') = contactsProcessed (syncStatus w)
        ∧ warnings w' = warnings w
        ∧ ∃ m, status_errors w' = status_errors w ++ [m])).
Proof.
  intros Halloc.
  destruct (EtlService.syncContact c w) as [res w'] eqn:Hrun. cbn [fst snd].
  destruct (transformHubspotContact_run c w) as (cid & Htr & _).
  unfold EtlService.syncContact, try_catch, bind at 1 in Hrun.
  rewrite Htr in Hrun. cbn [CreateContact.email] in Hrun.
  destruct (Js.truthy (cleanString (prop "email" (properties c)))).
  - unfold bind at 1, ContactService.upsertContactByHubspotId, try_catch in Hrun.
    match type of Hrun with
    | context [ContactRepository.upsertByHubspotId ?d w] =>
        pose proof (upsert_contact_frame d w) as Hframe;
        destruct (ContactRepository.upsertByHubspotId d w) as [[r|e] w1]
    end;
      unfold same in Hframe; cbn [snd] in Hframe;
      injection Hframe as Hheap Hst Hwarn _ _ _ _.
    + unfold EtlService.update_status, modify in Hrun.
      injection Hrun as <- <-.
      unfold status_errors, array_read. cbn. rewrite Hst, Hheap.
      repeat split; auto.
    + unfold throw, EtlService.errors_push, bind, gets in Hrun.
      assert (errors (syncStatus w1) < length (heap w1)) as Halloc1
        by (rewrite Hst, Hheap; exact Halloc).
      match type of Hrun with
      | array_push _ ?m _ = _ =>
          pose proof (array_push_read w1 (errors (syncStatus w1)) m Halloc1)
            as Hpush
      end.
      rewrite Hrun in Hpush.
      unfold array_push, modify in Hrun. injection Hrun as <- <-.
      cbn [snd] in Hpush. unfold status_errors. cbn in *.
      rewrite length_alter. unfold array_read in *.
      rewrite Hst, Hheap in *.
      split; [reflexivity|]. split; [reflexivity|]. split; [reflexivity|].
      right. right. split; [reflexivity|]. split; [assumption|].
      eexists. exact Hpush.
  - unfold logger_warn, modify in Hrun. injection Hrun as <- <-.
    unfold status_errors, array_read. cbn.
    split; [reflexivity|]. split; [reflexivity|]. split; [reflexivity|].
    right. left. repeat split; reflexivity.
Qed.

Lemma contact_loop_accounts (cs : list HubSpotObject) :
  ∀ w, status_allocated w →
       let w' := snd (for_of cs EtlService.syncContact w) in
       contacts_accounted w' = contacts_accounted w + length cs
       ∧ companiesProcessed (syncStatus w') = companiesProcessed (syncStatus w).
Proof.
  induction cs as [|c cs IH]; intros w Halloc; cbv zeta.
  - cbn. split; [lia|reflexivity].
  - cbn [for_of]. unfold bind.
    pose proof (syncContact_outcome c w Halloc) as Hout.
    pose proof (syncContact_never_throws c w) as Hret.
    destruct (EtlService.syncContact c w) as [[[]|e] w1]; cbn [fst snd] in *;
      [|destruct (Hret e eq_refl)].
    destruct Hout as (Hloc & Hlen & Hcomp & Hcases).
    destruct (IH w1) as [Hacc Hcomp'].
    { unfold status_allocated. rewrite Hloc, Hlen. exact Halloc. }
    split; [|congruence].
    rewrite Hacc. unfold contacts_accounted. cbn [length].
    destruct Hcases as [(Hn & Hw & He)|[(Hn & Hw & He)|(Hn & Hw & m & He)]];
      rewrite Hn, Hw, He, ?length_app; cbn [length]; lia.
Qed.

Lemma company_loop_accounts (cs : list HubSpotObject) :
  ∀ w, status_allocated w →
       let w' := snd (for_of cs EtlService.syncCompany w) in
       companies_accounted w' = companies_accounted w + length cs
       ∧ warnings w' = warnings w
       ∧ contactsProcessed (syncStatus w') = contactsProcessed (syncStatus w).
Proof.
  induction cs as [|c cs IH]; intros w Halloc; cbv zeta.
  - cbn. split; [lia|]. split; reflexivity.
  - cbn [for_of]. unfold bind.
    pose proof (syncCompany_outcome c w Halloc) as Hout.
    destruct (EtlService.syncCompany c w) as [r1 w1]. cbn [fst snd] in *.
    destruct Hout as (-> & Hwarn & _ & _ & Hcount & Hloc & Hlen & Hcases).
    destruct (IH w1) as (Hacc & Hwarn' & Hcount').
    { unfold status_allocated. rewrite Hloc, Hlen. exact Halloc. }
    split; [|split; congruence].
    rewrite Hacc. unfold companies_accounted. cbn [length].
    destruct Hcases as [[Hn He]|[Hn He]];
      rewrite Hn, Hwarn, He, ?length_app; cbn [length]; lia.
Qed.

(** X4. No fetched record is lost by the accounting. Of the contacts a loop
    goes through, each adds exactly one to the contact counter, or one
    skip warning, or one entry to the error list, so the three together
    grow by the number of contacts; of the companies, each adds one to
    the company counter or one entry to the error list, and no warning.
    Neither loop touches the counter of the other. *)
Theorem every_record_is_accounted_for (cs : list HubSpotObject) (w : World) :
  status_allocated w →
  let wk := snd (for_of cs EtlService.syncContact w) in
  let wc := snd (for_of cs EtlService.syncCompany w) in
  contactsProcessed (syncStatus wk) + length (warnings wk)
  + length (status_errors wk)
  = contactsProcessed (syncStatus w) + length (warnings w)
    + length (status_errors w) + length cs
  ∧ companiesProcessed (syncStatus wk) = companiesProcessed (syncStatus w)
  ∧ companiesProcessed (syncStatus wc) + length (status_errors wc)
    = companiesProcessed (syncStatus w) + length (status_errors w) + length cs
  ∧ warnings wc = warnings w
  ∧ contactsProcessed (syncStatus wc) = contactsProcessed (syncStatus w).
Proof.
  intros Halloc wk wc.
  destruct (contact_loop_accounts cs w Halloc) as [Hk Hk'].
  destruct (company_loop_accounts cs w Halloc) as (Hc & Hw & Hc').
  fold wk in Hk, Hk'. fold wc in Hc, Hw, Hc'.
  unfold contacts_accounted in Hk. unfold companies_accounted in Hc.
  rewrite Hw in Hc.
  split; [exact Hk|]. split; [exact Hk'|]. split; [lia|].
  split; [exact Hw|exact Hc'].
Qed.

Lemma every_record_is_accounted_for_witness :
  let wk := snd (for_of (results Sample.contacts_page) EtlService.syncContact
                   Sample.resync) in
  contactsProcessed (syncStatus wk) + length (warnings wk)
  + length (status_errors wk) = 3.
Proof.
  pose proof (every_record_is_accounted_for (results Sample.contacts_page)
                Sample.resync) as H.
  destruct H as [H _].
  - unfold status_allocated. cbn. lia.
  - exact H.
Defined.

(* ===================================================================== *)
(** * A traversal that fails                                               *)
(* ===================================================================== *)

Section FailingPage.

Variables (u properties : string).

(** The loop stops at the first request the upstream refuses: the error
    of that request is thrown, and what the pages before it held is
    dropped with the local array. *)
Lemma fetch_pages_fails (pages : list ResponseData) :
  ∀ (fuel : nat) (all : list HubSpotObject) (cursor : option string)
    (w : World) (m : string) (rest : list HttpResponse),
    upstream w = (HttpOk <$> pages) ++ HttpFail m :: rest →
    Forall (λ p, is_Some (paging p ≫= next)) pages →
    length pages < fuel →
    HubSpotApiService.fetch_pages fuel u properties all cursor w
    = (Throw (JsError m),
       set_upstream rest
         (set_trace
            (trace w ++ (page_request u properties
                           <$> (cursor :: (next_cursor <$> pages)))) w)).
Proof.
  induction pages as [|p pages IH];
    intros fuel all cursor w m rest Hup Hnext Hfuel.
  - destruct fuel as [|fuel]; [cbn in Hfuel; lia|].
    cbn [HubSpotApiService.fetch_pages]. unfold bind at 1.
    unfold HubSpotApiService.httpClient_get. rewrite Hup. cbn. reflexivity.
  - destruct fuel as [|fuel]; [cbn in Hfuel; lia|].
    apply Forall_cons in Hnext as [Hp Hnext].
    cbn [HubSpotApiService.fetch_pages]. unfold bind at 1.
    unfold HubSpotApiService.httpClient_get. rewrite Hup.
    cbn [fmap list_fmap app].
    destruct Hp as [nx Hnx]. rewrite Hnx.
    rewrite bool_decide_true by (eexists; reflexivity).
    unfold sleep, bind at 1, ret.
    erewrite IH; [| reflexivity | exact Hnext | cbn in Hfuel; lia].
    cbn. unfold next_cursor at 2. rewrite Hnx.
    rewrite <- !(assoc_L (++)). reflexivity.
Qed.

End FailingPage.

Lemma failing_page_run
    (w : World) (pages : list ResponseData) (m : string)
    (rest : list HttpResponse) :
  upstream w = (HttpOk <$> pages) ++ HttpFail m :: rest →
  Forall (λ p, is_Some (paging p ≫= next)) pages →
  HubSpotApiService.getAllContacts w
  = (Throw (JsError m),
     set_upstream rest
       (set_trace
          (trace w ++ page_requests HubSpotApiService.contacts_path
                        contact_properties pages) w))
  ∧ HubSpotApiService.getAllCompanies w
    = (Throw (JsError m),
       set_upstream rest
         (set_trace
            (trace w ++ page_requests HubSpotApiService.companies_path
                          company_properties pages) w)).
Proof.
  intros Hup Hnext.
  assert (length pages < S (length (upstream w))) as Hfuel.
  { rewrite Hup, length_app, length_fmap. lia. }
  split.
  - unfold HubSpotApiService.getAllContacts.
    apply (fetch_pages_fails _ _ pages _ [] None w m rest); assumption.
  - unfold HubSpotApiService.getAllCompanies.
    apply (fetch_pages_fails _ _ pages _ [] None w m rest); assumption.
Qed.

(** X5. When the upstream answers some pages that each announce a successor
    and then refuses a request, [getAllContacts] and [getAllCompanies]
    throw the error of that request: nothing is returned of the pages
    already fetched, one request was sent per page answered and one for
    the refusal, and the later answers of the upstream are left unread. *)
Theorem traversal_fails_as_a_whole
    (w : World) (pages : list ResponseData) (m : string)
    (rest : list HttpResponse) :
  upstream w = (HttpOk <$> pages) ++ HttpFail m :: rest →
  Forall (λ p, is_Some (paging p ≫= next)) pages →
  HubSpotApiService.getAllContacts w
  = (Throw (JsError m),
     set_upstream rest
       (set_trace
          (trace w ++ page_requests HubSpotApiService.contacts_path
                        contact_properties pages) w))
  ∧ HubSpotApiService.getAllCompanies w
    = (Throw (JsError m),
       set_upstream rest
         (set_trace
            (trace w ++ page_requests HubSpotApiService.companies_path
                          company_properties pages) w))
  ∧ length (page_requests HubSpotApiService.contacts_path
              contact_properties pages) = S (length pages).
Proof.
  intros Hup Hnext.
  destruct (failing_page_run w pages m rest Hup Hnext) as [Hk Hc].
  split; [exact Hk|]. split; [exact Hc|].
  unfold page_requests. rewrite length_fmap. cbn. rewrite length_fmap.
  reflexivity.
Qed.

Lemma traversal_fails_as_a_whole_witness :
  fst (HubSpotApiService.getAllContacts Fixture.second_page_refused)
  = Throw (JsError "Request failed with status code 429").
Proof.
  pose proof (traversal_fails_as_a_whole Fixture.second_page_refused
                [Sample.first_page] "Request failed with status code 429"
                [HttpOk Sample.second_page] eq_refl) as H.
  destruct H as [H _].
  - repeat constructor. eexists. reflexivity.
  - rewrite H. reflexivity.
Defined.

(** X6. A run in which the company traversal fails - the health check and
    some company pages answered, then a request refused - ends before
    anything is written: the database is as it was, both counters are
    zero, nothing is asked about contacts (the later answers of the
    upstream are unread), the running flag is down and the completion
    time recorded. The message of the refused request is the one entry
    of the error list; the caller gets the general [AppError] with status
    500 instead of it. *)
Theorem company_traversal_failure_aborts_the_run
    (w : World) (h : ResponseData) (pages : list ResponseData) (m : string)
    (rest : list HttpResponse) :
  isRunning (syncStatus w) = false →
  upstream w = HttpOk h :: (HttpOk <$> pages) ++ HttpFail m :: rest →
  Forall (λ p, is_Some (paging p ≫= next)) pages →
  let r := EtlService.syncCrmData w in
  fst r = Throw (AppError "ETL sync failed due to an unexpected error" 500)
  ∧ db (snd r) = db w
  ∧ status_errors (snd r) = [m]
  ∧ contactsProcessed (syncStatus (snd r)) = 0
  ∧ companiesProcessed (syncStatus (snd r)) = 0
  ∧ isRunning (syncStatus (snd r)) = false
  ∧ completedAt (syncStatus (snd r)) = Some (clock w (S (clock_next w)))
  ∧ upstream (snd r) = rest
  ∧ trace (snd r)
    = trace w ++ health_request
        :: page_requests HubSpotApiService.companies_path
             company_properties pages.
Proof.
  intros Hidle Hup Hnext. cbv zeta.
  destruct (EtlService.syncCrmData w) as [res w'] eqn:Hrun. cbn [fst snd].
  unfold EtlService.syncCrmData, bind at 1, gets in Hrun. rewrite Hidle in Hrun.
  unfold bind at 1, getCurrentTimestamp in Hrun.
  unfold bind at 1, new_array in Hrun.
  unfold bind at 1, modify in Hrun.
  match type of Hrun with
  | try_catch _ _ ?w1 = _ => set (w1' := w1) in Hrun
  end.
  unfold try_catch, bind at 1 in Hrun.
  destruct (healthCheck_run w1')
    as (w2 & Hh & Hdb2 & Htr2 & Hst2 & Hheap2 & Hwarn2 & Hup2 & Hu2 & Hun2
        & Hc2 & Hcn2).
  rewrite Hh in Hrun.
  assert (upstream_reachable w1' = true) as Hreach
    by (unfold upstream_reachable; subst w1'; cbn; rewrite Hup; reflexivity).
  rewrite Hreach in Hrun. cbn [negb] in Hrun.
  unfold bind at 1, ret in Hrun. unfold bind at 1 in Hrun.
  assert (upstream w2 = (HttpOk <$> pages) ++ HttpFail m :: rest) as Hup2'
    by (rewrite Hup2; subst w1'; cbn; rewrite Hup; reflexivity).
  unfold EtlService.syncCompanies, bind at 1 in Hrun.
  destruct (failing_page_run w2 pages m rest Hup2' Hnext)
    as [_ Hfail].
  rewrite Hfail in Hrun.
  unfold bind, getCurrentTimestamp, EtlService.update_status, modify,
    EtlService.errors_push, array_push, modify, gets, throw in Hrun.
  cbn in Hrun. injection Hrun as <- <-.
  unfold status_errors, array_read. cbn.
  rewrite Hst2, Hheap2, Hdb2, Htr2, Hc2, Hcn2. subst w1'. cbn.
  rewrite alter_at_end, lookup_at_end. cbn.
  rewrite <- (assoc_L (++)).
  repeat split; reflexivity.
Qed.

Lemma company_traversal_failure_aborts_the_run_witness :
  fst (EtlService.syncCrmData Fixture.companies_refused)
  = Throw (AppError "ETL sync failed due to an unexpected error" 500)
  ∧ status_errors (snd (EtlService.syncCrmData Fixture.companies_refused))
    = ["Request failed with status code 429"].
Proof.
  pose proof (company_traversal_failure_aborts_the_run
                Fixture.companies_refused
                {| results := []; paging := None |} []
                "Request failed with status code 429"
                [HttpOk Sample.contacts_page] eq_refl eq_refl) as H.
  destruct H as (H1 & _ & H2 & _).
  - constructor.
  - split; [exact H1|exact H2].
Defined.

(* ===================================================================== *)
(** * Stored rows keep their identity                                      *)
(* ===================================================================== *)

Global Instance rows_persist_preorder : PreOrder rows_persist.
Proof.
  split.
  - intros w. split; reflexivity.
  - intros w1 w2 w3 [H1 H2] [H3 H4]. split; etrans; eassumption.
Qed.

Lemma rows_persist_silent (w w' : World) : db w' = db w → rows_persist w w'.
Proof. intros Hdb. unfold rows_persist. rewrite Hdb. split; reflexivity. Qed.

Lemma rewrite_rows_identity {R B} (rid : R → string) (obs : R → B)
    (i : string) (f : R → R) (l : list R) :
  (∀ r, obs (f r) = obs r) →
  obs <$> Sql.rewrite_rows rid i f l = obs <$> l.
Proof.
  intros Hf. unfold Sql.rewrite_rows. rewrite <- list_fmap_compose.
  apply list_fmap_ext. intros k r _. cbn.
  destruct (decide (rid r = i)); [apply Hf|reflexivity].
Qed.

Lemma insert_company_persists (row : Company.t) :
  keeps rows_persist (Sql.insert_company row).
Proof.
  intros w. unfold Sql.insert_company, throw, Sql.commit, modify.
  repeat case_bool_decide; cbn; try (apply rows_persist_silent; reflexivity).
  split; cbn; [|reflexivity].
  rewrite fmap_app. apply prefix_app_r. reflexivity.
Qed.

Lemma update_company_persists (i : string) (u : UpdateCompany.t) :
  keeps rows_persist (Sql.update_company i u).
Proof.
  intros w. unfold Sql.update_company, throw, Sql.commit, modify.
  case_match; cbn; [apply rows_persist_silent; reflexivity|].
  split; cbn; [|reflexivity].
  rewrite rewrite_rows_identity by reflexivity. reflexivity.
Qed.

Lemma insert_contact_persists (row : Contact.t) :
  keeps rows_persist (Sql.insert_contact row).
Proof.
  intros w. unfold Sql.insert_contact, throw, Sql.commit, modify.
  repeat case_match; cbn; try (apply rows_persist_silent; reflexivity).
  split; cbn; [reflexivity|].
  rewrite fmap_app. apply prefix_app_r. reflexivity.
Qed.

Lemma update_contact_persists (i : string) (u : UpdateContact.t) :
  keeps rows_persist (Sql.update_contact i u).
Proof.
  intros w. unfold Sql.update_contact, throw, Sql.commit, modify.
  repeat case_match; cbn; try (apply rows_persist_silent; reflexivity).
  split; cbn; [reflexivity|].
  rewrite rewrite_rows_identity by reflexivity. reflexivity.
Qed.

(** Leaves that do not write to the database. *)
Ltac rows_silent_leaf :=
  intros ?w;
  unfold modify, generateId, getCurrentTimestamp, array_push, new_array,
    throw, HubSpotApiService.httpClient_get;
  repeat case_match; apply rows_persist_silent; reflexivity.

Ltac rows_leaf :=
  first [ apply insert_company_persists
        | apply update_company_persists
        | apply insert_contact_persists
        | apply update_contact_persists
        | rows_silent_leaf ].

Lemma fetch_pages_persists (u properties : string) (fuel : nat) :
  ∀ all cursor,
    keeps rows_persist
      (HubSpotApiService.fetch_pages fuel u properties all cursor).
Proof.
  induction fuel as [|fuel IH]; intros all cursor;
    cbn [HubSpotApiService.fetch_pages];
    keeps_descend ltac:(first [apply IH | rows_leaf]).
Qed.

Lemma syncCompanies_persists : keeps rows_persist EtlService.syncCompanies.
Proof.
  unfold EtlService.syncCompanies.
  apply keeps_bind; [apply _| |].
  - intros w. unfold HubSpotApiService.getAllCompanies.
    apply fetch_pages_persists.
  - intros cs. apply keeps_for_of; [apply _|]. intros c _.
    keeps_descend rows_leaf.
Qed.

Lemma syncContacts_persists : keeps rows_persist EtlService.syncContacts.
Proof.
  unfold EtlService.syncContacts.
  apply keeps_bind; [apply _| |].
  - intros w. unfold HubSpotApiService.getAllContacts.
    apply fetch_pages_persists.
  - intros cs. apply keeps_for_of; [apply _|]. intros c _.
    keeps_descend rows_leaf.
Qed.

(** X7. A run never removes a row and never changes the local id or the
    creation time of one: whatever the upstream sends and however the run
    ends, the rows that were stored are still there afterwards, in the
    same order and under the same local id and creation time; rows are
    only added behind them. *)
Theorem stored_rows_keep_their_identity (w : World) :
  let w' := snd (EtlService.syncCrmData w) in
  (company_identity <$> companies (db w))
    `prefix_of` (company_identity <$> companies (db w'))
  ∧ (contact_identity <$> contacts (db w))
      `prefix_of` (contact_identity <$> contacts (db w')).
Proof.
  revert w. change (keeps rows_persist EtlService.syncCrmData).
  unfold EtlService.syncCrmData, HubSpotApiService.healthCheck.
  repeat first
    [ apply syncCompanies_persists
    | apply syncContacts_persists
    | apply keeps_bind; [apply _| |intros ?]
    | apply keeps_try_catch; [apply _| |intros ?]
    | lazymatch goal with
      | |- keeps _ (if ?b then _ else _) => destruct b
      end
    | solve [keeps_descend rows_leaf] ].
Qed.

(* ===================================================================== *)
(** * Trimming                                                             *)
(* ===================================================================== *)

Section Trim.

Abbreviation chars := list_ascii_of_string.

Lemma chars_app (s t : string) : chars (s +:+ t) = chars s ++ chars t.
Proof.
  induction s as [|c s IH]; [reflexivity|].
  change (c :: chars (s +:+ t) = c :: (chars s ++ chars t)).
  f_equal. exact IH.
Qed.

Lemma chars_inj (s t : string) : chars s = chars t → s = t.
Proof.
  intros H. rewrite <- (string_of_list_ascii_of_string s),
    <- (string_of_list_ascii_of_string t), H. reflexivity.
Qed.

Lemma chars_rev_app (s t : string) :
  chars (String.rev_app s t) = reverse (chars s) ++ chars t.
Proof.
  revert t. induction s as [|c s IH]; intros t;
    cbn [String.rev_app list_ascii_of_string]; [reflexivity|].
  rewrite IH, reverse_cons, <- (assoc_L (++)). reflexivity.
Qed.

Lemma chars_rev (s : string) : chars (String.rev s) = reverse (chars s).
Proof. unfold String.rev. rewrite chars_rev_app, app_nil_r. reflexivity. Qed.

Lemma chars_trimStart (s : string) :
  chars (Js.trimStart s) = drop_spaces (chars s).
Proof.
  induction s as [|c s IH]; cbn; [reflexivity|].
  destruct (Js.is_space c); [exact IH|reflexivity].
Qed.

Lemma chars_trim (s : string) :
  chars (Js.trim s)
  = reverse (drop_spaces (reverse (drop_spaces (chars s)))).
Proof.
  unfold Js.trim, Js.trimEnd.
  rewrite chars_rev, chars_trimStart, chars_rev, chars_trimStart.
  reflexivity.
Qed.

Lemma drop_spaces_lead_ok (l : list ascii) : lead_ok (drop_spaces l).
Proof.
  induction l as [|c l IH]; cbn; [exact I|].
  destruct (Js.is_space c) eqn:E; [exact IH|exact E].
Qed.

Lemma drop_spaces_id (l : list ascii) : lead_ok l → drop_spaces l = l.
Proof. destruct l as [|c l]; cbn; [reflexivity|]. intros ->. reflexivity. Qed.

Lemma drop_spaces_snoc (l : list ascii) (c : ascii) :
  Js.is_space c = false → drop_spaces (l ++ [c]) = drop_spaces l ++ [c].
Proof.
  intros Hc. induction l as [|a l IH]; cbn.
  - rewrite Hc. reflexivity.
  - destruct (Js.is_space a); [exact IH|reflexivity].
Qed.

Lemma drop_spaces_split (l : list ascii) :
  ∃ sp, l = sp ++ drop_spaces l ∧ Forall (λ c, Js.is_space c = true) sp.
Proof.
  induction l as [|c l (sp & Hl & Hsp)]; cbn.
  - exists []. split; [reflexivity|constructor].
  - destruct (Js.is_space c) eqn:E.
    + exists (c :: sp). split; [cbn; f_equal; exact Hl|].
      constructor; assumption.
    + exists []. split; [reflexivity|constructor].
Qed.

Lemma drop_spaces_nil (l : list ascii) :
  drop_spaces l = [] ↔ Forall (λ c, Js.is_space c = true) l.
Proof.
  induction l as [|c l IH]; cbn.
  - split; [constructor|reflexivity].
  - destruct (Js.is_space c) eqn:E.
    + rewrite IH. split; [intros H; constructor; assumption|].
      intros H. apply Forall_cons in H as [_ H]. exact H.
    + split; [discriminate|].
      intros H. apply Forall_cons in H as [H _]. congruence.
Qed.

(** Trimming at the end keeps a clean start. *)
Lemma lead_ok_trimmed_end (l : list ascii) :
  lead_ok l → lead_ok (reverse (drop_spaces (reverse l))).
Proof.
  destruct l as [|c l]; [intros _; exact I|]. cbn [lead_ok]. intros Hc.
  rewrite reverse_cons, drop_spaces_snoc by assumption.
  rewrite reverse_app, reverse_singleton. cbn [app lead_ok]. exact Hc.
Qed.

Lemma trim_chars_idempotent (l : list ascii) :
  let T := λ x, reverse (drop_spaces (reverse (drop_spaces x))) in
  T (T l) = T l.
Proof.
  cbv beta zeta.
  rewrite (drop_spaces_id (reverse (drop_spaces (reverse (drop_spaces l)))))
    by (apply lead_ok_trimmed_end, drop_spaces_lead_ok).
  rewrite reverse_involutive.
  rewrite (drop_spaces_id (drop_spaces _)) by apply drop_spaces_lead_ok.
  reflexivity.
Qed.

Lemma trim_idempotent (s : string) : Js.trim (Js.trim s) = Js.trim s.
Proof.
  apply chars_inj. rewrite (chars_trim (Js.trim s)), !chars_trim.
  apply trim_chars_idempotent.
Qed.

Lemma trim_head (s : string) (c : ascii) :
  head (chars (Js.trim s)) = Some c → Js.is_space c = false.
Proof.
  rewrite chars_trim.
  pose proof (lead_ok_trimmed_end (drop_spaces (chars s))
                (drop_spaces_lead_ok _)) as H.
  destruct (reverse _) as [|a l]; cbn in *; [discriminate|].
  intros [= <-]. exact H.
Qed.

Lemma trim_last (s : string) (c : ascii) :
  last (chars (Js.trim s)) = Some c → Js.is_space c = false.
Proof.
  rewrite chars_trim, last_reverse.
  pose proof (drop_spaces_lead_ok (reverse (drop_spaces (chars s)))) as H.
  destruct (drop_spaces _) as [|a l]; cbn in *; [discriminate|].
  intros [= <-]. exact H.
Qed.

Lemma trim_empty (s : string) : Js.trim s = "" ↔ blank s.
Proof.
  unfold blank. split.
  - intros H. apply (f_equal chars) in H. rewrite chars_trim in H. cbn in H.
    apply (f_equal reverse) in H. rewrite reverse_involutive in H. cbn in H.
    apply drop_spaces_nil in H. rewrite Forall_reverse in H.
    pose proof (drop_spaces_lead_ok (chars s)) as Hlead.
    destruct (drop_spaces (chars s)) as [|a l] eqn:E.
    + apply drop_spaces_nil. exact E.
    + apply Forall_cons in H as [H _]. cbn in Hlead. congruence.
  - intros H. apply chars_inj. rewrite chars_trim. cbn.
    apply drop_spaces_nil in H. rewrite H. reflexivity.
Qed.

(** What trimming removes is white space in front and white space
    behind. *)
Lemma trim_split (s : string) :
  ∃ front back, s = front +:+ Js.trim s +:+ back ∧ blank front ∧ blank back.
Proof.
  destruct (drop_spaces_split (chars s)) as (sp1 & H1 & Hsp1).
  destruct (drop_spaces_split (reverse (drop_spaces (chars s))))
    as (sp2 & H2 & Hsp2).
  exists (string_of_list_ascii sp1), (string_of_list_ascii (reverse sp2)).
  unfold blank. rewrite !list_ascii_of_string_of_list_ascii.
  split; [|split; [assumption|apply Forall_reverse; assumption]].
  apply chars_inj. rewrite !chars_app, chars_trim.
  rewrite !list_ascii_of_string_of_list_ascii.
  rewrite <- reverse_app, <- H2, reverse_involutive. exact H1.
Qed.

End Trim.

(** X8. [cleanString] normalises: cleaning what was cleaned changes nothing;
    the result neither begins nor ends with white space, and differs from
    the value given only by white space in front and behind; it is empty
    exactly when the value is missing or white space only. *)
Theorem cleanString_normalises (o : option string) :
  let s := cleanString o in
  cleanString (Some s) = s
  ∧ (∀ c, head (list_ascii_of_string s) = Some c → Js.is_space c = false)
  ∧ (∀ c, last (list_ascii_of_string s) = Some c → Js.is_space c = false)
  ∧ (s = "" ↔ from_option blank True o)
  ∧ (∀ t, o = Some t →
          ∃ front back, t = front +:+ s +:+ back ∧ blank front ∧ blank back).
Proof.
  cbv zeta. destruct o as [t|]; cbn [cleanString from_option].
  - split; [apply trim_idempotent|].
    split; [apply trim_head|]. split; [apply trim_last|].
    split; [apply trim_empty|].
    intros t' [= <-]. apply trim_split.
  - split; [reflexivity|]. split; [discriminate|]. split; [discriminate|].
    split; [tauto|]. discriminate.
Qed.

(* ===================================================================== *)
(** * Which contacts are skipped                                           *)
(* ===================================================================== *)

Lemma email_blank_iff (c : HubSpotObject) : email_blank c ↔ email_of c = "".
Proof.
  unfold email_blank, email_of.
  destruct (prop "email" (properties c)) as [t|]; cbn [from_option cleanString].
  - symmetry. apply trim_empty.
  - tauto.
Qed.

Lemma upsert_and_count_warnings (data : CreateContact.t) (i : string) :
  keeps (same warnings)
    (try_catch
       (ContactService.upsertContactByHubspotId data ;;;
        EtlService.update_status EtlService.incr_contactsProcessed)
       (λ error,
          EtlService.errors_push
            ("Failed to sync contact " +:+ i +:+ ": " +:+ formatError error))).
Proof. keeps_descend same_leaf. Qed.

Lemma syncContact_quiet (c : HubSpotObject) (w : World) :
  email_of c ≠ "" → warnings (snd (EtlService.syncContact c w)) = warnings w.
Proof.
  intros He. unfold email_of in He.
  destruct (transformHubspotContact_run c w) as (cid & Htr & _).
  unfold EtlService.syncContact, try_catch, bind at 1. rewrite Htr.
  cbn [CreateContact.email].
  assert (Js.truthy (cleanString (prop "email" (properties c))) = true) as ->
    by (apply truthy_true; assumption).
  match goal with
  | |- context [ContactService.upsertContactByHubspotId ?d] =>
      exact (upsert_and_count_warnings d (hs_id c) w)
  end.
Qed.

(** X9. A fetched contact is skipped exactly when its email property is
    absent or consists of white space only: then the loop body logs the
    skip warning and does nothing else - no lookup result is used, no
    write, no count, no entry in the error list. Every other contact
    leaves the warnings as they were. *)
Theorem contact_skipped_iff_email_blank (c : HubSpotObject) (w : World) :
  (email_blank c
   ↔ EtlService.syncContact c w
     = (Return tt, set_warnings (warnings w ++ [contact_skipped c]) w))
  ∧ (email_blank c
     ∨ warnings (snd (EtlService.syncContact c w)) = warnings w).
Proof.
  split.
  - split.
    + intros H. apply syncContact_skips. apply email_blank_iff. exact H.
    + intros Hrun. apply email_blank_iff.
      destruct (decide (email_of c = "")) as [E|E]; [exact E|].
      pose proof (syncContact_quiet c w E) as Hq.
      rewrite Hrun in Hq. cbn in Hq.
      apply (f_equal length) in Hq. rewrite length_app in Hq. cbn in Hq. lia.
  - destruct (decide (email_of c = "")) as [E|E].
    + left. apply email_blank_iff. exact E.
    + right. apply syncContact_quiet. exact E.
Qed.

(* ===================================================================== *)
(** * The company of a contact                                             *)
(* ===================================================================== *)

(** X10. The transformer of a contact never fails and changes nothing. It
    copies the external id, trims the email, and resolves the association
    against the company table: the reference it returns is the local id
    of a stored company whose external id is the association, given as
    it came (it is not trimmed); without an association, with an empty
    one, or with one that no stored company carries, the contact gets no
    company reference. *)
Theorem association_resolved_or_dropped (c : HubSpotObject) (w : World) :
  ∃ data,
    EtlService.transformHubspotContact c w = (Return data, w)
    ∧ CreateContact.hubspot_id data = hs_id c
    ∧ CreateContact.email data = cleanString (prop "email" (properties c))
    ∧ match prop "associatedcompanyid" (properties c) with
      | None => CreateContact.company_id data = None
      | Some a =>
          (∀ i, CreateContact.company_id data = Some i →
                ∃ co, co ∈ companies (db w) ∧ Company.id co = i
                      ∧ Company.hubspot_id co = a)
          ∧ (a = "" ∨ a ∉ Company.hubspot_id <$> companies (db w) →
             CreateContact.company_id data = None)
          ∧ (a ≠ "" → a ∈ Company.hubspot_id <$> companies (db w) →
             is_Some (CreateContact.company_id data))
      end.
Proof.
  unfold EtlService.transformHubspotContact, bind at 1.
  destruct (prop "associatedcompanyid" (properties c)) as [a|] eqn:Ha;
    cbn [Js.truthy_opt].
  - destruct (Js.truthy a) eqn:Ht.
    + unfold try_catch, bind, CompanyService.getCompanyByHubspotId, try_catch,
        CompanyRepository.findByHubspotId, Sql.company_where, gets, ret.
      cbn [default].
      eexists. split; [reflexivity|]. cbn [CreateContact.hubspot_id
        CreateContact.email CreateContact.company_id].
      split; [reflexivity|]. split; [reflexivity|].
      apply truthy_true in Ht. cbv beta iota. unfold id.
      split; [|split].
      * intros i Hi.
        destruct (head _) as [co|] eqn:Hhead; [|discriminate].
        apply (head_filter_elem Company.hubspot_id) in Hhead as [Hin Hext].
        injection Hi as <-. eauto.
      * intros [->|Hnot]; [congruence|].
        rewrite (filter_key_absent Company.hubspot_id) by assumption.
        reflexivity.
      * intros _ Hin. 
        destruct (head_filter_key Company.hubspot_id _ _ Hin) as (r & -> & _).
        eexists. reflexivity.
    + apply truthy_false in Ht. subst a.
      eexists. split; [reflexivity|]. cbn.
      split; [reflexivity|]. split; [reflexivity|].
      split; [discriminate|]. split; [reflexivity|]. congruence.
  - eexists. split; [reflexivity|]. cbn. repeat split; reflexivity.
Qed.

(* ===================================================================== *)
(** * An empty cursor                                                      *)
(* ===================================================================== *)

(** X11. A page that announces a successor under the empty cursor does not
    move the traversal on: the cursor is tested for truth before it is
    sent, so the request that follows carries no [after] parameter and
    is the first request again. With such a page followed by a page
    that announces nothing, [getAllContacts] sends the same request
    twice and returns the records of both answers. *)
Theorem empty_cursor_repeats_the_first_request
    (w : World) (p last : ResponseData) (nx : Next)
    (rest : list HttpResponse) :
  upstream w = HttpOk p :: HttpOk last :: rest →
  paging p ≫= next = Some nx →
  after nx = "" →
  paging last ≫= next = None →
  let first_request :=
    EvRequest {| url := HubSpotApiService.contacts_path;
                 params := [("limit", "100");
                            ("properties", contact_properties)] |} in
  HubSpotApiService.getAllContacts w
  = (Return (results p ++ results last),
     set_upstream rest
       (set_trace (trace w ++ [first_request; first_request]) w)).
Proof.
  intros Hup Hnx Hafter Hlast first_request.
  unfold HubSpotApiService.getAllContacts.
  rewrite (fetch_pages_run _ _ [p] _ [] None w last rest);
    [| exact Hup | repeat constructor; rewrite Hnx; eexists; reflexivity
     | exact Hlast | rewrite Hup; cbn; lia].
  cbn. rewrite app_nil_r.
  unfold next_cursor. rewrite Hnx. cbn. rewrite Hafter.
  reflexivity.
Qed.

Lemma empty_cursor_repeats_the_first_request_witness :
  fst (HubSpotApiService.getAllContacts Fixture.empty_cursor)
  = Return (results Fixture.looping_page ++ results Sample.second_page).
Proof.
  pose proof (empty_cursor_repeats_the_first_request Fixture.empty_cursor
                Fixture.looping_page Sample.second_page
                {| after := ""; link := "https://api.hubapi.com/next" |}
                [] eq_refl eq_refl eq_refl eq_refl) as H.
  cbv zeta in H. rewrite H. reflexivity.
Defined.

(* ===================================================================== *)
(** * The company phase on a consistent table                              *)
(* ===================================================================== *)

Section CompanyStep.

Variables (w : World) (c : HubSpotObject).

Let data := EtlService.transformHubspotCompany c.

Lemma syncCompany_new :
  hs_id c ∉ Company.hubspot_id <$> companies (db w) →
  uuid w (uuid_next w) ∉ Company.id <$> companies (db w) →
  let row := {| Company.id := uuid w (uuid_next w);
                Company.hubspot_id := hs_id c;
                Company.name := CreateCompany.name data;
                Company.domain := CreateCompany.domain data;
                Company.created_at := clock w (clock_next w) |} in
  EtlService.syncCompany c w
  = (Return tt,
     let d' := {| companies := companies (db w) ++ [row];
                  contacts := contacts (db w) |} in
     set_syncStatus (EtlService.incr_companiesProcessed (syncStatus w))
       (set_trace (trace w ++ [EvWrite (db w) d'])
          (set_db d'
             (set_clock_next (S (clock_next w))
                (set_uuid_next (S (uuid_next w)) w))))).
Proof.
  intros Hext Hid. subst data. rewrite syncCompany_upserts.
  unfold try_catch, bind at 1, CompanyService.upsertCompanyByHubspotId,
    try_catch.
  rewrite upsert_company_new by assumption.
  unfold EtlService.update_status, modify. cbn. reflexivity.
Qed.

Lemma syncCompany_existing (r : Company.t) :
  companies_ok (db w) →
  r ∈ companies (db w) →
  Company.hubspot_id r = hs_id c →
  EtlService.syncCompany c w
  = (Return tt,
     let d' := {| companies :=
                    Sql.rewrite_rows Company.id (Company.id r)
                      (Sql.set_company (CreateCompany_as_update data))
                      (companies (db w));
                  contacts := contacts (db w) |} in
     set_syncStatus (EtlService.incr_companiesProcessed (syncStatus w))
       (set_trace (trace w ++ [EvWrite (db w) d']) (set_db d' w))).
Proof.
  intros Hok Hr Hext. subst data. rewrite syncCompany_upserts.
  unfold try_catch, bind at 1, CompanyService.upsertCompanyByHubspotId,
    try_catch.
  rewrite (upsert_company_existing _ _ r) by assumption.
  unfold EtlService.update_status, modify. cbn. reflexivity.
Qed.

End CompanyStep.

Lemma iter_incr_companiesProcessed (k : nat) (s : EtlSyncStatus) :
  let s' := Nat.iter k EtlService.incr_companiesProcessed s in
  companiesProcessed s' = companiesProcessed s + k
  ∧ contactsProcessed s' = contactsProcessed s
  ∧ isRunning s' = isRunning s
  ∧ startedAt s' = startedAt s
  ∧ completedAt s' = completedAt s
  ∧ errors s' = errors s.
Proof.
  cbv zeta. induction k as [|k IH].
  - cbn. repeat split; lia.
  - destruct IH as (H1 & H2 & H3 & H4 & H5 & H6).
    rewrite Nat.iter_succ.
    cbn [EtlService.incr_companiesProcessed contactsProcessed
           companiesProcessed isRunning startedAt completedAt errors].
    repeat split; try assumption. rewrite H1. lia.
Qed.

(** On a consistent company table, with identifiers that are new, the
    loop of the company phase stores and counts every company of the
    list. *)
Lemma company_loop_stores (cs : list HubSpotObject) :
  ∀ w,
    companies_ok (db w) →
    (∀ n, uuid_next w ≤ n → uuid w n ∉ Company.id <$> companies (db w)) →
    (∀ n m, uuid_next w ≤ n → uuid_next w ≤ m → uuid w n = uuid w m → n = m) →
    ∃ w',
      for_of cs EtlService.syncCompany w = (Return tt, w')
      ∧ syncStatus w'
        = Nat.iter (length cs) EtlService.incr_companiesProcessed (syncStatus w)
      ∧ heap w' = heap w
      ∧ warnings w' = warnings w
      ∧ upstream w' = upstream w
      ∧ contacts (db w') = contacts (db w)
      ∧ companies_ok (db w')
      ∧ (∀ h, h ∈ Company.hubspot_id <$> companies (db w) →
              h ∈ Company.hubspot_id <$> companies (db w'))
      ∧ (∀ c, c ∈ cs → hs_id c ∈ Company.hubspot_id <$> companies (db w')).
Proof.
  induction cs as [|c cs IH]; intros w Hok Hfresh Hinj.
  - exists w. cbn. repeat split; auto; try apply Hok.
    intros c Hc. inversion Hc.
  - cbn [for_of]. unfold bind.
    pose proof Hok as [Hids Hhs].
    destruct (decide (hs_id c ∈ Company.hubspot_id <$> companies (db w)))
      as [Hin|Hnot].
    + apply list_elem_of_fmap in Hin as (r & Hext & Hr). symmetry in Hext.
      rewrite (syncCompany_existing w c r Hok Hr Hext).
      match goal with
      | |- context [for_of cs EtlService.syncCompany ?w1] =>
          destruct (IH w1)
            as (w' & Hrun' & Hst & Hheap & Hwarn & Hup & Hcon & Hok' & Hkeep
                & Hrows)
      end.
      * cbn. apply rewritten_companies_ok; assumption.
      * cbn. intros n Hn.
        rewrite (rewrite_rows_keys Company.id) by reflexivity.
        apply Hfresh. exact Hn.
      * cbn. exact Hinj.
      * exists w'. split; [exact Hrun'|].
        cbn in Hst, Hheap, Hwarn, Hup, Hcon, Hkeep.
        rewrite (rewrite_rows_keys Company.hubspot_id) in Hkeep.
        2:{ intros x Hx Hid. cbn.
            assert (x = r) as ->
              by (eapply (key_determines_row Company.id); eauto).
            symmetry. exact Hext. }
        rewrite Hst, Hheap, Hwarn, Hup, Hcon.
        split; [rewrite <- Nat.iter_succ_r; reflexivity|].
        split; [reflexivity|]. split; [reflexivity|]. split; [reflexivity|].
        split; [reflexivity|]. split; [exact Hok'|].
        split; [exact Hkeep|].
        intros c' Hc'. apply elem_of_cons in Hc' as [->|Hc'].
        -- apply Hkeep. rewrite <- Hext. apply list_elem_of_fmap. eauto.
        -- apply Hrows. exact Hc'.
    + rewrite (syncCompany_new w c Hnot (Hfresh _ (le_n _))).
      match goal with
      | |- context [for_of cs EtlService.syncCompany ?w1] =>
          destruct (IH w1)
            as (w' & Hrun' & Hst & Hheap & Hwarn & Hup & Hcon & Hok' & Hkeep
                & Hrows)
      end.
      * cbn. split; cbn [companies]; rewrite fmap_app; cbn [fmap list_fmap];
          apply NoDup_app; (split; [assumption|]);
          (split; [|apply NoDup_singleton]);
          intros x Hx Hx'; apply list_elem_of_singleton in Hx'; subst x.
        -- apply (Hfresh (uuid_next w)); [lia|exact Hx].
        -- apply Hnot. exact Hx.
      * cbn. intros n Hn Hin. rewrite fmap_app in Hin.
        apply elem_of_app in Hin as [Hin|Hin].
        -- apply (Hfresh n); [lia|exact Hin].
        -- cbn in Hin. apply list_elem_of_singleton in Hin.
           apply Hinj in Hin; lia.
      * cbn. intros n m Hn Hm. apply Hinj; lia.
      * exists w'. split; [exact Hrun'|].
        cbn in Hst, Hheap, Hwarn, Hup, Hcon, Hkeep.
        rewrite Hst, Hheap, Hwarn, Hup, Hcon.
        split; [rewrite <- Nat.iter_succ_r; reflexivity|].
        split; [reflexivity|]. split; [reflexivity|]. split; [reflexivity|].
        split; [reflexivity|]. split; [exact Hok'|].
        split.
        -- intros h Hh. apply Hkeep. rewrite fmap_app.
           apply elem_of_app. left. exact Hh.
        -- intros c' Hc'. apply elem_of_cons in Hc' as [->|Hc'].
           ++ apply Hkeep. rewrite fmap_app. apply elem_of_app. right.
              cbn. left.
           ++ apply Hrows. exact Hc'.
Qed.

(** X12. On a consistent company table, and as long as the identifiers drawn
    for new rows are unused, the loop of the company phase cannot fail on
    a record: every company of the list is stored - afterwards its
    external id is in the table, next to the ones that were there - and
    counted; the error list and the warnings stay as they were, the
    contact table is not touched, and the table is consistent again. A
    company that comes twice is stored once. *)
Theorem company_phase_stores_every_company
    (cs : list HubSpotObject) (w : World) :
  companies_ok (db w) →
  (∀ n, uuid_next w ≤ n → uuid w n ∉ Company.id <$> companies (db w)) →
  (∀ n m, uuid_next w ≤ n → uuid_next w ≤ m → uuid w n = uuid w m → n = m) →
  ∃ w',
    for_of cs EtlService.syncCompany w = (Return tt, w')
    ∧ companiesProcessed (syncStatus w')
      = companiesProcessed (syncStatus w) + length cs
    ∧ status_errors w' = status_errors w
    ∧ warnings w' = warnings w
    ∧ contacts (db w') = contacts (db w)
    ∧ companies_ok (db w')
    ∧ (∀ h, h ∈ Company.hubspot_id <$> companies (db w) →
            h ∈ Company.hubspot_id <$> companies (db w'))
    ∧ (∀ c, c ∈ cs → hs_id c ∈ Company.hubspot_id <$> companies (db w')).
Proof.
  intros Hok Hfresh Hinj.
  destruct (company_loop_stores cs w Hok Hfresh Hinj)
    as (w' & Hrun & Hst & Hheap & Hwarn & _ & Hcon & Hok' & Hkeep & Hrows).
  destruct (iter_incr_companiesProcessed (length cs) (syncStatus w))
    as (Hn & _ & _ & _ & _ & Hloc).
  exists w'. split; [exact Hrun|].
  split; [rewrite Hst; exact Hn|].
  split; [unfold status_errors, array_read; rewrite Hst, Hloc, Hheap;
          reflexivity|].
  split; [exact Hwarn|]. split; [exact Hcon|]. split; [exact Hok'|].
  split; [exact Hkeep|exact Hrows].
Qed.

Lemma company_phase_stores_every_company_witness :
  ∃ w',
    for_of [Sample.obj "900" [("name", "Acme Corp")];
            Sample.obj "901" [("name", "Bolt"); ("domain", "bolt.io")];
            Sample.obj "900" [("name", "Acme"); ("domain", "acme.com")]]
      EtlService.syncCompany Sample.with_acme = (Return tt, w')
    ∧ companiesProcessed (syncStatus w') = 3
    ∧ "901" ∈ Company.hubspot_id <$> companies (db w').
Proof.
  destruct (company_phase_stores_every_company
              [Sample.obj "900" [("name", "Acme Corp")];
               Sample.obj "901" [("name", "Bolt"); ("domain", "bolt.io")];
               Sample.obj "900" [("name", "Acme"); ("domain", "acme.com")]]
              Sample.with_acme)
    as (w' & Hrun & Hn & _ & _ & _ & _ & _ & Hrows).
  - split; cbn; repeat constructor; intros H; inversion H.
  - intros n _ Hin. cbn in Hin. apply list_elem_of_singleton in Hin.
    unfold Sample.nth_uuid in Hin. discriminate.
  - intros n m _ _. apply nth_uuid_inj.
  - exists w'. split; [exact Hrun|]. split; [exact Hn|].
    apply (Hrows (Sample.obj "901" [("name", "Bolt"); ("domain", "bolt.io")])).
    right. left.
Defined.

(** X13. A run does not undo what it has written. When the health check and
    the company traversal succeed and a request of the contact traversal
    is refused, [syncCrmData] throws the general [AppError] with status
    500, and the company phase stays in effect: on a company table that
    was consistent (the identifiers drawn for new rows being unused)
    every fetched company is stored and counted. No contact is asked
    about further, written or counted, and the message of the refused
    request is the one entry of the error list. *)
Theorem contact_traversal_failure_keeps_companies
    (w : World) (h : ResponseData)
    (cpages : list ResponseData) (clast : ResponseData)
    (kpages : list ResponseData) (m : string) (rest : list HttpResponse) :
  isRunning (syncStatus w) = false →
  upstream w
  = HttpOk h :: (HttpOk <$> cpages) ++ HttpOk clast
      :: (HttpOk <$> kpages) ++ HttpFail m :: rest →
  Forall (λ p, is_Some (paging p ≫= next)) cpages →
  paging clast ≫= next = None →
  Forall (λ p, is_Some (paging p ≫= next)) kpages →
  companies_ok (db w) →
  (∀ n, uuid_next w ≤ n → uuid w n ∉ Company.id <$> companies (db w)) →
  (∀ n m, uuid_next w ≤ n → uuid_next w ≤ m → uuid w n = uuid w m → n = m) →
  let fetched := concat (results <$> cpages) ++ results clast in
  let r := EtlService.syncCrmData w in
  fst r = Throw (AppError "ETL sync failed due to an unexpected error" 500)
  ∧ (∀ c, c ∈ fetched →
          hs_id c ∈ Company.hubspot_id <$> companies (db (snd r)))
  ∧ companiesProcessed (syncStatus (snd r)) = length fetched
  ∧ contacts (db (snd r)) = contacts (db w)
  ∧ contactsProcessed (syncStatus (snd r)) = 0
  ∧ status_errors (snd r) = [m]
  ∧ isRunning (syncStatus (snd r)) = false
  ∧ upstream (snd r) = rest.
Proof.
  intros Hidle Hup Hcp Hcl Hkp Hok Hfresh Hinj fetched. cbv zeta.
  destruct (EtlService.syncCrmData w) as [res w'] eqn:Hrun. cbn [fst snd].
  unfold EtlService.syncCrmData, bind at 1, gets in Hrun. rewrite Hidle in Hrun.
  unfold bind at 1, getCurrentTimestamp in Hrun.
  unfold bind at 1, new_array in Hrun.
  unfold bind at 1, modify in Hrun.
  match type of Hrun with
  | try_catch _ _ ?w1 = _ => set (w1' := w1) in Hrun
  end.
  unfold try_catch, bind at 1 in Hrun.
  destruct (healthCheck_run w1')
    as (w2 & Hh & Hdb2 & _ & Hst2 & Hheap2 & _ & Hup2 & Hu2 & Hun2 & _).
  rewrite Hh in Hrun.
  assert (upstream_reachable w1' = true) as Hreach
    by (unfold upstream_reachable; subst w1'; cbn; rewrite Hup; reflexivity).
  rewrite Hreach in Hrun. cbn [negb] in Hrun.
  unfold bind at 1, ret in Hrun. unfold bind at 1 in Hrun.
  assert (upstream w2 = (HttpOk <$> cpages) ++ HttpOk clast
                          :: (HttpOk <$> kpages) ++ HttpFail m :: rest) as Hup2'
    by (rewrite Hup2; subst w1'; cbn; rewrite Hup; reflexivity).
  unfold EtlService.syncCompanies, bind at 1 in Hrun.
  rewrite (getAllCompanies_run w2 cpages clast _ Hup2' Hcp Hcl) in Hrun.
  fold fetched in Hrun.
  match type of Hrun with
  | context [for_of fetched EtlService.syncCompany ?w3] =>
      destruct (company_loop_stores fetched w3)
        as (w4 & Hloop & Hst4 & Hheap4 & _ & Hup4 & Hcon4 & _ & _ & Hrows)
  end.
  { cbn. rewrite Hdb2. exact Hok. }
  { cbn. rewrite Hdb2, Hu2, Hun2. exact Hfresh. }
  { cbn. rewrite Hu2, Hun2. exact Hinj. }
  rewrite Hloop in Hrun. unfold bind at 1 in Hrun.
  cbn in Hst4, Hheap4, Hup4, Hcon4.
  unfold EtlService.syncContacts, bind at 1 in Hrun.
  destruct (failing_page_run w4 kpages m rest Hup4 Hkp) as [Hfail _].
  rewrite Hfail in Hrun.
  unfold bind, getCurrentTimestamp, EtlService.update_status, modify,
    EtlService.errors_push, array_push, modify, gets, throw in Hrun.
  cbn in Hrun. injection Hrun as <- <-.
  destruct (iter_incr_companiesProcessed (length fetched) (syncStatus w2))
    as (Hn & Hk & _ & _ & _ & Hloc).
  unfold status_errors, array_read. cbn.
  rewrite Hst4, Hloc, Hheap4, Hheap2, Hn, Hk, Hcon4, Hdb2, Hst2.
  subst w1'. cbn.
  rewrite alter_at_end, lookup_at_end. cbn.
  split; [reflexivity|]. split; [exact Hrows|].
  repeat split; reflexivity.
Qed.

Lemma contact_traversal_failure_keeps_companies_witness :
  fst (EtlService.syncCrmData Fixture.contacts_refused)
  = Throw (AppError "ETL sync failed due to an unexpected error" 500)
  ∧ "900" ∈ Company.hubspot_id
            <$> companies (db (snd (EtlService.syncCrmData
                                      Fixture.contacts_refused))).
Proof.
  pose proof (contact_traversal_failure_keeps_companies
                Fixture.contacts_refused
                {| results := []; paging := None |}
                [] Sample.companies_page []
                "Request failed with status code 429" []
                eq_refl eq_refl) as H.
  destruct H as (H1 & H2 & _).
  - constructor.
  - reflexivity.
  - constructor.
  - split; cbn; constructor.
  - intros n _ Hin. cbn in Hin. inversion Hin.
  - intros n m _ _. apply nth_uuid_inj.
  - split; [exact H1|].
    apply (H2 (Sample.obj "900" [("name", "Acme"); ("domain", "acme.com")])).
    left.
Defined.

(* ===================================================================== *)
(** * The errors of the services                                           *)
(* ===================================================================== *)

Lemma service_error_intro (m : string) (code : nat) :
  code ∈ [400; 404; 409; 500] → service_error (AppError m code).
Proof. intros H. exists m, code. auto. Qed.

(** The [catch] block of the service methods. *)
Lemma throws_rethrow {A} (P : Exn → Prop) (body : M A) (fallback : Exn) :
  throws (λ e, foreign e ∨ P e) body →
  P fallback →
  throws P
    (try_catch body
       (λ error,
          if instanceof_AppError error then throw error else throw fallback)).
Proof.
  intros Hbody Hfallback.
  eapply throws_try_catch; [exact Hbody|].
  intros e [Hf|HP].
  - unfold foreign in Hf. rewrite Hf. apply throws_throw. exact Hfallback.
  - destruct (instanceof_AppError e); apply throws_throw; assumption.
Qed.

(** The [catch] block that replaces whatever it caught. *)
Lemma throws_replace {A} (P : Exn → Prop) (body : M A) (fallback : Exn) :
  P fallback → throws P (try_catch body (λ _, throw fallback)).
Proof.
  intros Hfallback.
  eapply throws_try_catch; [apply throws_anything|].
  intros e _. apply throws_throw. exact Hfallback.
Qed.

Lemma throws_delete_company (i : string) :
  throws foreign (SqlDelete.company i).
Proof.
  intros w e. unfold SqlDelete.company, throw, bind, Sql.commit, modify, ret.
  case_match; cbn; intros [= <-]; reflexivity.
Qed.

Lemma throws_delete_contact (P : Exn → Prop) (i : string) :
  throws P (SqlDelete.contact i).
Proof.
  intros w e. unfold SqlDelete.contact, bind, Sql.commit, modify, ret.
  cbn. discriminate.
Qed.

(** Leaves of a service body: an [AppError] thrown by name, or a
    statement of the store. *)
Ltac service_leaf :=
  first
    [ apply throws_throw; right; apply service_error_intro;
      repeat first [left; fail | constructor]
    | eapply throws_weaken;
      [|first [ apply throws_insert_company | apply throws_update_company
              | apply throws_insert_contact | apply throws_update_contact
              | apply throws_delete_company ]];
      intros ? ?; left; assumption
    | apply throws_delete_contact ].

Ltac service_body :=
  throws_descend service_leaf.

Ltac service_method :=
  repeat lazymatch goal with
    | |- throws _ (if ?b then _ else _) => destruct b
    end;
  first
    [ apply throws_throw; apply service_error_intro;
      repeat first [left; fail | constructor]
    | apply throws_rethrow;
      [service_body
      |apply service_error_intro; repeat first [left; fail | constructor]]
    | apply throws_replace;
      apply service_error_intro; repeat first [left; fail | constructor] ].

(** A statement that the store rejects has written nothing: when an
    upsert of a repository fails, the database is as it was. *)
Lemma upsert_company_rejected (d : CreateCompany.t) (w : World) (e : Exn) :
  fst (CompanyRepository.upsertByHubspotId d w) = Throw e →
  foreign e ∧ db (snd (CompanyRepository.upsertByHubspotId d w)) = db w.
Proof.
  destruct (CompanyRepository.upsertByHubspotId d w) as [res w'] eqn:Hrun.
  cbn [fst snd]. intros ->. revert Hrun.
  unfold CompanyRepository.upsertByHubspotId, bind,
    CompanyRepository.findByHubspotId, Sql.company_where, gets.
  cbn [fst snd].
  destruct (head _) as [r|].
  - unfold CompanyRepository.update, bind, CompanyRepository.findById,
      Sql.company_where, gets. cbn [fst snd].
    destruct (head _) as [r'|]; [|discriminate].
    cbn [CreateCompany_as_update UpdateCompany.hubspot_id].
    unfold bind, Sql.update_company, Sql.commit, modify, throw.
    destruct (Sql.collides _ _ _ _ _); cbn.
    + intros [= <- <-]. split; reflexivity.
    + discriminate.
  - unfold CompanyRepository.create, bind, generateId, getCurrentTimestamp,
      Sql.insert_company, Sql.commit, modify, throw, ret. cbn.
    repeat case_bool_decide; cbn; try discriminate;
      intros [= <- <-]; split; reflexivity.
Qed.

Lemma upsert_contact_rejected (d : CreateContact.t) (w : World) (e : Exn) :
  fst (ContactRepository.upsertByHubspotId d w) = Throw e →
  foreign e ∧ db (snd (ContactRepository.upsertByHubspotId d w)) = db w.
Proof.
  destruct (ContactRepository.upsertByHubspotId d w) as [res w'] eqn:Hrun.
  cbn [fst snd]. intros ->. revert Hrun.
  unfold ContactRepository.upsertByHubspotId, bind,
    ContactRepository.findByHubspotId, Sql.contact_where, gets.
  cbn [fst snd].
  destruct (head _) as [r|].
  - unfold ContactRepository.update, bind, ContactRepository.findById,
      Sql.contact_where, gets. cbn [fst snd].
    destruct (head _) as [r'|]; [|discriminate].
    cbn [CreateContact_as_update UpdateContact.hubspot_id].
    unfold bind, Sql.update_contact, Sql.commit, modify, throw.
    repeat match goal with
           | |- context [if ?b then _ else _] => destruct b; cbn
           end;
      try discriminate; intros [= <- <-]; split; reflexivity.
  - unfold ContactRepository.create, bind, generateId, getCurrentTimestamp,
      Sql.insert_contact, Sql.commit, modify, throw, ret. cbn.
    repeat match goal with
           | |- context [if ?b then _ else _] => destruct b; cbn
           end;
      try discriminate; intros [= <- <-]; split; reflexivity.
Qed.

(** X14. No rejection by the store reaches the caller of a writing method
    as it is. Whatever [createCompany], [updateCompany], [deleteCompany],
    [upsertCompanyByHubspotId], [createContact], [updateContact],
    [deleteContact] or [upsertContactByHubspotId] throws is an
    [AppError] whose status is 400, 404, 409 or 500 - never the error of
    the store itself, which is what a UNIQUE, PRIMARY KEY or FOREIGN KEY
    constraint answers with. For the two upserts, whose body is the call
    of the repository and nothing else, every failure of the repository
    comes out as the general error of the method with status 500, and
    the database is then as it was before the call. *)
Theorem store_rejections_are_wrapped :
  (∀ d, throws service_error (CompanyServiceCrud.createCompany d))
  ∧ (∀ id u, throws service_error (CompanyServiceCrud.updateCompany id u))
  ∧ (∀ id, throws service_error (CompanyServiceCrud.deleteCompany id))
  ∧ (∀ d, throws service_error (CompanyService.upsertCompanyByHubspotId d))
  ∧ (∀ d, throws service_error (ContactService.createContact d))
  ∧ (∀ id u, throws service_error (ContactServiceCrud.updateContact id u))
  ∧ (∀ id, throws service_error (ContactServiceCrud.deleteContact id))
  ∧ (∀ d, throws service_error (ContactService.upsertContactByHubspotId d))
  ∧ (∀ d w e,
       fst (CompanyRepository.upsertByHubspotId d w) = Throw e →
       foreign e
       ∧ fst (CompanyService.upsertCompanyByHubspotId d w)
         = Throw (AppError "Failed to upsert company" 500)
       ∧ db (snd (CompanyService.upsertCompanyByHubspotId d w)) = db w)
  ∧ (∀ d w e,
       fst (ContactRepository.upsertByHubspotId d w) = Throw e →
       foreign e
       ∧ fst (ContactService.upsertContactByHubspotId d w)
         = Throw (AppError "Failed to upsert contact" 500)
       ∧ db (snd (ContactService.upsertContactByHubspotId d w)) = db w).
Proof.
  repeat match goal with |- _ ∧ _ => split end; intros.
  - unfold CompanyServiceCrud.createCompany. service_method.
  - unfold CompanyServiceCrud.updateCompany. service_method.
  - unfold CompanyServiceCrud.deleteCompany, CompanyRepositoryCrud.delete.
    service_method.
  - unfold CompanyService.upsertCompanyByHubspotId. service_method.
  - unfold ContactService.createContact. service_method.
  - unfold ContactServiceCrud.updateContact. service_method.
  - unfold ContactServiceCrud.deleteContact, ContactRepositoryCrud.delete.
    service_method.
  - unfold ContactService.upsertContactByHubspotId. service_method.
  - match goal with H : fst _ = Throw _ |- _ =>
      destruct (upsert_company_rejected _ _ _ H) as [Hf Hdb]; revert H Hdb
    end.
    unfold CompanyService.upsertCompanyByHubspotId, try_catch.
    destruct (CompanyRepository.upsertByHubspotId d w) as [[r|e'] w1];
      cbn; [discriminate|].
    intros _ Hdb. auto.
  - match goal with H : fst _ = Throw _ |- _ =>
      destruct (upsert_contact_rejected _ _ _ H) as [Hf Hdb]; revert H Hdb
    end.
    unfold ContactService.upsertContactByHubspotId, try_catch.
    destruct (ContactRepository.upsertByHubspotId d w) as [[r|e'] w1];
      cbn; [discriminate|].
    intros _ Hdb. auto.
Qed.

(** The contact "601" with the email that the stored contact "501"
    holds: the UNIQUE constraint rejects the insert, and the caller of
    the upsert gets the status 500. *)
Lemma store_rejections_are_wrapped_witness :
  let held := {| CreateContact.hubspot_id := "601";
                 CreateContact.firstname := None;
                 CreateContact.lastname := None;
                 CreateContact.email := "ann@example.com";
                 CreateContact.company_id := None |} in
  fst (ContactRepository.upsertByHubspotId held Sample.with_ann)
  = Throw (Sql.constraint_failed "UNIQUE constraint failed: contacts.email")
  ∧ fst (ContactService.upsertContactByHubspotId held Sample.with_ann)
    = Throw (AppError "Failed to upsert contact" 500)
  ∧ db (snd (ContactService.upsertContactByHubspotId held Sample.with_ann))
    = db Sample.with_ann.
Proof.
  cbv zeta.
  assert (fst (ContactRepository.upsertByHubspotId
                 {| CreateContact.hubspot_id := "601";
                    CreateContact.firstname := None;
                    CreateContact.lastname := None;
                    CreateContact.email := "ann@example.com";
                    CreateContact.company_id := None |} Sample.with_ann)
          = Throw (Sql.constraint_failed
                     "UNIQUE constraint failed: contacts.email")) as Hrepo
    by (vm_compute; reflexivity).
  split; [exact Hrepo|].
  destruct store_rejections_are_wrapped as (_ & _ & _ & _ & _ & _ & _ & _ & _ & H).
  destruct (H _ _ _ Hrepo) as (_ & H1 & H2).
  split; assumption.
Defined.

(* ===================================================================== *)
(** * Deleting                                                             *)
(* ===================================================================== *)

Lemma filter_ne_absent {R} (rid : R → string) (i : string) (l : list R) :
  filter (λ r, rid r = i) l = [] → filter (λ r, rid r ≠ i) l = l.
Proof.
  induction l as [|a l IH]; [reflexivity|].
  destruct (decide (rid a = i)) as [Ha|Ha].
  - rewrite filter_cons_True by exact Ha. discriminate.
  - rewrite filter_cons_False by exact Ha.
    rewrite (filter_cons_True (λ r, rid r ≠ i)) by exact Ha.
    intros H. f_equal. apply IH. exact H.
Qed.

Lemma filter_hit_nonempty {R} (rid : R → string) (i : string) (l : list R) :
  i ∈ rid <$> l ↔ filter (λ r, rid r = i) l ≠ [].
Proof.
  split.
  - intros Hin Hnil. apply list_elem_of_fmap in Hin as (r & -> & Hr).
    assert (r ∈ filter (λ x, rid x = rid r) l) as H
      by (apply list_elem_of_filter; auto).
    rewrite Hnil in H. inversion H.
  - intros Hne. destruct (filter (λ r, rid r = i) l) as [|r tl] eqn:E;
      [contradiction|].
    assert (r ∈ filter (λ x, rid x = i) l) as H by (rewrite E; left).
    apply list_elem_of_filter in H as [<- H].
    apply list_elem_of_fmap. eauto.
Qed.

Lemma NoDup_fmap_filter {R} (key : R → string) (P : R → Prop)
    `{∀ x, Decision (P x)} (l : list R) :
  NoDup (key <$> l) → NoDup (key <$> filter P l).
Proof.
  induction l as [|a l IH]; [intros _; constructor|].
  rewrite fmap_cons, NoDup_cons. intros [Hnot Hnd].
  destruct (decide (P a)) as [Ha|Ha].
  - rewrite filter_cons_True by exact Ha. rewrite fmap_cons.
    apply NoDup_cons. split; [|apply IH; exact Hnd].
    intros Hin. apply Hnot.
    apply list_elem_of_fmap in Hin as (x & Hx & Hx').
    apply list_elem_of_filter in Hx' as [_ Hx'].
    apply list_elem_of_fmap. eauto.
  - rewrite filter_cons_False by exact Ha. apply IH. exact Hnd.
Qed.

Lemma database_eta (d : Database) :
  {| companies := companies d; contacts := contacts d |} = d.
Proof. destruct d. reflexivity. Qed.

(** X15. A company that a contact refers to cannot be deleted: the store
    rejects the statement, the service reports status 500 (not 409), and
    nothing at all has changed. *)
Theorem referenced_company_is_not_deleted
    (w : World) (id : string) (k : Contact.t) :
  isValidUuid id = true →
  id ∈ Company.id <$> companies (db w) →
  k ∈ contacts (db w) →
  Contact.company_id k = Some id →
  CompanyServiceCrud.deleteCompany id w
  = (Throw (AppError "Failed to delete company" 500), w).
Proof.
  intros Hid Hin Hk Href.
  unfold CompanyServiceCrud.deleteCompany. rewrite Hid. cbn [negb].
  unfold try_catch, bind at 1, CompanyRepositoryCrud.delete, bind at 1,
    SqlDelete.company.
  rewrite bool_decide_true by (apply filter_hit_nonempty; exact Hin).
  unfold SqlDelete.referenced.
  rewrite bool_decide_true
    by (apply list_elem_of_fmap; exists k; split; [symmetry|]; assumption).
  reflexivity.
Qed.

Lemma referenced_company_is_not_deleted_witness :
  CompanyServiceCrud.deleteCompany Fixture.acme_id Fixture.crm
  = (Throw (AppError "Failed to delete company" 500), Fixture.crm).
Proof.
  apply (referenced_company_is_not_deleted Fixture.crm Fixture.acme_id
           Fixture.ann).
  - reflexivity.
  - left.
  - left.
  - reflexivity.
Defined.

(** X16. Deleting a stored company that no contact refers to removes exactly
    the rows of that id: the other companies stay in their order, the
    contacts are untouched, every reference of a contact still names a
    stored company, and the company can no longer be fetched - asking
    for it gives status 404. *)
Theorem deleted_company_is_gone (w : World) (id : string) :
  isValidUuid id = true →
  id ∈ Company.id <$> companies (db w) →
  Some id ∉ Contact.company_id <$> contacts (db w) →
  ∃ w',
    CompanyServiceCrud.deleteCompany id w = (Return tt, w')
    ∧ companies (db w') = filter (λ r, Company.id r ≠ id) (companies (db w))
    ∧ contacts (db w') = contacts (db w)
    ∧ (id ∉ Company.id <$> companies (db w'))
    ∧ (references_ok (db w) → references_ok (db w'))
    ∧ (companies_ok (db w) → companies_ok (db w'))
    ∧ CompanyServiceCrud.getCompanyById id w'
      = (Throw (AppError ("Company with id " +:+ id +:+ " not found") 404), w').
Proof.
  intros Hid Hin Href.
  unfold CompanyServiceCrud.deleteCompany. rewrite Hid. cbn [negb].
  unfold try_catch, bind at 1, CompanyRepositoryCrud.delete, bind at 1,
    SqlDelete.company.
  unfold SqlDelete.referenced. rewrite (bool_decide_false _ Href).
  rewrite andb_false_r.
  unfold bind, Sql.commit, modify, ret. cbn [fst snd].
  apply filter_hit_nonempty in Hin as Hhit.
  destruct (filter (λ r, Company.id r = id) (companies (db w)))
    as [|r0 tl] eqn:E; [contradiction|].
  cbn [length Nat.ltb Nat.leb negb].
  eexists. split; [reflexivity|]. cbn [db set_trace set_db companies contacts].
  assert (id ∉ (Company.id
                <$> filter (λ r, Company.id r ≠ id) (companies (db w))))
    as Hgone.
  { intros H. apply list_elem_of_fmap in H as (r & Hr & Hr').
    apply list_elem_of_filter in Hr' as [Hne _]. congruence. }
  split; [reflexivity|]. split; [reflexivity|]. split; [exact Hgone|].
  split; [|split].
  - intros Hrefs k c Hk Hc. cbn [companies contacts] in *.
    specialize (Hrefs k c Hk Hc).
    apply list_elem_of_fmap in Hrefs as (r & -> & Hr).
    apply list_elem_of_fmap. exists r. split; [reflexivity|].
    apply list_elem_of_filter. split; [|exact Hr].
    intros Heq. apply Href. apply list_elem_of_fmap. exists k.
    split; [|exact Hk]. rewrite Hc, Heq. reflexivity.
  - intros [Hids Hhs]. split; cbn [companies].
    + apply NoDup_fmap_filter. exact Hids.
    + apply NoDup_fmap_filter. exact Hhs.
  - unfold CompanyServiceCrud.getCompanyById. rewrite Hid. cbn [negb].
    unfold try_catch, bind, CompanyRepository.findById, Sql.company_where, gets.
    cbn [db set_trace set_db companies].
    rewrite (filter_key_absent Company.id) by exact Hgone.
    reflexivity.
Qed.

Lemma deleted_company_is_gone_witness :
  ∃ w',
    CompanyServiceCrud.deleteCompany Fixture.bolt_id Fixture.crm = (Return tt, w')
    ∧ companies (db w') = [Fixture.acme].
Proof.
  destruct (deleted_company_is_gone Fixture.crm Fixture.bolt_id)
    as (w' & Hrun & Hrows & _).
  - reflexivity.
  - right. left.
  - intros H. cbn in H. apply list_elem_of_singleton in H. discriminate.
  - exists w'. split; [exact Hrun|]. rewrite Hrows. reflexivity.
Defined.

(** X17. Deleting a stored contact removes exactly the rows of that id and
    nothing else: the companies are untouched, the table stays
    consistent, and the contact can no longer be fetched - asking for it
    gives status 404. A company whose only contacts were the deleted
    one is no longer referred to, so it can be deleted in turn. *)
Theorem deleted_contact_is_gone (w : World) (id : string) :
  isValidUuid id = true →
  id ∈ Contact.id <$> contacts (db w) →
  ∃ w',
    ContactServiceCrud.deleteContact id w = (Return tt, w')
    ∧ contacts (db w') = filter (λ r, Contact.id r ≠ id) (contacts (db w))
    ∧ companies (db w') = companies (db w)
    ∧ (contacts_ok (db w) → contacts_ok (db w'))
    ∧ (references_ok (db w) → references_ok (db w'))
    ∧ (∀ cid, (∀ k, k ∈ contacts (db w) → Contact.company_id k = Some cid →
                    Contact.id k = id) →
              SqlDelete.referenced cid (db w') = false)
    ∧ ContactServiceCrud.getContactById id w'
      = (Throw (AppError ("Contact with id " +:+ id +:+ " not found") 404), w').
Proof.
  intros Hid Hin.
  unfold ContactServiceCrud.deleteContact. rewrite Hid. cbn [negb].
  unfold try_catch, bind at 1, ContactRepositoryCrud.delete, bind at 1,
    SqlDelete.contact.
  unfold bind, Sql.commit, modify, ret. cbn [fst snd].
  apply filter_hit_nonempty in Hin as Hhit.
  destruct (filter (λ r, Contact.id r = id) (contacts (db w)))
    as [|r0 tl] eqn:E; [contradiction|].
  cbn [length Nat.ltb Nat.leb negb].
  eexists. split; [reflexivity|]. cbn [db set_trace set_db companies contacts].
  split; [reflexivity|]. split; [reflexivity|].
  split; [|split; [|split]].
  - intros [Hids Hhs Hems]. split; cbn [contacts];
      apply NoDup_fmap_filter; assumption.
  - intros Hrefs k c Hk Hc. cbn [companies contacts] in *.
    apply list_elem_of_filter in Hk as [_ Hk]. eapply Hrefs; eauto.
  - intros cid Honly. unfold SqlDelete.referenced. cbn [contacts].
    apply bool_decide_eq_false. intros H.
    apply list_elem_of_fmap in H as (k & Hk & Hk').
    apply list_elem_of_filter in Hk' as [Hne Hk'].
    apply Hne. apply (Honly k Hk'). symmetry. exact Hk.
  - unfold ContactServiceCrud.getContactById. rewrite Hid. cbn [negb].
    unfold try_catch, bind, ContactRepository.findById, Sql.contact_where, gets.
    cbn [db set_trace set_db contacts].
    rewrite (filter_key_absent Contact.id); [reflexivity|].
    intros H. apply list_elem_of_fmap in H as (r & Hr & Hr').
    apply list_elem_of_filter in Hr' as [Hne _]. congruence.
Qed.

Lemma deleted_contact_is_gone_witness :
  ∃ w',
    ContactServiceCrud.deleteContact Fixture.ann_id Fixture.crm = (Return tt, w')
    ∧ contacts (db w') = []
    ∧ SqlDelete.referenced Fixture.acme_id (db w') = false.
Proof.
  destruct (deleted_contact_is_gone Fixture.crm Fixture.ann_id)
    as (w' & Hrun & Hrows & _ & _ & _ & Href & _).
  - reflexivity.
  - left.
  - exists w'. split; [exact Hrun|]. split; [rewrite Hrows; reflexivity|].
    apply Href. intros k Hk _. cbn in Hk.
    apply list_elem_of_singleton in Hk. subst k. reflexivity.
Defined.

(** X18. A delete that fails has not changed the database, whichever way it
    fails: an id that is not a UUID, an id that is not stored, or a
    company that is still referred to. *)
Theorem failed_delete_changes_nothing (w : World) (id : string) :
  (∀ e, fst (CompanyServiceCrud.deleteCompany id w) = Throw e →
        db (snd (CompanyServiceCrud.deleteCompany id w)) = db w)
  ∧ (∀ e, fst (ContactServiceCrud.deleteContact id w) = Throw e →
          db (snd (ContactServiceCrud.deleteContact id w)) = db w).
Proof.
  split; intros e.
  - destruct (CompanyServiceCrud.deleteCompany id w) as [res w'] eqn:Hrun.
    cbn [fst snd]. intros ->.
    unfold CompanyServiceCrud.deleteCompany in Hrun.
    destruct (isValidUuid id); cbn [negb] in Hrun;
      [|injection Hrun as _ <-; reflexivity].
    unfold try_catch, bind at 1, CompanyRepositoryCrud.delete, bind at 1,
      SqlDelete.company in Hrun.
    destruct (bool_decide _ && _); [injection Hrun as _ <-; reflexivity|].
    unfold bind, Sql.commit, modify, ret in Hrun. cbn [fst snd] in Hrun.
    destruct (filter (λ r, Company.id r = id) (companies (db w)))
      as [|r0 tl] eqn:E; cbn [length Nat.ltb Nat.leb negb] in Hrun;
      [|discriminate].
    cbn in Hrun. injection Hrun as _ <-. cbn.
    rewrite (filter_ne_absent Company.id) by exact E.
    apply database_eta.
  - destruct (ContactServiceCrud.deleteContact id w) as [res w'] eqn:Hrun.
    cbn [fst snd]. intros ->.
    unfold ContactServiceCrud.deleteContact in Hrun.
    destruct (isValidUuid id); cbn [negb] in Hrun;
      [|injection Hrun as _ <-; reflexivity].
    unfold try_catch, bind at 1, ContactRepositoryCrud.delete, bind at 1,
      SqlDelete.contact in Hrun.
    unfold bind, Sql.commit, modify, ret in Hrun. cbn [fst snd] in Hrun.
    destruct (filter (λ r, Contact.id r = id) (contacts (db w)))
      as [|r0 tl] eqn:E; cbn [length Nat.ltb Nat.leb negb] in Hrun;
      [|discriminate].
    cbn in Hrun. injection Hrun as _ <-. cbn.
    rewrite (filter_ne_absent Contact.id) by exact E.
    apply database_eta.
Qed.

(* ===================================================================== *)
(** * Creating                                                             *)
(* ===================================================================== *)

Lemma head_filter_None {R} (key : R → string) (v : string) (l : list R) :
  head (filter (λ x, key x = v) l) = None → v ∉ key <$> l.
Proof.
  intros Hh Hin.
  destruct (head_filter_key key l v Hin) as (r & Hr & _). congruence.
Qed.

(** X19. [createCompany] creates a company once. For an external id that is
    not stored (the identifier drawn being unused) it appends the row
    built from the candidate, a fresh local id and the current time, and
    returns it; the table stays consistent, and the company is found
    under its external id. For an external id that is stored it throws
    [AppError] with status 409 and changes nothing - so creating the
    same candidate again is refused. *)
Theorem createCompany_creates_once (w : World) (data : CreateCompany.t) :
  companies_ok (db w) →
  uuid w (uuid_next w) ∉ Company.id <$> companies (db w) →
  let c := {| Company.id := uuid w (uuid_next w);
              Company.hubspot_id := CreateCompany.hubspot_id data;
              Company.name := CreateCompany.name data;
              Company.domain := CreateCompany.domain data;
              Company.created_at := clock w (clock_next w) |} in
  (CreateCompany.hubspot_id data ∈ Company.hubspot_id <$> companies (db w) →
   CompanyServiceCrud.createCompany data w
   = (Throw (AppError ("Company with hubspot_id "
                       +:+ CreateCompany.hubspot_id data
                       +:+ " already exists") 409), w))
  ∧ (CreateCompany.hubspot_id data ∉ Company.hubspot_id <$> companies (db w) →
     ∃ w',
       CompanyServiceCrud.createCompany data w = (Return c, w')
       ∧ companies (db w') = companies (db w) ++ [c]
       ∧ contacts (db w') = contacts (db w)
       ∧ companies_ok (db w')
       ∧ CompanyService.getCompanyByHubspotId (CreateCompany.hubspot_id data) w'
         = (Return (Some c), w')
       ∧ CompanyServiceCrud.createCompany data w'
         = (Throw (AppError ("Company with hubspot_id "
                             +:+ CreateCompany.hubspot_id data
                             +:+ " already exists") 409), w')).
Proof.
  intros Hok Hfresh c.
  assert (∀ w0, CreateCompany.hubspot_id data
                ∈ Company.hubspot_id <$> companies (db w0) →
                CompanyServiceCrud.createCompany data w0
                = (Throw (AppError ("Company with hubspot_id "
                                    +:+ CreateCompany.hubspot_id data
                                    +:+ " already exists") 409), w0)) as Hdup.
  { intros w0 Hin.
    unfold CompanyServiceCrud.createCompany, try_catch, bind at 1,
      CompanyRepository.findByHubspotId, Sql.company_where, gets.
    destruct (head_filter_key Company.hubspot_id _ _ Hin) as (r & -> & _).
    rewrite bool_decide_true by (eexists; reflexivity).
    reflexivity. }
  split; [apply Hdup|].
  intros Hnew. destruct Hok as [Hids Hhs].
  assert (CompanyServiceCrud.createCompany data w
          = (Return c,
             let d' := {| companies := companies (db w) ++ [c];
                          contacts := contacts (db w) |} in
             set_trace (trace w ++ [EvWrite (db w) d'])
               (set_db d'
                  (set_clock_next (S (clock_next w))
                     (set_uuid_next (S (uuid_next w)) w))))) as Hrun.
  { unfold CompanyServiceCrud.createCompany, try_catch, bind at 1,
      CompanyRepository.findByHubspotId, Sql.company_where, gets.
    rewrite (filter_key_absent Company.hubspot_id) by assumption.
    cbn [head]. rewrite bool_decide_false by (intros [x Hx]; discriminate).
    unfold bind at 1, ret.
    unfold CompanyRepository.create, bind, generateId, getCurrentTimestamp,
      Sql.insert_company. cbn.
    rewrite bool_decide_false by assumption.
    rewrite bool_decide_false by assumption.
    reflexivity. }
  eexists. split; [exact Hrun|]. cbn [db set_trace set_db companies contacts].
  split; [reflexivity|]. split; [reflexivity|].
  split; [|split].
  - split; cbn [companies]; rewrite fmap_app; cbn [fmap list_fmap];
      apply NoDup_app; (split; [assumption|]);
      (split; [|apply NoDup_singleton]);
      intros x Hx Hx'; apply list_elem_of_singleton in Hx'; subst x;
      contradiction.
  - unfold CompanyService.getCompanyByHubspotId, try_catch,
      CompanyRepository.findByHubspotId, Sql.company_where, gets.
    cbn [db set_trace set_db companies].
    rewrite filter_app, (filter_key_absent Company.hubspot_id) by assumption.
    rewrite filter_cons_True by reflexivity. reflexivity.
  - apply Hdup. cbn [db set_trace set_db companies].
    rewrite fmap_app. apply elem_of_app. right. left.
Qed.

Lemma createCompany_creates_once_witness :
  fst (CompanyServiceCrud.createCompany
         {| CreateCompany.hubspot_id := "900";
            CreateCompany.name := "Acme Ltd";
            CreateCompany.domain := "acme.org" |} Fixture.crm)
  = Throw (AppError "Company with hubspot_id 900 already exists" 409).
Proof.
  pose proof (createCompany_creates_once Fixture.crm
                {| CreateCompany.hubspot_id := "900";
                   CreateCompany.name := "Acme Ltd";
                   CreateCompany.domain := "acme.org" |}) as H.
  destruct H as [H _].
  - split; cbn; repeat constructor; intros H; inversion H; subst;
      match goal with
      | H : _ ∈ [] |- _ => inversion H
      | H : _ ∈ [_] |- _ => apply list_elem_of_singleton in H; discriminate
      | _ => discriminate
      end.
  - intros H. cbn in H. apply elem_of_cons in H as [H|H]; [discriminate|].
    apply list_elem_of_singleton in H. discriminate.
  - rewrite H; [reflexivity|]. left.
Defined.

Lemma or_null_Some (o : option string) (v : string) :
  Js.or_null o = Some v → o = Some v ∧ v ≠ "".
Proof.
  destruct o as [s|]; cbn; [|discriminate].
  unfold Js.or_undefined. destruct (Js.truthy s) eqn:E; [|discriminate].
  intros [= ->]. split; [reflexivity|]. apply truthy_true. exact E.
Qed.

(** What a call of [createContact] comes to. *)
Lemma createContact_outcome
    (w : World) (data : CreateContact.t) :
  uuid w (uuid_next w) ∉ Contact.id <$> contacts (db w) →
  let r := ContactService.createContact data w in
  match fst r with
  | Return c =>
      c = {| Contact.id := uuid w (uuid_next w);
             Contact.hubspot_id := CreateContact.hubspot_id data;
             Contact.firstname := CreateContact.firstname data;
             Contact.lastname := CreateContact.lastname data;
             Contact.email := CreateContact.email data;
             Contact.company_id := CreateContact.company_id data;
             Contact.created_at := clock w (clock_next w) |}
      ∧ contacts (db (snd r)) = contacts (db w) ++ [stored_contact c]
      ∧ companies (db (snd r)) = companies (db w)
      ∧ isValidEmail (Contact.email c) = true
      ∧ (contacts_ok (db w) → contacts_ok (db (snd r)))
      ∧ (references_ok (db w) → references_ok (db (snd r)))
  | Throw e =>
      statusCode_of e ∈ [Some 400; Some 404; Some 409] ∧ snd r = w
  end.
Proof.
  intros Hfresh. cbv zeta.
  destruct (ContactService.createContact data w) as [res w'] eqn:Hrun.
  cbn [fst snd].
  unfold ContactService.createContact in Hrun.
  destruct (isValidEmail (CreateContact.email data)) eqn:Hemail;
    cbn [negb] in Hrun;
    [|injection Hrun as <- <-; split; [left|reflexivity]].
  destruct (Js.truthy_opt (CreateContact.company_id data)
            && negb (isValidUuid (default "" (CreateContact.company_id data))));
    [injection Hrun as <- <-; split; [left|reflexivity]|].
  unfold try_catch, bind at 1, ContactRepository.findByHubspotId,
    Sql.contact_where, gets in Hrun.
  destruct (head (filter (λ r, Contact.hubspot_id r = CreateContact.hubspot_id data)
                    (contacts (db w)))) as [r1|] eqn:Hhs.
  { rewrite bool_decide_true in Hrun by (eexists; reflexivity).
    injection Hrun as <- <-. split; [right; right; left|reflexivity]. }
  rewrite bool_decide_false in Hrun by (intros [x Hx]; discriminate).
  unfold bind at 1, ret in Hrun.
  unfold bind at 1, ContactRepository.findByEmail, Sql.contact_where, gets
    in Hrun.
  destruct (head (filter (λ r, Contact.email r = CreateContact.email data)
                    (contacts (db w)))) as [r2|] eqn:Hem.
  { rewrite bool_decide_true in Hrun by (eexists; reflexivity).
    injection Hrun as <- <-. split; [right; right; left|reflexivity]. }
  rewrite bool_decide_false in Hrun by (intros [x Hx]; discriminate).
  unfold bind at 1, ret in Hrun.
  apply head_filter_None in Hhs. apply head_filter_None in Hem.
  assert (Sql.dangling (Js.or_null (CreateContact.company_id data)) (db w)
          = true →
          Js.truthy_opt (CreateContact.company_id data) = true
          ∧ default "" (CreateContact.company_id data)
            ∉ Company.id <$> companies (db w)) as Hdangling.
  { destruct (CreateContact.company_id data) as [cid|]; cbn; [|discriminate].
    unfold Js.or_undefined. destruct (Js.truthy cid); cbn; [|discriminate].
    rewrite negb_true_iff. intros H. split; [reflexivity|].
    apply bool_decide_eq_false in H. exact H. }
  unfold bind at 1 in Hrun.
  destruct (Js.truthy_opt (CreateContact.company_id data)) eqn:Hcid.
  - unfold bind at 1, CompanyRepository.findById, Sql.company_where, gets
      in Hrun.
    destruct (head (filter (λ r, Company.id r
                                 = default "" (CreateContact.company_id data))
                      (companies (db w)))) as [co|] eqn:Hco.
    + rewrite bool_decide_true in Hrun by (eexists; reflexivity).
      apply (head_filter_elem Company.id) in Hco as [Hco_in Hco_id].
      assert (Sql.dangling (Js.or_null (CreateContact.company_id data)) (db w)
              = false) as Hfk.
      { destruct (Sql.dangling _ _) eqn:E; [|reflexivity].
        destruct (Hdangling eq_refl) as [_ Hnot]. exfalso. apply Hnot.
        rewrite <- Hco_id. apply list_elem_of_fmap. eauto. }
      unfold ContactRepository.create, bind, generateId, getCurrentTimestamp,
        Sql.insert_contact in Hrun. cbn in Hrun.
      rewrite bool_decide_false in Hrun by assumption.
      rewrite bool_decide_false in Hrun by assumption.
      rewrite bool_decide_false in Hrun by assumption.
      rewrite Hfk in Hrun. cbn in Hrun.
      injection Hrun as <- <-. cbn.
      split; [reflexivity|]. split; [reflexivity|]. split; [reflexivity|].
      split; [exact Hemail|]. split.
      * intros Hok. apply contacts_ok_appended; assumption.
      * intros Hrefs k c Hk Hc. cbn in *.
        apply elem_of_app in Hk as [Hk|Hk]; [eapply Hrefs; eauto|].
        apply list_elem_of_singleton in Hk. subst k. cbn in Hc.
        rewrite Hc in Hfk. apply not_dangling. exact Hfk.
    + rewrite bool_decide_false in Hrun by (intros [x Hx]; discriminate).
      injection Hrun as <- <-. split; [right; left|reflexivity].
  - assert (Sql.dangling (Js.or_null (CreateContact.company_id data)) (db w)
            = false) as Hfk.
    { destruct (Sql.dangling _ _) eqn:E; [|reflexivity].
      destruct (Hdangling eq_refl) as [H _]. congruence. }
    unfold ContactRepository.create, bind, generateId, getCurrentTimestamp,
      Sql.insert_contact in Hrun. cbn in Hrun.
    rewrite bool_decide_false in Hrun by assumption.
    rewrite bool_decide_false in Hrun by assumption.
    rewrite bool_decide_false in Hrun by assumption.
    rewrite Hfk in Hrun. cbn in Hrun.
    injection Hrun as <- <-. cbn.
    split; [reflexivity|]. split; [reflexivity|]. split; [reflexivity|].
    split; [exact Hemail|]. split.
    + intros Hok. apply contacts_ok_appended; assumption.
    + intros Hrefs k c Hk Hc. cbn in *.
      apply elem_of_app in Hk as [Hk|Hk]; [eapply Hrefs; eauto|].
      apply list_elem_of_singleton in Hk. subst k. cbn in Hc.
      rewrite Hc in Hfk. apply not_dangling. exact Hfk.
Qed.

Lemma or_null_id (o : option string) : Js.or_null o = o ↔ o ≠ Some "".
Proof.
  destruct o as [s|]; cbn; [|split; [discriminate|reflexivity]].
  unfold Js.or_undefined. destruct (Js.truthy s) eqn:E.
  - apply truthy_true in E. split; [congruence|reflexivity].
  - apply truthy_false in E. subst s. split; [discriminate|congruence].
Qed.

(** X20. The checks of [createContact] cover every constraint of the store.
    As long as the identifier drawn is unused, a call either returns -
    then the row built from the candidate is appended, with an email
    that [isValidEmail] accepts, and the table stays consistent with
    every reference naming a stored company - or throws [AppError] with
    status 400, 404 or 409 before anything has changed, the world being
    exactly as it was. No constraint of the store is left to reject the
    insert, so the general status 500 is not reached that way.

    What is returned and what is then read are not the same object,
    though. The contact returned carries the optional fields as they
    were given, while the row binds [firstname || null],
    [lastname || null] and [company_id || null]: [getContactById] for the
    new id (a UUID) gives the contact with every optional field that was
    the empty string turned into [null], and the two agree exactly when
    no optional field was given as the empty string ([null] and
    [undefined] being one value here). *)
Theorem createContact_checks_cover_the_store
    (w : World) (data : CreateContact.t) :
  uuid w (uuid_next w) ∉ Contact.id <$> contacts (db w) →
  let r := ContactService.createContact data w in
  match fst r with
  | Return c =>
      c = {| Contact.id := uuid w (uuid_next w);
             Contact.hubspot_id := CreateContact.hubspot_id data;
             Contact.firstname := CreateContact.firstname data;
             Contact.lastname := CreateContact.lastname data;
             Contact.email := CreateContact.email data;
             Contact.company_id := CreateContact.company_id data;
             Contact.created_at := clock w (clock_next w) |}
      ∧ contacts (db (snd r)) = contacts (db w) ++ [stored_contact c]
      ∧ companies (db (snd r)) = companies (db w)
      ∧ isValidEmail (Contact.email c) = true
      ∧ (contacts_ok (db w) → contacts_ok (db (snd r)))
      ∧ (references_ok (db w) → references_ok (db (snd r)))
      ∧ (isValidUuid (Contact.id c) = true →
         ContactServiceCrud.getContactById (Contact.id c) (snd r)
         = (Return (stored_contact c), snd r))
      ∧ (stored_contact c = c
         ↔ CreateContact.firstname data ≠ Some ""
           ∧ CreateContact.lastname data ≠ Some ""
           ∧ CreateContact.company_id data ≠ Some "")
  | Throw e =>
      statusCode_of e ∈ [Some 400; Some 404; Some 409] ∧ snd r = w
  end.
Proof.
  intros Hfresh. cbv zeta.
  pose proof (createContact_outcome w data Hfresh) as H. cbv zeta in H.
  destruct (ContactService.createContact data w) as [[c|e] w'] eqn:Hrun;
    cbn [fst snd] in *; [|exact H].
  destruct H as (Hc & Hrows & Hcomp & Hemail & Hok & Hrefs).
  split; [exact Hc|]. split; [exact Hrows|]. split; [exact Hcomp|].
  split; [exact Hemail|]. split; [exact Hok|]. split; [exact Hrefs|].
  split.
  - intros Huuid.
    unfold ContactServiceCrud.getContactById. rewrite Huuid. cbn [negb].
    assert (Contact.id c = uuid w (uuid_next w)) as Hid
      by (rewrite Hc; reflexivity).
    unfold try_catch, bind, ContactRepository.findById, Sql.contact_where, gets.
    rewrite Hrows, filter_app.
    rewrite (filter_key_absent Contact.id) by (rewrite Hid; exact Hfresh).
    rewrite filter_cons_True by reflexivity.
    reflexivity.
  - rewrite <- !or_null_id. rewrite Hc. unfold stored_contact. cbn. split.
    + intros [= H1 H2 H3]. auto.
    + intros (-> & -> & ->). reflexivity.
Qed.

Lemma createContact_checks_cover_the_store_witness :
  contacts (db (snd (ContactService.createContact Fixture.bob Fixture.crm)))
  = [Fixture.ann;
     {| Contact.id := "9b2f0c1e-7d4a-4c3b-8e1f-000000000000";
        Contact.hubspot_id := "502";
        Contact.firstname := Some "Bob"; Contact.lastname := None;
        Contact.email := "bob@example.com";
        Contact.company_id := Some Fixture.bolt_id;
        Contact.created_at := "t" |}].
Proof.
  pose proof (createContact_checks_cover_the_store Fixture.crm Fixture.bob)
    as H.
  cbv zeta in H.
  assert (fst (ContactService.createContact Fixture.bob Fixture.crm)
          = Return {| Contact.id := "9b2f0c1e-7d4a-4c3b-8e1f-000000000000";
                      Contact.hubspot_id := "502";
                      Contact.firstname := Some "Bob";
                      Contact.lastname := Some "";
                      Contact.email := "bob@example.com";
                      Contact.company_id := Some Fixture.bolt_id;
                      Contact.created_at := "t" |}) as E
    by (vm_compute; reflexivity).
  rewrite E in H. destruct H as (_ & H & _).
  - intros Hin. cbn in Hin. apply list_elem_of_singleton in Hin.
    discriminate.
  - rewrite H. reflexivity.
Defined.

(* ===================================================================== *)
(** * Updating                                                             *)
(* ===================================================================== *)





(** X22. [updateContact] validates the email of an update only when it is
    not empty: the tests are [if (updates.email && ...)] and
    [if (updates.email)], while the repository writes every field that
    is not [undefined]. So an update whose email is the empty string,
    which [isValidEmail] rejects, goes through unchecked: the stored
    contact comes back with the empty email, and that is what the table
    then holds for it (unless another contact already has the empty
    email). *)
Theorem updateContact_accepts_the_empty_email (w : World) (r : Contact.t) :
  isValidUuid (Contact.id r) = true →
  contacts_ok (db w) →
  r ∈ contacts (db w) →
  (∀ x, x ∈ contacts (db w) → Contact.email x = "" → x = r) →
  isValidEmail "" = false
  ∧ ∃ w',
      ContactServiceCrud.updateContact (Contact.id r) clear_email w
      = (Return (Sql.set_contact clear_email r), w')
      ∧ Contact.email (Sql.set_contact clear_email r) = ""
      ∧ contacts (db w')
        = Sql.rewrite_rows Contact.id (Contact.id r)
            (Sql.set_contact clear_email) (contacts (db w))
      ∧ Sql.set_contact clear_email r ∈ contacts (db w').
Proof.
  intros Hid [Hids Hhs Hems] Hr Hfree. split; [reflexivity|].
  unfold ContactServiceCrud.updateContact. rewrite Hid. cbn [negb].
  cbn [clear_email UpdateContact.email UpdateContact.company_id
         UpdateContact.hubspot_id Js.truthy_opt Js.truthy String.eqb negb
         andb].
  unfold try_catch, bind at 1. unfold ret at 1.
  unfold bind at 1. unfold ret at 1.
  unfold bind at 1. unfold ret at 1.
  unfold bind at 1.
  unfold ContactRepository.update, bind at 1.
  unfold ContactRepository.findById at 1, Sql.contact_where, gets.
  rewrite (filter_key_unique Contact.id) by assumption. cbn [head].
  cbv beta iota zeta delta
    [clear_email UpdateContact.hubspot_id UpdateContact.firstname
       UpdateContact.lastname UpdateContact.email UpdateContact.company_id].
  unfold bind at 1, Sql.update_contact.
  cbv beta iota zeta delta
    [UpdateContact.hubspot_id UpdateContact.email UpdateContact.company_id].
  cbn [Sql.collides Sql.dangling].
  rewrite andb_false_r.
  assert (Sql.collides Contact.id Contact.email (Contact.id r) (Some "")
            (contacts (db w)) = false) as Hcol.
  { apply collides_false. intros x Hx Hxe. f_equal. apply Hfree; assumption. }
  unfold Sql.collides in Hcol. rewrite Hcol.
  unfold Sql.commit, modify, ContactRepository.findById, Sql.contact_where,
    gets. cbn.
  rewrite (filter_rewrite_rows Contact.id) by reflexivity.
  rewrite (filter_key_unique Contact.id) by assumption.
  eexists. split; [reflexivity|]. cbn.
  split; [reflexivity|]. split; [reflexivity|].
  unfold Sql.rewrite_rows. apply list_elem_of_fmap. exists r.
  rewrite decide_True by reflexivity. split; [reflexivity|exact Hr].
Qed.

Lemma updateContact_accepts_the_empty_email_witness :
  ∃ w',
    ContactServiceCrud.updateContact Fixture.ann_id clear_email Fixture.crm
    = (Return (Sql.set_contact clear_email Fixture.ann), w')
    ∧ Contact.email <$> contacts (db w') = [""].
Proof.
  destruct (updateContact_accepts_the_empty_email Fixture.crm Fixture.ann)
    as (_ & w' & Hrun & _ & Hrows & _).
  - reflexivity.
  - split; cbn; repeat constructor; intros H; inversion H.
  - left.
  - intros x Hx He. cbn in Hx. apply list_elem_of_singleton in Hx. exact Hx.
  - exists w'. split; [exact Hrun|]. rewrite Hrows. reflexivity.
Defined.

(* ===================================================================== *)
(** * The matcher and the language                                         *)
(* ===================================================================== *)

Section Matcher.

Import RegexSem.

Abbreviation chars := list_ascii_of_string.

Lemma matches_void_inv (l : list ascii) : matches Regex.Void l ↔ False.
Proof. split; [intros H; inversion H|tauto]. Qed.

Lemma matches_eps_inv (l : list ascii) : matches Regex.Eps l ↔ l = [].
Proof.
  split; [intros H; inversion H; reflexivity|intros ->; constructor].
Qed.

Lemma matches_class_inv (p : ascii → bool) (l : list ascii) :
  matches (Regex.Class p) l ↔ ∃ c, l = [c] ∧ p c = true.
Proof.
  split.
  - intros H. inversion H; subst. eauto.
  - intros (c & -> & Hc). constructor. exact Hc.
Qed.

Lemma matches_seq_inv (r1 r2 : Regex.t) (l : list ascii) :
  matches (Regex.Seq r1 r2) l
  ↔ ∃ l1 l2, l = l1 ++ l2 ∧ matches r1 l1 ∧ matches r2 l2.
Proof.
  split.
  - intros H. inversion H; subst. eauto.
  - intros (l1 & l2 & -> & H1 & H2). constructor; assumption.
Qed.

Lemma matches_alt_inv (r1 r2 : Regex.t) (l : list ascii) :
  matches (Regex.Alt r1 r2) l ↔ matches r1 l ∨ matches r2 l.
Proof.
  split.
  - intros H. inversion H; subst; auto.
  - intros [H|H]; [apply matches_alt_l|apply matches_alt_r]; exact H.
Qed.

(** A non-empty word of a star begins with a non-empty word of the
    body. *)
Lemma matches_star_cons (r : Regex.t) (c : ascii) (l : list ascii) :
  matches (Regex.Star r) (c :: l)
  ↔ ∃ l1 l2, l = l1 ++ l2 ∧ matches r (c :: l1) ∧ matches (Regex.Star r) l2.
Proof.
  split.
  - intros H. remember (Regex.Star r) as R eqn:HR.
    remember (c :: l) as cl eqn:Hcl. revert c l Hcl.
    induction H as [| | | | | |r0 l1 l2 H1 _ H2 IH2]; intros c0 l0 Hcl;
      try discriminate.
    injection HR as ->.
    destruct l1 as [|a l1].
    + cbn in Hcl. apply IH2; [reflexivity|exact Hcl].
    + cbn in Hcl. injection Hcl as -> <-. eauto.
  - intros (l1 & l2 & -> & H1 & H2).
    change (matches (Regex.Star r) ((c :: l1) ++ l2)).
    constructor; assumption.
Qed.

Lemma nullable_spec (r : Regex.t) :
  Regex.nullable r = true ↔ matches r [].
Proof.
  induction r as [| |p|r1 IH1 r2 IH2|r1 IH1 r2 IH2|r IH]; cbn.
  - rewrite matches_void_inv. split; [discriminate|tauto].
  - rewrite matches_eps_inv. tauto.
  - rewrite matches_class_inv. split; [discriminate|].
    intros (c & H & _). discriminate.
  - rewrite andb_true_iff, IH1, IH2, matches_seq_inv. split.
    + intros [H1 H2]. exists [], []. auto.
    + intros (l1 & l2 & Hl & H1 & H2). symmetry in Hl.
      apply app_eq_nil in Hl as [-> ->]. auto.
  - rewrite orb_true_iff, IH1, IH2, matches_alt_inv. tauto.
  - split; [intros _; constructor|reflexivity].
Qed.

Lemma deriv_spec (r : Regex.t) :
  ∀ (c : ascii) (l : list ascii),
    matches (Regex.deriv c r) l ↔ matches r (c :: l).
Proof.
  induction r as [| |p|r1 IH1 r2 IH2|r1 IH1 r2 IH2|r IH]; intros c l; cbn.
  - rewrite !matches_void_inv. tauto.
  - rewrite matches_void_inv, matches_eps_inv. split; [tauto|discriminate].
  - rewrite matches_class_inv. destruct (p c) eqn:Hp.
    + rewrite matches_eps_inv. split.
      * intros ->. eauto.
      * intros (c' & [= <- <-] & _). reflexivity.
    + rewrite matches_void_inv. split; [tauto|].
      intros (c' & [= -> ->] & Hc). congruence.
  - assert (matches (Regex.Seq (Regex.deriv c r1) r2) l
            ↔ ∃ l1 l2, l = l1 ++ l2 ∧ matches r1 (c :: l1) ∧ matches r2 l2)
      as Hfirst.
    { rewrite matches_seq_inv. split.
      - intros (l1 & l2 & Hl & H1 & H2). apply IH1 in H1. eauto.
      - intros (l1 & l2 & Hl & H1 & H2). apply IH1 in H1. eauto. }
    rewrite (matches_seq_inv r1 r2 (c :: l)).
    destruct (Regex.nullable r1) eqn:Hn.
    + rewrite matches_alt_inv, Hfirst, IH2. split.
      * intros [(l1 & l2 & -> & H1 & H2)|H2].
        -- exists (c :: l1), l2. auto.
        -- exists [], (c :: l). split; [reflexivity|].
           split; [apply nullable_spec; exact Hn|exact H2].
      * intros (l1 & l2 & Hl & H1 & H2). destruct l1 as [|a l1].
        -- cbn in Hl. subst l2. right. exact H2.
        -- cbn in Hl. injection Hl as <- ->. left. eauto.
    + rewrite Hfirst. split.
      * intros (l1 & l2 & -> & H1 & H2). exists (c :: l1), l2. auto.
      * intros (l1 & l2 & Hl & H1 & H2). destruct l1 as [|a l1].
        -- apply nullable_spec in H1. congruence.
        -- cbn in Hl. injection Hl as <- ->. eauto.
  - rewrite !matches_alt_inv, IH1, IH2. tauto.
  - rewrite matches_seq_inv, matches_star_cons. split.
    + intros (l1 & l2 & Hl & H1 & H2). apply IH in H1. eauto.
    + intros (l1 & l2 & Hl & H1 & H2). apply IH in H1. eauto.
Qed.

Lemma matches_seq_congr (r1 r1' r2 r2' : Regex.t) :
  (∀ l, matches r1' l ↔ matches r1 l) →
  (∀ l, matches r2' l ↔ matches r2 l) →
  ∀ l, matches (Regex.Seq r1' r2') l ↔ matches (Regex.Seq r1 r2) l.
Proof.
  intros H1 H2 l. rewrite !matches_seq_inv. split;
    intros (l1 & l2 & Hl & Ha & Hb); apply H1 in Ha; apply H2 in Hb; eauto.
Qed.

Lemma matches_seq_void_l (r : Regex.t) (l : list ascii) :
  matches (Regex.Seq Regex.Void r) l ↔ False.
Proof.
  rewrite matches_seq_inv. split; [|tauto].
  intros (l1 & l2 & _ & H & _). inversion H.
Qed.

Lemma matches_seq_void_r (r : Regex.t) (l : list ascii) :
  matches (Regex.Seq r Regex.Void) l ↔ False.
Proof.
  rewrite matches_seq_inv. split; [|tauto].
  intros (l1 & l2 & _ & _ & H). inversion H.
Qed.

Lemma matches_seq_eps_l (r : Regex.t) (l : list ascii) :
  matches (Regex.Seq Regex.Eps r) l ↔ matches r l.
Proof.
  rewrite matches_seq_inv. split.
  - intros (l1 & l2 & -> & H1 & H2). inversion H1; subst. exact H2.
  - intros H. exists [], l. split; [reflexivity|]. split; [constructor|exact H].
Qed.

Lemma simp_spec (r : Regex.t) :
  ∀ l, matches (Regex.simp r) l ↔ matches r l.
Proof.
  induction r as [| |p|r1 IH1 r2 IH2|r1 IH1 r2 IH2|r IH]; intros l;
    cbn [Regex.simp]; try reflexivity.
  - rewrite <- (matches_seq_congr _ _ _ _ IH1 IH2 l).
    destruct (Regex.simp r1) eqn:E1; destruct (Regex.simp r2) eqn:E2;
      rewrite ?matches_seq_void_l, ?matches_seq_void_r, ?matches_seq_eps_l,
        ?matches_void_inv;
      reflexivity.
  - rewrite (matches_alt_inv r1 r2), <- IH1, <- IH2.
    destruct (Regex.simp r1) eqn:E1; destruct (Regex.simp r2) eqn:E2;
      rewrite ?matches_alt_inv, ?matches_void_inv; tauto.
Qed.

(** The matcher decides the language. *)
Lemma test_spec (s : string) :
  ∀ r, Regex.test r s = true ↔ matches r (chars s).
Proof.
  induction s as [|c s IH]; intros r; cbn [Regex.test list_ascii_of_string].
  - apply nullable_spec.
  - rewrite IH, simp_spec. apply deriv_spec.
Qed.

Lemma matches_char_inv (c : ascii) (l : list ascii) :
  matches (Regex.char c) l ↔ l = [c].
Proof.
  unfold Regex.char. rewrite matches_class_inv. split.
  - intros (c' & -> & Hc). apply Ascii.eqb_eq in Hc. subst. reflexivity.
  - intros ->. exists c. split; [reflexivity|apply Ascii.eqb_refl].
Qed.

Lemma matches_star_class (p : ascii → bool) (l : list ascii) :
  matches (Regex.Star (Regex.Class p)) l ↔ Forall (λ c, p c = true) l.
Proof.
  induction l as [|c l IH].
  - split; [constructor|intros _; constructor].
  - rewrite matches_star_cons. split.
    + intros (l1 & l2 & -> & H1 & H2).
      apply matches_class_inv in H1 as (c' & [= <- ->] & Hc).
      constructor; [exact Hc|]. apply IH. exact H2.
    + intros H. apply Forall_cons in H as [Hc Hl].
      exists [], l. split; [reflexivity|].
      split; [constructor; exact Hc|apply IH; exact Hl].
Qed.

Lemma matches_plus_class (p : ascii → bool) (l : list ascii) :
  matches (Regex.Plus (Regex.Class p)) l
  ↔ l ≠ [] ∧ Forall (λ c, p c = true) l.
Proof.
  unfold Regex.Plus. rewrite matches_seq_inv. split.
  - intros (l1 & l2 & -> & H1 & H2).
    apply matches_class_inv in H1 as (c & -> & Hc).
    split; [discriminate|].
    constructor; [exact Hc|]. apply matches_star_class. exact H2.
  - intros [Hne H]. destruct l as [|c l]; [contradiction|].
    apply Forall_cons in H as [Hc Hl].
    exists [c], l. split; [reflexivity|].
    split; [constructor; exact Hc|apply matches_star_class; exact Hl].
Qed.

Lemma matches_repeat_class (p : ascii → bool) (n : nat) :
  ∀ l, matches (Regex.Repeat n (Regex.Class p)) l
       ↔ length l = n ∧ Forall (λ c, p c = true) l.
Proof.
  induction n as [|n IH]; intros l; cbn [Regex.Repeat].
  - rewrite matches_eps_inv. split.
    + intros ->. split; [reflexivity|constructor].
    + intros [H _]. destruct l; [reflexivity|discriminate].
  - rewrite matches_seq_inv. split.
    + intros (l1 & l2 & -> & H1 & H2).
      apply matches_class_inv in H1 as (c & -> & Hc).
      apply IH in H2 as [Hlen Hall]. cbn. split; [congruence|].
      constructor; assumption.
    + intros [Hlen Hall]. destruct l as [|c l]; [discriminate|].
      apply Forall_cons in Hall as [Hc Hall]. injection Hlen as Hlen.
      exists [c], l. split; [reflexivity|].
      split; [constructor; exact Hc|apply IH; auto].
Qed.

Lemma chars_length (s : string) : length (chars s) = String.length s.
Proof. induction s as [|c s IH]; cbn; [reflexivity|]. f_equal. exact IH. Qed.

Lemma chars_nil (s : string) : chars s = [] ↔ s = "".
Proof. destruct s; cbn; split; (reflexivity || discriminate). Qed.

End Matcher.

(* ===================================================================== *)
(** * What [isValidEmail] and [isValidUuid] accept                         *)
(* ===================================================================== *)

Section Accepted.

Import RegexSem.

Abbreviation chars := list_ascii_of_string.

Lemma not_space_at (c : ascii) :
  negb (Js.is_space c || Ascii.eqb c "@") = true
  ↔ Js.is_space c = false ∧ c ≠ "@"%char.
Proof.
  rewrite negb_true_iff, orb_false_iff, Ascii.eqb_neq. reflexivity.
Qed.

Lemma address_part_chars (l : list ascii) :
  l ≠ []
  ∧ Forall (λ c, negb (Js.is_space c || Ascii.eqb c "@") = true) l
  ↔ address_part (string_of_list_ascii l).
Proof.
  unfold address_part. rewrite list_ascii_of_string_of_list_ascii.
  rewrite <- chars_nil, list_ascii_of_string_of_list_ascii.
  split; intros [Hne H]; (split; [exact Hne|]);
    (eapply Forall_impl; [exact H|]); intros c Hc; apply not_space_at;
    exact Hc.
Qed.

Lemma address_part_string (s : string) :
  address_part s
  ↔ chars s ≠ []
    ∧ Forall (λ c, negb (Js.is_space c || Ascii.eqb c "@") = true) (chars s).
Proof.
  rewrite address_part_chars, string_of_list_ascii_of_string. reflexivity.
Qed.

(** X23. [isValidEmail] accepts exactly the strings of the form
    [local@domain.tld] in which each of the three parts is non-empty and
    contains neither white space nor ["@"] (a part may contain dots). *)
Theorem isValidEmail_shape (s : string) :
  isValidEmail s = true
  ↔ ∃ local domain tld,
      s = local +:+ "@" +:+ domain +:+ "." +:+ tld
      ∧ address_part local ∧ address_part domain ∧ address_part tld.
Proof.
  unfold isValidEmail. rewrite test_spec. unfold emailRegex. cbv zeta.
  split.
  - intros H.
    apply matches_seq_inv in H as (a & l1 & Hs & Ha & H).
    apply matches_seq_inv in H as (x1 & l2 & -> & Hx1 & H).
    apply matches_seq_inv in H as (b & l3 & -> & Hb & H).
    apply matches_seq_inv in H as (x2 & d & -> & Hx2 & Hd).
    apply matches_char_inv in Hx1 as ->. apply matches_char_inv in Hx2 as ->.
    apply matches_plus_class, address_part_chars in Ha.
    apply matches_plus_class, address_part_chars in Hb.
    apply matches_plus_class, address_part_chars in Hd.
    exists (string_of_list_ascii a), (string_of_list_ascii b),
      (string_of_list_ascii d).
    split; [|auto].
    apply chars_inj. rewrite !chars_app, !list_ascii_of_string_of_list_ascii.
    exact Hs.
  - intros (a & b & d & -> & Ha & Hb & Hd).
    apply address_part_string, matches_plus_class in Ha.
    apply address_part_string, matches_plus_class in Hb.
    apply address_part_string, matches_plus_class in Hd.
    rewrite !chars_app.
    repeat (apply matches_seq; try assumption);
      apply matches_char_inv; reflexivity.
Qed.

Lemma variant_spec (c : ascii) :
  (Ascii.eqb c "8" || Ascii.eqb c "9" || Ascii.eqb c "a" || Ascii.eqb c "b"
   || Ascii.eqb c "A" || Ascii.eqb c "B")%char = true
  ↔ c ∈ chars "89abAB".
Proof.
  rewrite !orb_true_iff, !Ascii.eqb_eq. cbn [list_ascii_of_string].
  rewrite !elem_of_cons, elem_of_nil. tauto.
Qed.

Lemma hex_group_chars (n : nat) (l : list ascii) :
  length l = n ∧ Forall (λ c, is_hex c = true) l
  ↔ hex_group n (string_of_list_ascii l).
Proof.
  unfold hex_group.
  rewrite <- chars_length, list_ascii_of_string_of_list_ascii. reflexivity.
Qed.

Lemma hex_group_string (n : nat) (s : string) :
  hex_group n s
  ↔ length (chars s) = n ∧ Forall (λ c, is_hex c = true) (chars s).
Proof.
  rewrite hex_group_chars, string_of_list_ascii_of_string. reflexivity.
Qed.

(** X24. [isValidUuid] accepts exactly the strings of five groups of
    hexadecimal digits (in either case) of lengths 8, 4, 4, 4 and 12,
    separated by ["-"], in which the third group begins with a version
    digit from 1 to 5 and the fourth with one of 8, 9, a, b (in either
    case); such a string has 36 code units. *)
Theorem isValidUuid_shape (s : string) :
  (isValidUuid s = true
   ↔ ∃ (a b : string) (v : ascii) (c : string) (y : ascii) (d e : string),
       s = a +:+ "-" +:+ b +:+ "-" +:+ String v c +:+ "-" +:+ String y d
           +:+ "-" +:+ e
       ∧ hex_group 8 a ∧ hex_group 4 b
       ∧ Regex.range "1" "5" v = true ∧ hex_group 3 c
       ∧ y ∈ chars "89abAB" ∧ hex_group 3 d
       ∧ hex_group 12 e)
  ∧ (isValidUuid s = true → String.length s = 36).
Proof.
  assert (isValidUuid s = true
          ↔ ∃ (a b : string) (v : ascii) (c : string) (y : ascii)
              (d e : string),
              s = a +:+ "-" +:+ b +:+ "-" +:+ String v c +:+ "-"
                  +:+ String y d +:+ "-" +:+ e
              ∧ hex_group 8 a ∧ hex_group 4 b
              ∧ Regex.range "1" "5" v = true ∧ hex_group 3 c
              ∧ y ∈ chars "89abAB" ∧ hex_group 3 d
              ∧ hex_group 12 e) as Hshape.
  { unfold isValidUuid. rewrite test_spec. unfold uuidRegex. cbv zeta.
    split.
    - intros H.
      apply matches_seq_inv in H as (a & l1 & Hs & Ha & H).
      apply matches_seq_inv in H as (x1 & l2 & -> & Hx1 & H).
      apply matches_seq_inv in H as (b & l3 & -> & Hb & H).
      apply matches_seq_inv in H as (x2 & l4 & -> & Hx2 & H).
      apply matches_seq_inv in H as (v & l5 & -> & Hv & H).
      apply matches_seq_inv in H as (c & l6 & -> & Hc & H).
      apply matches_seq_inv in H as (x3 & l7 & -> & Hx3 & H).
      apply matches_seq_inv in H as (y & l8 & -> & Hy & H).
      apply matches_seq_inv in H as (d & l9 & -> & Hd & H).
      apply matches_seq_inv in H as (x4 & e & -> & Hx4 & He).
      apply matches_char_inv in Hx1 as ->. apply matches_char_inv in Hx2 as ->.
      apply matches_char_inv in Hx3 as ->. apply matches_char_inv in Hx4 as ->.
      apply matches_class_inv in Hv as (v' & -> & Hv).
      apply matches_class_inv in Hy as (y' & -> & Hy).
      apply variant_spec in Hy.
      apply (matches_repeat_class is_hex), hex_group_chars in Ha.
      apply (matches_repeat_class is_hex), hex_group_chars in Hb.
      apply (matches_repeat_class is_hex), hex_group_chars in Hc.
      apply (matches_repeat_class is_hex), hex_group_chars in Hd.
      apply (matches_repeat_class is_hex), hex_group_chars in He.
      exists (string_of_list_ascii a), (string_of_list_ascii b), v',
        (string_of_list_ascii c), y', (string_of_list_ascii d),
        (string_of_list_ascii e).
      split; [|auto 10].
      apply chars_inj.
      rewrite !chars_app. cbn [list_ascii_of_string].
      rewrite !list_ascii_of_string_of_list_ascii. exact Hs.
    - intros (a & b & v & c & y & d & e & -> & Ha & Hb & Hv & Hc & Hy & Hd
              & He).
      apply hex_group_string, (matches_repeat_class is_hex) in Ha.
      apply hex_group_string, (matches_repeat_class is_hex) in Hb.
      apply hex_group_string, (matches_repeat_class is_hex) in Hc.
      apply hex_group_string, (matches_repeat_class is_hex) in Hd.
      apply hex_group_string, (matches_repeat_class is_hex) in He.
      apply variant_spec in Hy.
      rewrite !chars_app. cbn [list_ascii_of_string].
      apply matches_seq; [exact Ha|].
      apply (matches_seq _ _ ["-"%char]); [apply matches_char_inv; reflexivity|].
      apply matches_seq; [exact Hb|].
      apply (matches_seq _ _ ["-"%char]); [apply matches_char_inv; reflexivity|].
      apply (matches_seq _ _ [v]); [constructor; exact Hv|].
      apply matches_seq; [exact Hc|].
      apply (matches_seq _ _ ["-"%char]); [apply matches_char_inv; reflexivity|].
      apply (matches_seq _ _ [y]); [constructor; exact Hy|].
      apply matches_seq; [exact Hd|].
      apply (matches_seq _ _ ["-"%char]); [apply matches_char_inv; reflexivity|].
      exact He. }
  split; [exact Hshape|].
  intros H. apply Hshape in H
    as (a & b & v & c & y & d & e & -> & [Ha _] & [Hb _] & _ & [Hc _] & _
        & [Hd _] & [He _]).
  rewrite <- chars_length, !chars_app. cbn [list_ascii_of_string].
  repeat (rewrite ?length_app; cbn [length]).
  rewrite !chars_length. lia.
Qed.

End Accepted.

(* ===================================================================== *)
(** * The error list of a run                                              *)
(* ===================================================================== *)

Global Instance own_error_list_preorder : PreOrder own_error_list.
Proof.
  split.
  - intros w. split; [reflexivity|auto].
  - intros w1 w2 w3 [Hl1 Hh1] [Hl2 Hh2]. split; [congruence|].
    intros l Hl. rewrite Hh2 by congruence. apply Hh1. exact Hl.
Qed.

Lemma own_error_list_silent (w w' : World) :
  errors (syncStatus w') = errors (syncStatus w) →
  heap w' = heap w → own_error_list w w'.
Proof. intros Hl Hh. split; [exact Hl|]. intros l _. rewrite Hh. reflexivity. Qed.

Lemma errors_push_own (msg : string) :
  keeps own_error_list (EtlService.errors_push msg).
Proof.
  intros w. unfold EtlService.errors_push, bind, gets, array_push, modify.
  cbn. split; [reflexivity|]. cbn. intros l Hl.
  apply list_lookup_alter_ne. congruence.
Qed.

Ltac own_leaf :=
  intros ?w;
  unfold modify, generateId, getCurrentTimestamp,
    Sql.insert_company, Sql.update_company, Sql.insert_contact,
    Sql.update_contact, Sql.commit, throw, modify,
    HubSpotApiService.httpClient_get;
  cbn; repeat case_match; apply own_error_list_silent; reflexivity.

(** Descend, trying the lemmas [pre] before a computation is taken
    apart. *)
Ltac keeps_descend_after pre leaf :=
  repeat first
    [ pre
    | apply keeps_ret; apply _
    | apply keeps_throw; apply _
    | apply keeps_gets; apply _
    | apply keeps_sleep; apply _
    | apply keeps_bind; [apply _| |intros ?]
    | apply keeps_try_catch; [apply _| |intros ?]
    | lazymatch goal with
      | |- keeps _ (if ?b then _ else _) => destruct b
      | |- keeps _ (match ?x with _ => _ end) => destruct x
      end
    | progress cbv zeta
    | progress autounfold with etl
    | solve [leaf] ].

Lemma fetch_pages_own (u properties : string) (fuel : nat) :
  ∀ all cursor,
    keeps own_error_list
      (HubSpotApiService.fetch_pages fuel u properties all cursor).
Proof.
  induction fuel as [|fuel IH]; intros all cursor;
    cbn [HubSpotApiService.fetch_pages];
    keeps_descend ltac:(first [apply IH | own_leaf]).
Qed.

Lemma syncCompanies_own : keeps own_error_list EtlService.syncCompanies.
Proof.
  unfold EtlService.syncCompanies.
  apply keeps_bind; [apply _| |].
  - intros w. unfold HubSpotApiService.getAllCompanies.
    apply fetch_pages_own.
  - intros cs. apply keeps_for_of; [apply _|]. intros c _.
    unfold EtlService.syncCompany.
    keeps_descend_after ltac:(apply errors_push_own) own_leaf.
Qed.

Lemma syncContacts_own : keeps own_error_list EtlService.syncContacts.
Proof.
  unfold EtlService.syncContacts.
  apply keeps_bind; [apply _| |].
  - intros w. unfold HubSpotApiService.getAllContacts.
    apply fetch_pages_own.
  - intros cs. apply keeps_for_of; [apply _|]. intros c _.
    unfold EtlService.syncContact.
    keeps_descend_after ltac:(apply errors_push_own) own_leaf.
Qed.

(** X25. Every run collects its errors in an array of its own. A run that
    was free to start allocates a new array for the status object and
    writes to no other: whatever happens in the run, every array that
    existed before - the error list of the run before among them, which
    a caller of [getSyncStatus] may still hold - is afterwards as it
    was. *)
Theorem each_run_has_its_own_error_list (w : World) :
  isRunning (syncStatus w) = false →
  status_allocated w →
  let w' := snd (EtlService.syncCrmData w) in
  errors (syncStatus w') = length (heap w)
  ∧ (∀ l, l < length (heap w) → heap w' !! l = heap w !! l)
  ∧ array_read w' (errors (syncStatus w)) = status_errors w.
Proof.
  intros Hidle Halloc. cbv zeta.
  destruct (EtlService.syncCrmData w) as [res w'] eqn:Hrun. cbn [fst snd].
  unfold EtlService.syncCrmData, bind at 1, gets in Hrun. rewrite Hidle in Hrun.
  unfold bind at 1, getCurrentTimestamp in Hrun.
  unfold bind at 1, new_array in Hrun.
  unfold bind at 1, modify in Hrun.
  match type of Hrun with
  | ?m ?w1 = _ =>
      assert (keeps own_error_list m) as Hkeeps;
      [|pose proof (Hkeeps w1) as Hown; rewrite Hrun in Hown]
  end.
  { unfold HubSpotApiService.healthCheck.
    keeps_descend_after
      ltac:(first [ apply errors_push_own | apply syncCompanies_own
                  | apply syncContacts_own ])
      own_leaf. }
  destruct Hown as [Hloc Hheap]. cbn in Hloc, Hheap.
  assert (∀ l, l < length (heap w) → heap w' !! l = heap w !! l) as Hold.
  { intros l Hl. rewrite Hheap by lia. apply lookup_app_l. exact Hl. }
  split; [exact Hloc|]. split; [exact Hold|].
  unfold status_errors, array_read. rewrite Hold by exact Halloc. reflexivity.
Qed.

Lemma each_run_has_its_own_error_list_witness :
  array_read (snd (EtlService.syncCrmData Sample.failed)) 1
  = ["HubSpot API is not accessible"].
Proof.
  pose proof (each_run_has_its_own_error_list Sample.failed eq_refl) as H.
  destruct H as (_ & _ & H).
  - unfold status_allocated. vm_compute. lia.
  - exact H.
Defined.

(* ===================================================================== *)
(** * Running the company phase again                                      *)
(* ===================================================================== *)

(** What the loop leaves of the rows it found, and what it makes of the
    companies it goes through, when no external id comes twice. *)
Lemma company_loop_rows (cs : list HubSpotObject) :
  ∀ w,
    companies_ok (db w) →
    (∀ n, uuid_next w ≤ n → uuid w n ∉ Company.id <$> companies (db w)) →
    (∀ n m, uuid_next w ≤ n → uuid_next w ≤ m → uuid w n = uuid w m → n = m) →
    let w' := snd (for_of cs EtlService.syncCompany w) in
    companies_ok (db w')
    ∧ (∀ r, r ∈ companies (db w) →
            Company.hubspot_id r ∉ hs_id <$> cs → r ∈ companies (db w'))
    ∧ (NoDup (hs_id <$> cs) → ∀ c, c ∈ cs → holds_company (db w') c).
Proof.
  induction cs as [|c cs IH]; intros w Hok Hfresh Hinj; cbv zeta.
  - cbn. split; [exact Hok|]. split; [auto|]. intros _ c Hc. inversion Hc.
  - cbn [for_of]. unfold bind.
    pose proof Hok as [Hids Hhs].
    destruct (decide (hs_id c ∈ Company.hubspot_id <$> companies (db w)))
      as [Hin|Hnot].
    + apply list_elem_of_fmap in Hin as (r & Hext & Hr). symmetry in Hext.
      rewrite (syncCompany_existing w c r Hok Hr Hext).
      match goal with
      | |- context [for_of cs EtlService.syncCompany ?w1] =>
          destruct (IH w1) as (Hok' & Hkeep & Hrows)
      end.
      * cbn. apply rewritten_companies_ok; assumption.
      * cbn. intros n Hn.
        rewrite (rewrite_rows_keys Company.id) by reflexivity.
        apply Hfresh. exact Hn.
      * cbn. exact Hinj.
      * cbn [db set_syncStatus set_trace set_db companies] in Hkeep.
        split; [exact Hok'|]. split.
        -- intros r0 Hr0 Hnot0. rewrite fmap_cons, not_elem_of_cons in Hnot0.
           destruct Hnot0 as [Hne Hnot0].
           apply Hkeep; [|exact Hnot0].
           unfold Sql.rewrite_rows. apply list_elem_of_fmap. exists r0.
           split; [|exact Hr0].
           rewrite decide_False; [reflexivity|].
           intros Hid. apply Hne.
           assert (r0 = r) as ->
             by (eapply (key_determines_row Company.id); eauto).
           exact Hext.
        -- intros Hnd c' Hc'. rewrite fmap_cons in Hnd.
           apply NoDup_cons in Hnd as [Hc_new Hnd].
           apply elem_of_cons in Hc' as [->|Hc']; [|apply Hrows; assumption].
           exists (Sql.set_company
                     (CreateCompany_as_update
                        (EtlService.transformHubspotCompany c)) r).
           split; [|split; [reflexivity|split; reflexivity]].
           apply Hkeep; [|cbn; exact Hc_new].
           unfold Sql.rewrite_rows. apply list_elem_of_fmap. exists r.
           rewrite decide_True by reflexivity. split; [reflexivity|exact Hr].
    + rewrite (syncCompany_new w c Hnot (Hfresh _ (le_n _))).
      match goal with
      | |- context [for_of cs EtlService.syncCompany ?w1] =>
          destruct (IH w1) as (Hok' & Hkeep & Hrows)
      end.
      * cbn. split; cbn [companies]; rewrite fmap_app; cbn [fmap list_fmap];
          apply NoDup_app; (split; [assumption|]);
          (split; [|apply NoDup_singleton]);
          intros x Hx Hx'; apply list_elem_of_singleton in Hx'; subst x.
        -- apply (Hfresh (uuid_next w)); [lia|exact Hx].
        -- apply Hnot. exact Hx.
      * cbn. intros n Hn Hin. rewrite fmap_app in Hin.
        apply elem_of_app in Hin as [Hin|Hin].
        -- apply (Hfresh n); [lia|exact Hin].
        -- cbn in Hin. apply list_elem_of_singleton in Hin.
           apply Hinj in Hin; lia.
      * cbn. intros n m Hn Hm. apply Hinj; lia.
      * cbn [db set_syncStatus set_trace set_db set_clock_next set_uuid_next
               companies] in Hkeep.
        split; [exact Hok'|]. split.
        -- intros r0 Hr0 Hnot0. rewrite fmap_cons, not_elem_of_cons in Hnot0.
           destruct Hnot0 as [_ Hnot0].
           apply Hkeep; [|exact Hnot0]. apply elem_of_app. left. exact Hr0.
        -- intros Hnd c' Hc'. rewrite fmap_cons in Hnd.
           apply NoDup_cons in Hnd as [Hc_new Hnd].
           apply elem_of_cons in Hc' as [->|Hc']; [|apply Hrows; assumption].
           exists {| Company.id := uuid w (uuid_next w);
                     Company.hubspot_id := hs_id c;
                     Company.name :=
                       CreateCompany.name (EtlService.transformHubspotCompany c);
                     Company.domain :=
                       CreateCompany.domain (EtlService.transformHubspotCompany c);
                     Company.created_at := clock w (clock_next w) |}.
           split; [|split; [reflexivity|split; reflexivity]].
           apply Hkeep; [|cbn; exact Hc_new].
           apply elem_of_app. right. left.
Qed.

(** A pass over companies that the table already holds as they are
    rewrites every row with the values it has: the database does not
    change. *)
Lemma company_loop_again (cs : list HubSpotObject) :
  ∀ w,
    companies_ok (db w) →
    (∀ c, c ∈ cs → holds_company (db w) c) →
    ∃ w',
      for_of cs EtlService.syncCompany w = (Return tt, w')
      ∧ db w' = db w
      ∧ heap w' = heap w
      ∧ warnings w' = warnings w
      ∧ companiesProcessed (syncStatus w')
        = companiesProcessed (syncStatus w) + length cs
      ∧ errors (syncStatus w') = errors (syncStatus w).
Proof.
  induction cs as [|c cs IH]; intros w Hok Hheld.
  - exists w. cbn. repeat split; auto.
  - cbn [for_of]. unfold bind.
    destruct (Hheld c) as (r & Hr & Hext & Hname & Hdom); [left|].
    rewrite (syncCompany_existing w c r Hok Hr Hext).
    assert (Sql.set_company
              (CreateCompany_as_update (EtlService.transformHubspotCompany c)) r
            = r) as Hsame.
    { destruct r; cbn in *. subst. reflexivity. }
    assert (Sql.rewrite_rows Company.id (Company.id r)
              (Sql.set_company
                 (CreateCompany_as_update (EtlService.transformHubspotCompany c)))
              (companies (db w)) = companies (db w)) as Hrows.
    { apply rewrite_rows_id. intros x Hx Hid. destruct Hok as [Hids _].
      assert (x = r) as -> by (eapply (key_determines_row Company.id); eauto).
      exact Hsame. }
    cbv zeta. rewrite Hrows, database_eta.
    match goal with
    | |- context [for_of cs EtlService.syncCompany ?w1] =>
        destruct (IH w1) as (w' & Hrun & Hdb & Hheap & Hwarn & Hn & Hloc)
    end.
    + cbn. exact Hok.
    + cbn. intros c' Hc'. apply Hheld. right. exact Hc'.
    + exists w'. split; [exact Hrun|].
      cbn in Hdb, Hheap, Hwarn, Hn, Hloc.
      split; [exact Hdb|]. split; [exact Hheap|]. split; [exact Hwarn|].
      split; [rewrite Hn; cbn; lia|exact Hloc].
Qed.

(** X26. The company phase is idempotent on the store. On a consistent
    company table (the identifiers drawn for new rows being unused), and
    for fetched companies that carry pairwise different external ids,
    going through the same companies a second time changes nothing in
    the database: every company is found under its external id and
    rewritten with the values it already has. The second pass succeeds
    on every company and counts each one again. *)
Theorem company_phase_is_idempotent (cs : list HubSpotObject) (w : World) :
  companies_ok (db w) →
  (∀ n, uuid_next w ≤ n → uuid w n ∉ Company.id <$> companies (db w)) →
  (∀ n m, uuid_next w ≤ n → uuid_next w ≤ m → uuid w n = uuid w m → n = m) →
  NoDup (hs_id <$> cs) →
  let w1 := snd (for_of cs EtlService.syncCompany w) in
  let r2 := for_of cs EtlService.syncCompany w1 in
  fst r2 = Return tt
  ∧ db (snd r2) = db w1
  ∧ companiesProcessed (syncStatus (snd r2))
    = companiesProcessed (syncStatus w1) + length cs
  ∧ status_errors (snd r2) = status_errors w1
  ∧ (∀ c, c ∈ cs → holds_company (db w1) c).
Proof.
  intros Hok Hfresh Hinj Hnd w1 r2.
  destruct (company_loop_rows cs w Hok Hfresh Hinj) as (Hok1 & _ & Hheld).
  fold w1 in Hok1, Hheld. specialize (Hheld Hnd).
  destruct (company_loop_again cs w1 Hok1 Hheld)
    as (w2 & Hrun & Hdb & Hheap & _ & Hn & Hloc).
  subst r2. rewrite Hrun. cbn [fst snd].
  split; [reflexivity|]. split; [exact Hdb|]. split; [exact Hn|].
  split; [|exact Hheld].
  unfold status_errors, array_read. rewrite Hloc, Hheap. reflexivity.
Qed.

Lemma company_phase_is_idempotent_witness :
  let cs := [Sample.obj "900" [("name", "Acme Corp")];
             Sample.obj "901" [("name", "Bolt"); ("domain", "bolt.io")]] in
  let w1 := snd (for_of cs EtlService.syncCompany Sample.with_acme) in
  db (snd (for_of cs EtlService.syncCompany w1)) = db w1.
Proof.
  pose proof (company_phase_is_idempotent
                [Sample.obj "900" [("name", "Acme Corp")];
                 Sample.obj "901" [("name", "Bolt"); ("domain", "bolt.io")]]
                Sample.with_acme) as H.
  destruct H as (_ & H & _).
  - split; cbn; repeat constructor; intros H; inversion H.
  - intros n _ Hin. cbn in Hin. apply list_elem_of_singleton in Hin.
    unfold Sample.nth_uuid in Hin. discriminate.
  - intros n m _ _. apply nth_uuid_inj.
  - cbn. repeat constructor.
    + intros H. apply list_elem_of_singleton in H. discriminate.
    + intros H. inversion H.
  - exact H.
Defined.

(* ===================================================================== *)
(** * The company phase as a whole                                         *)
(* ===================================================================== *)

(** A traversal sends requests and reads answers; it leaves the store,
    the status, the heap, the warnings and the identifiers alone. *)
Lemma fetch_pages_local (u properties : string) (fuel : nat) :
  ∀ all cursor,
    keeps (same (λ w, (db w, syncStatus w, heap w, warnings w, uuid w,
                       uuid_next w)))
      (HubSpotApiService.fetch_pages fuel u properties all cursor).
Proof.
  induction fuel as [|fuel IH]; intros all cursor;
    cbn [HubSpotApiService.fetch_pages];
    keeps_descend ltac:(first [apply IH | same_leaf]).
Qed.

(** C6. The transformer gives every company a non-empty name and a
    non-empty domain: the trimmed value when there is one, the
    placeholder otherwise. So the test that guards the upsert always
    succeeds: the loop body of the company phase is the upsert followed
    by the count, with the error handler around it, and the company
    phase never logs a warning, whatever the upstream sends.

    For the phase this means that every fetched company reaches the
    upsert: when the traversal returns the companies [cs], the phase
    returns, and each company of [cs] is either counted - its upsert
    went through - or has the failure of its upsert in the error list,
    so counter and error list together grow by the length of [cs]. On a
    consistent company table, with the identifiers drawn for new rows
    unused, no upsert fails: every fetched company is counted and stored
    under its external id, and, when the external ids are pairwise
    different, with the name and the domain the transformer gave it. *)
Theorem company_defaults_never_skip :
  (∀ c : HubSpotObject,
     let name := cleanString (prop "name" (properties c)) in
     let domain := cleanString (prop "domain" (properties c)) in
     let data := EtlService.transformHubspotCompany c in
     CreateCompany.name data ≠ ""
     ∧ CreateCompany.domain data ≠ ""
     ∧ CreateCompany.name data
       = (if decide (name = "") then "Unknown Company" else name)
     ∧ CreateCompany.domain data
       = (if decide (domain = "") then "unknown.com" else domain)
     ∧ ∀ w,
         EtlService.syncCompany c w
         = try_catch
             (CompanyService.upsertCompanyByHubspotId data ;;;
              EtlService.update_status EtlService.incr_companiesProcessed)
             (λ error,
                EtlService.errors_push
                  ("Failed to sync company " +:+ hs_id c +:+ ": "
                   +:+ formatError error)) w)
  ∧ (∀ w, warnings (snd (EtlService.syncCompanies w)) = warnings w)
  ∧ (∀ w cs,
       fst (HubSpotApiService.getAllCompanies w) = Return cs →
       status_allocated w →
       let w' := snd (EtlService.syncCompanies w) in
       fst (EtlService.syncCompanies w) = Return tt
       ∧ companiesProcessed (syncStatus w') + length (status_errors w')
         = companiesProcessed (syncStatus w) + length (status_errors w)
           + length cs
       ∧ (∃ msgs,
            status_errors w' = status_errors w ++ msgs
            ∧ Forall (λ m, ∃ c, c ∈ cs ∧ m = company_failure c) msgs)
       ∧ (companies_ok (db w) →
          (∀ n, uuid_next w ≤ n →
                uuid w n ∉ Company.id <$> companies (db w)) →
          (∀ n m, uuid_next w ≤ n → uuid_next w ≤ m →
                  uuid w n = uuid w m → n = m) →
          companiesProcessed (syncStatus w')
          = companiesProcessed (syncStatus w) + length cs
          ∧ status_errors w' = status_errors w
          ∧ (∀ c, c ∈ cs →
                  hs_id c ∈ Company.hubspot_id <$> companies (db w'))
          ∧ (NoDup (hs_id <$> cs) →
             ∀ c, c ∈ cs → holds_company (db w') c))).
Proof.
  split; [|split].
  - intros c name domain data.
    destruct (transformHubspotCompany_truthy c) as [Hn Hd].
    split; [apply truthy_true; exact Hn|].
    split; [apply truthy_true; exact Hd|].
    split; [|split].
    + subst data name. unfold EtlService.transformHubspotCompany. cbn.
      destruct (decide (cleanString (prop "name" (properties c)) = "")) as [E|E].
      * apply truthy_false in E. rewrite E. reflexivity.
      * apply truthy_true in E. rewrite E. reflexivity.
    + subst data domain. unfold EtlService.transformHubspotCompany. cbn.
      destruct (decide (cleanString (prop "domain" (properties c)) = "")) as [E|E].
      * apply truthy_false in E. rewrite E. reflexivity.
      * apply truthy_true in E. rewrite E. reflexivity.
    + intros w. apply syncCompany_upserts.
  - assert (keeps (same warnings) EtlService.syncCompanies) as H; [|exact H].
    unfold EtlService.syncCompanies.
    apply keeps_bind; [apply _| |].
    + intros w. unfold HubSpotApiService.getAllCompanies.
      apply fetch_pages_warnings.
    + intros cs. apply keeps_for_of; [apply _|].
      intros c _. apply syncCompany_warnings.
  - intros w cs Hfetch Halloc. cbv zeta.
    unfold EtlService.syncCompanies, bind.
    assert (same (λ w, (db w, syncStatus w, heap w, warnings w, uuid w,
                        uuid_next w))
              w (snd (HubSpotApiService.getAllCompanies w))) as Hloc
      by apply fetch_pages_local.
    destruct (HubSpotApiService.getAllCompanies w) as [[cs'|e] w1];
      cbn [fst snd] in Hfetch, Hloc; [|discriminate].
    injection Hfetch as ->. unfold same in Hloc.
    injection Hloc as Hdb Hst Hheap Hwarn Huuid Hnext.
    assert (status_allocated w1) as Halloc1
      by (unfold status_allocated; rewrite Hst, Hheap; exact Halloc).
    assert (status_errors w1 = status_errors w) as Herrs
      by (unfold status_errors, array_read; rewrite Hst, Hheap; reflexivity).
    destruct (company_loop cs w1 Halloc1)
      as (w' & Hloop & Hwarn' & _ & _ & _ & _ & _ & _ & msgs & Hmsgs & Hall).
    pose proof (company_loop_accounts cs w1 Halloc1) as Hacc.
    cbv zeta in Hacc. destruct Hacc as (Hacc & _ & _).
    unfold companies_accounted in Hacc.
    pose proof (company_loop_stores cs w1) as Hstores.
    pose proof (company_loop_rows cs w1) as Hrows.
    cbv zeta in Hrows.
    rewrite Hloop in *. cbn [fst snd] in *.
    split; [reflexivity|].
    split; [rewrite Hwarn', Herrs, Hst in Hacc; lia|].
    split; [exists msgs; rewrite <- Herrs; split; assumption|].
    intros Hok Hfresh Hinj.
    rewrite <- Hdb in Hok.
    assert (∀ n, uuid_next w1 ≤ n →
                 uuid w1 n ∉ Company.id <$> companies (db w1)) as Hfresh1
      by (rewrite Hdb, Huuid, Hnext; exact Hfresh).
    assert (∀ n m, uuid_next w1 ≤ n → uuid_next w1 ≤ m →
                   uuid w1 n = uuid w1 m → n = m) as Hinj1
      by (rewrite Huuid, Hnext; exact Hinj).
    destruct (Hstores Hok Hfresh1 Hinj1)
      as (w2 & Hrun & Hst2 & Hheap2 & _ & _ & _ & _ & _ & Hin).
    injection Hrun as <-.
    destruct (Hrows Hok Hfresh1 Hinj1) as (_ & _ & Hheld).
    destruct (iter_incr_companiesProcessed (length cs) (syncStatus w1))
      as (Hn & _ & _ & _ & _ & Hlist).
    cbv zeta in Hn, Hlist.
    split; [rewrite Hst2, Hn, Hst; reflexivity|].
    split; [rewrite <- Herrs; unfold status_errors, array_read;
            rewrite Hst2, Hlist, Hheap2; reflexivity|].
    split; [exact Hin|exact Hheld].
Qed.

(** Of the two companies of [Sample.nameless_company] the second has
    neither name nor domain: both are counted, and the second is stored
    under the placeholders. *)
Lemma company_defaults_never_skip_witness :
  let w' := snd (EtlService.syncCompanies Sample.nameless_company) in
  companiesProcessed (syncStatus w') = 2
  ∧ ∃ r, r ∈ companies (db w')
         ∧ Company.hubspot_id r = "901"
         ∧ Company.name r = "Unknown Company"
         ∧ Company.domain r = "unknown.com".
Proof.
  destruct company_defaults_never_skip as (_ & _ & H).
  destruct (H Sample.nameless_company
              [Sample.obj "900" [("name", "Acme"); ("domain", "acme.com")];
               Sample.nameless] eq_refl) as (_ & _ & _ & H').
  - unfold status_allocated. cbn. lia.
  - destruct H' as (Hn & _ & _ & Hheld).
    + split; cbn; constructor.
    + intros n _ Hin. cbn in Hin. inversion Hin.
    + intros n m _ _. apply nth_uuid_inj.
    + cbv zeta. split; [exact Hn|].
      destruct (Hheld) with (c := Sample.nameless)
        as (r & Hr & Hext & Hname & Hdom).
      * cbn. repeat constructor.
        -- intros Hin. apply list_elem_of_singleton in Hin. discriminate.
        -- intros Hin. inversion Hin.
      * right. left.
      * exists r. split; [exact Hr|]. split; [exact Hext|].
        split; [exact Hname|exact Hdom].
Defined.

(* ===================================================================== *)
(** * Backing off                                                          *)
(* ===================================================================== *)

(** X27. With a base delay of at least one millisecond - the default of 1000
    in particular - [exponentialBackoff] gives a delay that starts at
    the base (capped), never exceeds 30 seconds, and never gets shorter
    from one attempt to the next: below the cap it doubles each time.
    With the default base it is 1000, 2000, 4000, 8000 and 16000
    milliseconds for the attempts 0 to 4, and 30000 from attempt 5 on. *)
Theorem exponentialBackoff_doubles_to_the_cap (attempt base : N) :
  (1 ≤ base)%N →
  ∃ d,
    exponentialBackoff attempt (Some base) = Some d
    ∧ (d ≤ 30000)%N
    ∧ (N.min base 30000 ≤ d)%N
    ∧ (∃ d', exponentialBackoff (attempt + 1) (Some base) = Some d'
             ∧ (d ≤ d')%N
             ∧ (d' < 30000 → d' = 2 * d)%N)
    ∧ exponentialBackoff attempt None = exponentialBackoff attempt (Some 1000%N)
    ∧ (base = 1000%N →
       d = if (attempt <? 5)%N then (1000 * 2 ^ attempt)%N else 30000%N).
Proof.
  intros Hbase. unfold exponentialBackoff. cbn [default from_option id].
  assert ((base =? 0)%N = false) as -> by (apply N.eqb_neq; lia).
  cbn [andb].
  assert (1 ≤ 2 ^ attempt)%N as Hpow.
  { assert (2 ^ attempt ≠ 0)%N by (apply N.pow_nonzero; lia). lia. }
  eexists. split; [reflexivity|].
  split; [apply N.le_min_r|].
  split; [apply N.min_le_compat_r; nia|].
  split; [|split; [reflexivity|]].
  - eexists. split; [reflexivity|].
    rewrite N.pow_add_r, N.pow_1_r.
    split; [apply N.min_le_compat_r; nia|].
    intros Hlt. rewrite N.min_l in * by lia.
    rewrite N.min_l by nia. lia.
  - intros ->. destruct (attempt <? 5)%N eqn:E.
    + apply N.ltb_lt in E. apply N.min_l.
      assert (2 ^ attempt ≤ 2 ^ 4)%N as H
        by (apply N.pow_le_mono_r; lia).
      change (2 ^ 4)%N with 16%N in H. lia.
    + apply N.ltb_ge in E. apply N.min_r.
      assert (2 ^ 5 ≤ 2 ^ attempt)%N as H
        by (apply N.pow_le_mono_r; lia).
      change (2 ^ 5)%N with 32%N in H. lia.
Qed.

Lemma exponentialBackoff_doubles_to_the_cap_witness :
  exponentialBackoff 3 None = Some 8000%N
  ∧ exponentialBackoff 9 None = Some 30000%N.
Proof.
  destruct (exponentialBackoff_doubles_to_the_cap 3 1000)
    as (d3 & H3 & _ & _ & _ & E3 & V3); [lia|].
  destruct (exponentialBackoff_doubles_to_the_cap 9 1000)
    as (d9 & H9 & _ & _ & _ & E9 & V9); [lia|].
  rewrite E3, E9, H3, H9, (V3 eq_refl), (V9 eq_refl). split; reflexivity.
Defined.
